(** * easy-dag: a shallow embedding of the DAG engine and its properties

    The development follows the Go sources of the package [easydag]:
    - [node.go], the metadata file and [dag_builder.go]: node definitions,
      the frozen metadata table, the interning pass [add], the cycle
      detector [detectCycle] and [build];
    - the DAG file: [ToMermaid] / [WriteAsMermaid] and [RunWithPool];
    - [pool.go]: the FIFO worker pool;
    - [runtime_node.go]: the per-run node state machine.

    Go values are modelled as follows.  A pointer [*Node[T]] is an index
    into a heap [list Node] ([None] is the nil pointer); [int], [int32],
    [uint] and [time.Duration] are [Z] with the wrap-around or saturation of
    the Go operation written out; a [string] is a [string]; an [error] is
    [option string] ([None] is nil, [Some s] an error whose [Error()] is
    [s]); callbacks are opaque, only their presence is recorded. *)

From stdpp Require Import base strings list gmap pretty.
From Stdlib Require Import ZArith Lia.

Open Scope Z_scope.

(** ** Go machine arithmetic *)

Module Go.

(** Two's complement reduction of an [int32] result. *)
Definition wrap32 (x : Z) : Z := (x + 2^31) mod 2^32 - 2^31.

(** Reduction of a [uint] result (64-bit platforms). *)
Definition wrapU64 (x : Z) : Z := x mod 2^64.

Definition MaxInt64 : Z := 2^63 - 1.
Definition MinInt64 : Z := - 2^63.

(** Reduction of an [int] result (64-bit platforms). *)
Definition wrapInt (x : Z) : Z := (x + 2^63) mod 2^64 - 2^63.

(** [time.Time] is the number of nanoseconds since the zero [Time]
    (January 1, year 1, 00:00:00 UTC); the zero value is [0].
    [t.Add(d)] is exact: a [Time] counts seconds in an [int64]. *)
Definition Time := Z.
Definition Add (t : Time) (d : Z) : Time := t + d.
Definition After (t u : Time) : bool := u <? t.

(** [t.Sub(u)]: a [Duration] is an [int64] of nanoseconds, and the
    package documents that a difference outside its range is replaced by
    the maximum (or minimum) duration. *)
Definition Sub (t u : Time) : Z := Z.max MinInt64 (Z.min MaxInt64 (t - u)).

(** [time.Since(t)] at the instant [now]. *)
Definition Since (now t : Time) : Z := Sub now t.

(** The Unix epoch, as a [Time]: an instant every [time.Now()] follows. *)
Definition unixEpoch : Time := 62135596800 * 1000000000.

(** [errors.New(s)] *)
Definition error := option string.

(** [strings.Join] *)
Definition Join (l : list string) (sep : string) : string := String.concat sep l.

(** The line feed of the Go escape [\n]. *)
Definition nl : string := String (Ascii.ascii_of_nat 10) EmptyString.

(** [%d] of [fmt.Sprintf] *)
Definition fmt_d (i : Z) : string := pretty i.

End Go.

(** ** Node definitions and metadata ([node.go], metadata file) *)

Definition ptr := nat.

(** [BackoffFunc]: attempt index to duration. *)
Definition BackoffFunc := Z → Z.

Record Node := mkNode {
  Name : string;
  Processor : bool;                    (* is the callback non-nil *)
  LocalTimeout : Z;
  TotalTimeout : Z;
  Dependencies : list (option ptr);
  WeakDependencies : list (option ptr);
  MaxAttempts : Z;
  Backoff : option BackoffFunc;
  OnSuccess : bool;
  OnFailure : bool
}.

Definition emptyNode : Node :=
  mkNode "" false 0 0 [] [] 0 None false false.

Global Instance Node_inhabited : Inhabited Node := populate emptyNode.

(** The definitions the caller holds: the object a pointer refers to. *)
Definition heap := list Node.

Record nodeMetadata := mkMeta {
  name : string;
  processor : bool;
  localTimeout : Z;
  totalTimeout : Z;
  depCnt : Z;                          (* int32 *)
  children : list nat;
  weakChildren : list nat;
  maxAttempts : Z;                     (* uint *)
  backoffFunc : option BackoffFunc;
  onSuccess : bool;
  onFailure : bool
}.

Global Instance nodeMetadata_inhabited : Inhabited nodeMetadata :=
  populate (mkMeta "" false 0 0 0 [] [] 0 None false false).

Definition newNodeMetadata (node : Node) : nodeMetadata :=
  let metaData :=
    mkMeta (Name node) (Processor node) (LocalTimeout node) (TotalTimeout node)
           0 [] [] (MaxAttempts node) (Backoff node) (OnSuccess node) (OnFailure node) in
  if String.eqb (name metaData) "" then
    mkMeta "noname" (processor metaData) (localTimeout metaData) (totalTimeout metaData)
           (depCnt metaData) (children metaData) (weakChildren metaData)
           (maxAttempts metaData) (backoffFunc metaData) (onSuccess metaData)
           (onFailure metaData)
  else metaData.

Definition add_child (c : nat) (m : nodeMetadata) : nodeMetadata :=
  mkMeta (name m) (processor m) (localTimeout m) (totalTimeout m) (depCnt m)
         (children m ++ [c]) (weakChildren m) (maxAttempts m) (backoffFunc m)
         (onSuccess m) (onFailure m).

Definition add_weakChild (c : nat) (m : nodeMetadata) : nodeMetadata :=
  mkMeta (name m) (processor m) (localTimeout m) (totalTimeout m) (depCnt m)
         (children m) (weakChildren m ++ [c]) (maxAttempts m) (backoffFunc m)
         (onSuccess m) (onFailure m).

Definition incr_depCnt (m : nodeMetadata) : nodeMetadata :=
  mkMeta (name m) (processor m) (localTimeout m) (totalTimeout m)
         (Go.wrap32 (depCnt m + 1))
         (children m) (weakChildren m) (maxAttempts m) (backoffFunc m)
         (onSuccess m) (onFailure m).

(** ** The frozen graph (DAG file) *)

Record DAG := mkDAG {
  dag_metaNodes : list nodeMetadata;
  rootNodes : list nat
}.

(** ** The builder ([dag_builder.go]) *)

Record dagBuilder := mkBuilder {
  metaNodes : list nodeMetadata;
  index : gmap ptr nat;
  visited : list bool;
  next : list Z
}.

Definition newDagBuilder : dagBuilder := mkBuilder [] ∅ [] [].

Definition set_metaNodes (b : dagBuilder) (ms : list nodeMetadata) : dagBuilder :=
  mkBuilder ms (index b) (visited b) (next b).

(** One iteration of a dependency loop of [add], after the recursive call
    returned [depIdx]: the dependency gains [idx] as a (weak) child and the
    node under construction counts one more dependency. *)
Definition link (weak : bool) (idx depIdx : nat) (b : dagBuilder) : dagBuilder :=
  let ms := alter (if weak then add_weakChild idx else add_child idx) depIdx (metaNodes b) in
  set_metaNodes b (alter incr_depCnt idx ms).

(** The two [for ... range] loops of [add], over the recursive call [rec]. *)
Fixpoint add_loop (rec : ptr → dagBuilder → option (dagBuilder * nat))
    (weak : bool) (idx : nat) (deps : list (option ptr)) (b : dagBuilder)
    : option dagBuilder :=
  match deps with
  | [] => Some b
  | None :: rest => add_loop rec weak idx rest b
  | Some dep :: rest =>
      match rec dep b with
      | None => None
      | Some (b', depIdx) => add_loop rec weak idx rest (link weak idx depIdx b')
      end
  end.

(** [add]: the recursion is bounded by [fuel]; [None] means the bound was
    reached ([add_total] below shows that [length h + 1] always suffices). *)
Fixpoint add (fuel : nat) (h : heap) (node : ptr) (b : dagBuilder)
    : option (dagBuilder * nat) :=
  match index b !! node with
  | Some idx => Some (b, idx)
  | None =>
      match fuel with
      | O => None
      | S fuel' =>
          let idx := length (metaNodes b) in
          let b1 := mkBuilder (metaNodes b ++ [newNodeMetadata (h !!! node)])
                              (<[node := idx]> (index b)) (visited b) (next b) in
          match add_loop (add fuel' h) false idx (Dependencies (h !!! node)) b1 with
          | None => None
          | Some b2 =>
              match add_loop (add fuel' h) true idx (WeakDependencies (h !!! node)) b2 with
              | None => None
              | Some b3 => Some (b3, idx)
              end
          end
      end
  end.

Definition cycle_prefix : string := "cyclic dependency detected: ".

(** The [for cur := b.next[idx]; cur != idx; cur = b.next[cur]] loop:
    the names met, in the order they are appended. *)
Fixpoint cycle_walk (fuel : nat) (b : dagBuilder) (idx : nat) (cur : Z)
    : option (list string) :=
  if cur =? Z.of_nat idx then Some []
  else match fuel with
       | O => None
       | S fuel' =>
           match cycle_walk fuel' b idx (next b !!! Z.to_nat cur) with
           | None => None
           | Some l => Some (name (metaNodes b !!! Z.to_nat cur) :: l)
           end
       end.

Definition cycle_error (cycle : list string) : string :=
  cycle_prefix +:+ Go.Join cycle " -> ".

Definition set_visited (b : dagBuilder) (idx : nat) : dagBuilder :=
  mkBuilder (metaNodes b) (index b) (<[idx := true]> (visited b)) (next b).

Definition set_next (b : dagBuilder) (idx : nat) (v : Z) : dagBuilder :=
  mkBuilder (metaNodes b) (index b) (visited b) (<[idx := v]> (next b)).

(** The child loops of [detectCycle]. *)
Fixpoint detect_loop (rec : nat → dagBuilder → option (dagBuilder * Go.error))
    (idx : nat) (cs : list nat) (b : dagBuilder) : option (dagBuilder * Go.error) :=
  match cs with
  | [] => Some (b, None)
  | child :: rest =>
      match rec child (set_next b idx (Z.of_nat child)) with
      | None => None
      | Some (b', Some err) => Some (b', Some err)
      | Some (b', None) => detect_loop rec idx rest b'
      end
  end.

Fixpoint detectCycle (fuel : nat) (idx : nat) (b : dagBuilder)
    : option (dagBuilder * Go.error) :=
  match fuel with
  | O => None
  | S fuel' =>
      if negb (next b !!! idx =? -1) then
        match cycle_walk (length (metaNodes b)) b idx (next b !!! idx) with
        | None => None
        | Some walk =>
            let cycle := [name (metaNodes b !!! idx)] ++ walk ++ [name (metaNodes b !!! idx)] in
            Some (b, Some (cycle_error (reverse cycle)))
        end
      else if (visited b !!! idx : bool) then Some (b, None)
      else
        let b1 := set_visited b idx in
        match detect_loop (detectCycle fuel') idx (children (metaNodes b1 !!! idx)) b1 with
        | None => None
        | Some (b2, Some err) => Some (b2, Some err)
        | Some (b2, None) =>
            match detect_loop (detectCycle fuel') idx (weakChildren (metaNodes b2 !!! idx)) b2 with
            | None => None
            | Some (b3, Some err) => Some (b3, Some err)
            | Some (b3, None) => Some (set_next b3 idx (-1), None)
            end
        end
  end.

(** First loop of [build]: intern every non-nil input node. *)
Fixpoint build_add (h : heap) (nodes : list (option ptr)) (b : dagBuilder)
    : option dagBuilder :=
  match nodes with
  | [] => Some b
  | None :: rest => build_add h rest b
  | Some node :: rest =>
      match add (S (length h)) h node b with
      | None => None
      | Some (b', _) => build_add h rest b'
      end
  end.

(** Third loop of [build]: [detectCycle] from every index. *)
Fixpoint build_detect (idxs : list nat) (b : dagBuilder) : option (dagBuilder * Go.error) :=
  match idxs with
  | [] => Some (b, None)
  | idx :: rest =>
      match detectCycle (S (length (metaNodes b))) idx b with
      | None => None
      | Some (b', Some err) => Some (b', Some err)
      | Some (b', None) => build_detect rest b'
      end
  end.

Definition roots_of (ms : list nodeMetadata) : list nat :=
  omap (λ '(idx, node), if depCnt node =? 0 then Some idx else None)
       (imap (λ idx node, (idx, node)) ms).

(** [build]: the outer [option] is the recursion bound; inside, the Go pair
    [(DAG, error)] (a nil DAG pointer is [None]). *)
Definition build (h : heap) (nodes : list (option ptr)) : option (option DAG * Go.error) :=
  match build_add h nodes newDagBuilder with
  | None => None
  | Some b =>
      let n := length (metaNodes b) in
      let b := mkBuilder (metaNodes b) (index b) (replicate n false) (replicate n (-1)) in
      match build_detect (seq 0 n) b with
      | None => None
      | Some (_, Some err) => Some (None, Some err)
      | Some (b', None) =>
          Some (Some (mkDAG (metaNodes b') (roots_of (metaNodes b'))), None)
      end
  end.

Definition NewDAG := build.

(** ** Mermaid output (DAG file) *)

(** An [io.StringWriter]: a state and a [WriteString] that may fail. *)
Record StringWriter (W : Type) := mkWriter {
  WriteString : W → string → W * Go.error
}.
Arguments WriteString {W} _ _ _.

(** [strings.Builder]: appends, never fails. *)
Definition Builder : StringWriter string :=
  mkWriter string (λ w s, (w +:+ s, None)).

Section mermaid.
Context {W : Type} (wr : StringWriter W).

Fixpoint write_all (lines : list string) (w : W) : W * Go.error :=
  match lines with
  | [] => (w, None)
  | l :: rest =>
      match WriteString wr w l with
      | (w', Some err) => (w', Some err)
      | (w', None) => write_all rest w'
      end
  end.

Definition node_line (i : nat) (node : nodeMetadata) : string :=
  "    " +:+ Go.fmt_d (Z.of_nat i) +:+ "(" +:+ name node +:+ ")" +:+ Go.nl.

Definition strong_line (i : nat) (childIdx : nat) : string :=
  "    " +:+ Go.fmt_d (Z.of_nat i) +:+ " --> " +:+ Go.fmt_d (Z.of_nat childIdx) +:+ Go.nl.

Definition weak_line (i : nat) (weakChildIdx : nat) : string :=
  "    " +:+ Go.fmt_d (Z.of_nat i) +:+ " -.-> " +:+ Go.fmt_d (Z.of_nat weakChildIdx) +:+ Go.nl.

(** The writes of the second [for i, node := range dag.metaNodes] loop for
    one node: its strong children, then its weak children. *)
Definition edge_lines (i : nat) (node : nodeMetadata) : list string :=
  map (strong_line i) (children node) ++ map (weak_line i) (weakChildren node).

Definition WriteAsMermaid (dag : DAG) (w : W) : W * Go.error :=
  match WriteString wr w ("graph TB" +:+ Go.nl) with
  | (w1, Some err) => (w1, Some err)
  | (w1, None) =>
      match write_all (imap node_line (dag_metaNodes dag)) w1 with
      | (w2, Some err) => (w2, Some err)
      | (w2, None) =>
          write_all (concat (imap edge_lines (dag_metaNodes dag))) w2
      end
  end.
End mermaid.

Definition ToMermaid (dag : DAG) : string :=
  fst (WriteAsMermaid Builder dag "").

(** ** The test and the example of the repository *)

Module Examples.

(** [TestCycle]: node1 depends on node3, node2 on node1, node3 on node2. *)
Definition cycle_heap : heap :=
  [ mkNode "node1" false 0 0 [Some 2%nat] [] 0 None false false;
    mkNode "node2" false 0 0 [Some 0%nat] [] 0 None false false;
    mkNode "node3" false 0 0 [Some 1%nat] [] 0 None false false ].

(** The example program: node2 strongly depends on node1 (local timeout
    1ms), node3 weakly depends on node2. *)
Definition example_heap : heap :=
  [ mkNode "node1" true 0 0 [] [] 0 None false false;
    mkNode "node2" true 1000000 0 [Some 0%nat] [] 0 None false false;
    mkNode "node3" true 0 0 [] [Some 1%nat] 0 None false false ].

End Examples.

(** ** The worker pool ([pool.go]) *)

Module Pool.

(** A thunk [func()] is identified by a number; [None] is the nil func. *)
Definition thunk := nat.

(** [*task]: an address in the store of allocated tasks, [None] for nil. *)
Definition addr := nat.

Record task := mkTask {
  f : option thunk;
  next : option addr
}.

Record Pool := mkPool {
  store : list task;        (* the tasks allocated so far *)
  head : option addr;
  tail : option addr;
  len : Z;
  maxWorkers : Z;
  workers : Z
}.

(** [NewPool]: one task [t] with [t.next = t], which is head and tail. *)
Definition NewPool (maxWorkers : Z) : Pool :=
  mkPool [mkTask None (Some 0%nat)] (Some 0%nat) (Some 0%nat) 0 maxWorkers 0.

(** What a call of [Submit] did. *)
Inductive submitted :=
| Ignored                    (* nil thunk *)
| Spawned (g : thunk)        (* go p.work(g) *)
| Queued
| SubmitPanic.               (* nil pointer dereference *)

(** [Submit], the part under [p.mu]. *)
Definition Submit (g : option thunk) (p : Pool) : Pool * submitted :=
  match g with
  | None => (p, Ignored)
  | Some g' =>
      if workers p <? maxWorkers p then
        (mkPool (store p) (head p) (tail p) (len p) (maxWorkers p)
                (Go.wrapInt (workers p + 1)), Spawned g')
      else
        let newTail := length (store p) in
        let st := store p ++ [mkTask (Some g') None] in
        match tail p with
        | None => (p, SubmitPanic)
        | Some t =>
            let st := alter (λ x, mkTask (f x) (Some newTail)) t st in
            (mkPool st (head p) (Some newTail) (Go.wrapInt (len p + 1))
                    (maxWorkers p) (workers p), Queued)
        end
  end.

(** What a worker does after its thunk returned. *)
Inductive fetched :=
| Next (g : option thunk)    (* the value assigned to [f] for the next turn *)
| Exit
| FetchPanic.                (* nil pointer dereference *)

(** The part of the loop of [work] under [p.mu], after [f()] returned. *)
Definition work_fetch (p : Pool) : Pool * fetched :=
  if 0 <? len p then
    match head p ≫= (λ a, store p !! a) with
    | None => (p, FetchPanic)
    | Some t =>
        (mkPool (store p) (next t) (tail p)
                (Go.wrapInt (len p - 1)) (maxWorkers p) (workers p), Next (f t))
    end
  else
    (mkPool (store p) (head p) (tail p) (len p) (maxWorkers p)
            (Go.wrapInt (workers p - 1)), Exit).

(** The pool with its goroutines: [running] lists, for every live worker,
    the thunk it is executing; [log] lists the thunks whose execution
    began, in order; [panicked] is set when a goroutine panics, which
    ends the program. *)
Record system := mkSystem {
  pool : Pool;
  running : list thunk;
  log : list thunk;
  panicked : bool
}.

Inductive event :=
| ESubmit (g : option thunk)
| EReturn (w : nat).          (* the thunk of worker [w] returns *)

Definition start (maxWorkers : Z) : system :=
  mkSystem (NewPool maxWorkers) [] [] false.

Definition step (s : system) (e : event) : option system :=
  if panicked s then None
  else match e with
  | ESubmit g =>
      match Submit g (pool s) with
      | (p', Spawned g') => Some (mkSystem p' (running s ++ [g']) (log s ++ [g']) false)
      | (p', SubmitPanic) => Some (mkSystem p' (running s) (log s) true)
      | (p', _) => Some (mkSystem p' (running s) (log s) false)
      end
  | EReturn w =>
      match running s !! w with
      | None => None
      | Some _ =>
          match work_fetch (pool s) with
          | (p', Exit) => Some (mkSystem p' (delete w (running s)) (log s) false)
          | (p', Next (Some g)) =>
              Some (mkSystem p' (<[w := g]> (running s)) (log s ++ [g]) false)
          | (p', Next None) =>
              (* [f()] with a nil [f] *)
              Some (mkSystem p' (delete w (running s)) (log s) true)
          | (p', FetchPanic) => Some (mkSystem p' (delete w (running s)) (log s) true)
          end
      end
  end.

Fixpoint steps (s : system) (es : list event) : option system :=
  match es with
  | [] => Some s
  | e :: rest => match step s e with None => None | Some s' => steps s' rest end
  end.

End Pool.

(** ** The runtime node ([runtime_node.go]) and the runner ([RunWithPool]) *)

Module Runtime.

(** Modelled from the spec: the status constants [Waiting], [Running],
    [Succeeded], [Failed], whose declaration is not among the sources
    ("Status values (integers, ordered): Waiting=0, Running=1,
    Succeeded=2, Failed=3"). *)
Definition Waiting : Z := 0.
Definition Running : Z := 1.
Definition Succeeded : Z := 2.
Definition Failed : Z := 3.

(** [TimeoutErr = strErr("timeout")] *)
Definition TimeoutErr : string := "timeout".

Definition maxUint (a b : Z) : Z := if b <? a then a else b.
Definition minDuration (a b : Z) : Z := if a <? b then a else b.

(** The fields of [runtimeNode] that change during a run.  The metadata
    fields are read from the DAG; [children] and [weakChildren] are the
    runtime nodes at the metadata indices, as [RunWithPool] wires them.
    [mu] is the pair [readers], [writer]; [done] and [started] are the
    two channels, [true] once closed ([started] is the channel that
    [processWithTimeout] creates). *)
Record runtimeNode := mkRT {
  doneDepCnt : Z;
  status : Z;
  done : bool;
  started : bool;
  err : Go.error;
  readers : nat;
  writer : bool;
  begin : Go.Time;
  ddl : Go.Time;
  cost : Z;
  attempts : Z
}.

Definition newRuntimeNode : runtimeNode :=
  mkRT 0 Waiting false false None 0 false 0 0 0 0.

Definition set_doneDepCnt v (n : runtimeNode) :=
  mkRT v (status n) (done n) (started n) (err n) (readers n) (writer n)
       (begin n) (ddl n) (cost n) (attempts n).
Definition set_status v (n : runtimeNode) :=
  mkRT (doneDepCnt n) v (done n) (started n) (err n) (readers n) (writer n)
       (begin n) (ddl n) (cost n) (attempts n).
Definition set_done v (n : runtimeNode) :=
  mkRT (doneDepCnt n) (status n) v (started n) (err n) (readers n) (writer n)
       (begin n) (ddl n) (cost n) (attempts n).
Definition set_started v (n : runtimeNode) :=
  mkRT (doneDepCnt n) (status n) (done n) v (err n) (readers n) (writer n)
       (begin n) (ddl n) (cost n) (attempts n).
Definition set_err v (n : runtimeNode) :=
  mkRT (doneDepCnt n) (status n) (done n) (started n) v (readers n) (writer n)
       (begin n) (ddl n) (cost n) (attempts n).
Definition set_readers v (n : runtimeNode) :=
  mkRT (doneDepCnt n) (status n) (done n) (started n) (err n) v (writer n)
       (begin n) (ddl n) (cost n) (attempts n).
Definition set_writer v (n : runtimeNode) :=
  mkRT (doneDepCnt n) (status n) (done n) (started n) (err n) (readers n) v
       (begin n) (ddl n) (cost n) (attempts n).
Definition set_begin v (n : runtimeNode) :=
  mkRT (doneDepCnt n) (status n) (done n) (started n) (err n) (readers n) (writer n)
       v (ddl n) (cost n) (attempts n).
Definition set_ddl v (n : runtimeNode) :=
  mkRT (doneDepCnt n) (status n) (done n) (started n) (err n) (readers n) (writer n)
       (begin n) v (cost n) (attempts n).
Definition set_cost v (n : runtimeNode) :=
  mkRT (doneDepCnt n) (status n) (done n) (started n) (err n) (readers n) (writer n)
       (begin n) (ddl n) v (attempts n).
Definition set_attempts v (n : runtimeNode) :=
  mkRT (doneDepCnt n) (status n) (done n) (started n) (err n) (readers n) (writer n)
       (begin n) (ddl n) (cost n) v.

(** [status.CompareAndSwap(old, new)] *)
Definition CompareAndSwap (old new : Z) (n : runtimeNode) : runtimeNode * bool :=
  if status n =? old then (set_status new n, true) else (n, false).

(** [GetCost] at the instant [now]; the caller holds the read lock. *)
Definition GetCost (now : Go.Time) (n : runtimeNode) : Z :=
  if done n then cost n else Go.Since now (begin n).

Record NodeResult := mkResult {
  Status : Z;
  Err : Go.error;
  Begin : Go.Time;
  Cost : Z;
  Attempts : Z
}.

Definition getResult (now : Go.Time) (n : runtimeNode) : NodeResult :=
  mkResult (status n) (err n) (begin n) (GetCost now n) (attempts n).

(** History of a node, kept beside the state for the statements only:
    how often the processor was called, how many [onDepDone] calls the
    two loops of [run] made, how many bodies [fn] of [DoIfRunning] calls
    of the user ran, and whether the deadline branch of
    [processWithTimeout] won its compare-and-swap. *)
Record history := mkHist {
  invoked : nat;
  strongSent : nat;
  weakSent : nat;
  fnRuns : nat;
  timedOut : bool
}.

Definition newHistory : history := mkHist 0 0 0 0 false.

Definition incr_invoked (x : history) :=
  mkHist (S (invoked x)) (strongSent x) (weakSent x) (fnRuns x) (timedOut x).
Definition incr_strongSent (x : history) :=
  mkHist (invoked x) (S (strongSent x)) (weakSent x) (fnRuns x) (timedOut x).
Definition incr_weakSent (x : history) :=
  mkHist (invoked x) (strongSent x) (S (weakSent x)) (fnRuns x) (timedOut x).
Definition incr_fnRuns (x : history) :=
  mkHist (invoked x) (strongSent x) (weakSent x) (S (fnRuns x)) (timedOut x).
Definition set_timedOut (x : history) :=
  mkHist (invoked x) (strongSent x) (weakSent x) (fnRuns x) true.

(** *** Goroutines

    A goroutine is at a program point of the source.  [who] tells which
    goroutine executes [processWithRetry]: the one of [run] (no timeout
    configured) or the one that [processWithTimeout] starts. *)
Inductive who := Driver | Inner.

Inductive pc :=
(* RunWithPool *)
| MRoots (rest : list nat)           (* for _, idx := range dag.rootNodes *)
| MWait                              (* ctx.wg.Wait() *)
| MCollect (i : nat) (results : list NodeResult)  (* results[i] = node.getResult() *)
| MDone (results : list NodeResult)  (* return results *)
(* start, called from onDepDone or from RunWithPool; [k] is where the
   caller continues *)
| StartCas (child : nat) (k : pc)    (* status.CompareAndSwap(Waiting, Running) *)
(* run *)
| Run                                (* line 112: the four-way branch *)
| Notify                             (* line 121: status.Load() == Succeeded *)
| Strong (rest : list nat)           (* for _, child := range node.children *)
| Weak (rest : list nat)             (* for _, child := range node.weakChildren *)
| WgDone                             (* deferred ctx.wg.Done() *)
| RunReturned
(* fail, after its compare-and-swap succeeded *)
| FailErr (e : string) (k : pc)      (* node.err = err; onFailure *)
(* processWithTimeout *)
| InnerBegin                         (* the closure [process] up to close(started) *)
| WaitStarted                        (* <-started *)
| Select                             (* select on done and the timer *)
| TimeoutLock                        (* node.mu.Lock() *)
| TimeoutFail                        (* node.fail(params, TimeoutErr) *)
| TimeoutUnlock                      (* node.mu.Unlock() *)
| InnerReturned
(* processWithRetry *)
| LoopHead (w : who) (e : Go.error)  (* node.attempts < maxAttempts *)
| AttemptRLock (w : who) (e : Go.error)          (* DoIfRunning: mu.RLock() *)
| AttemptCheck (w : who) (e : Go.error)          (* status check and attempts++ *)
| AttemptRUnlock (w : who) (e : Go.error) (ok : bool)  (* deferred mu.RUnlock() *)
| Process (w : who)                  (* node.process(params): the call *)
| InProcessor (w : who)              (* the processor is executing *)
| StoreCost (w : who) (e : Go.error) (* deferred: cost.Store *)
| CloseDone (w : who) (e : Go.error) (* deferred: close(node.done) *)
| Finish (w : who) (e : Go.error)    (* deferred: success or fail *)
(* a DoIfRunning call of user code *)
| UserRLock
| UserCheck
| UserFn                             (* fn() is executing *)
| UserRUnlock (ok : bool)
| UserReturned (ok : bool).

(** The goroutines whose receiver is one node, in the order in which they
    were started: those that [start] dispatched to execute [run], those
    that [processWithTimeout] started, and the [DoIfRunning] calls of
    user code. *)
Record goroutines := mkGor {
  runs : list pc;
  inners : list pc;
  users : list pc
}.

Definition noGoroutines : goroutines := mkGor [] [] [].

(** A goroutine: the caller of [RunWithPool], or the [i]-th goroutine of
    its kind of node [k]. *)
Inductive gid :=
| GMain
| GRun (k i : nat)
| GInner (k i : nat)
| GUser (k i : nat).

(** What the processor does when it ends. *)
Inductive outcome :=
| Return (e : Go.error)
| Panic (v : string).

(** [process]: the error of the call, a panic being recovered. *)
Definition process_err (nm : string) (o : outcome) : Go.error :=
  match o with
  | Return e => e
  | Panic v => Some ("recover panic over node " +:+ nm +:+ ": " +:+ v)
  end.

Record state := mkState {
  nodes : list runtimeNode;          (* runtimeNodes *)
  hist : list history;
  gor : list goroutines;
  main : pc;                         (* the goroutine in RunWithPool *)
  wg : Z;                            (* ctx.wg *)
  t0 : Go.Time;                      (* ctx.begin *)
  now : Go.Time
}.

(** [RunWithPool] up to the loop over the roots, entered at time [t]. *)
Definition init (d : DAG) (t : Go.Time) : state :=
  mkState (replicate (length (dag_metaNodes d)) newRuntimeNode)
          (replicate (length (dag_metaNodes d)) newHistory)
          (replicate (length (dag_metaNodes d)) noGoroutines)
          (MRoots (rootNodes d)) 0 t t.

(** What is observed of the schedule: time passes, user code calls
    [DoIfRunning] on a node, a goroutine takes its next step, a processor
    ends, the timer of a [select] fires. *)
Inductive label :=
| Tick (dt : Z)
| UserCall (n : nat)
| Step (g : gid)
| Ends (g : gid) (o : outcome)
| Fires (g : gid).

(** *** One step of one goroutine

    A step is one access to the shared state.  The dispatch that follows
    a successful compare-and-swap of [start] ([wg.Add(1)] and the [go]
    statement or [pool.Submit]) is part of the step of the compare-and-swap:
    a dispatched [run] is a goroutine that may take its first step at any
    later time, or never. *)

Definition on_node (k : nat) (f : runtimeNode → runtimeNode) (s : state) : state :=
  mkState (alter f k (nodes s)) (hist s) (gor s) (main s) (wg s) (t0 s) (now s).

Definition on_hist (k : nat) (f : history → history) (s : state) : state :=
  mkState (nodes s) (alter f k (hist s)) (gor s) (main s) (wg s) (t0 s) (now s).

Definition on_gor (k : nat) (f : goroutines → goroutines) (s : state) : state :=
  mkState (nodes s) (hist s) (alter f k (gor s)) (main s) (wg s) (t0 s) (now s).

Definition set_main (p : pc) (s : state) : state :=
  mkState (nodes s) (hist s) (gor s) p (wg s) (t0 s) (now s).

Definition wg_add (z : Z) (s : state) : state :=
  mkState (nodes s) (hist s) (gor s) (main s) (wg s + z) (t0 s) (now s).

Definition advance (dt : Z) (s : state) : state :=
  mkState (nodes s) (hist s) (gor s) (main s) (wg s) (t0 s) (now s + dt).

Definition spawn_run (k : nat) : state → state :=
  on_gor k (λ g, mkGor (runs g ++ [Run]) (inners g) (users g)).

Definition spawn_inner (k : nat) : state → state :=
  on_gor k (λ g, mkGor (runs g) (inners g ++ [InnerBegin]) (users g)).

Definition spawn_user (k : nat) : state → state :=
  on_gor k (λ g, mkGor (runs g) (inners g) (users g ++ [UserRLock])).

Definition gid_node (g : gid) : nat :=
  match g with
  | GMain => 0%nat
  | GRun k _ | GInner k _ | GUser k _ => k
  end.

Definition get_pc (s : state) (g : gid) : option pc :=
  match g with
  | GMain => Some (main s)
  | GRun k i => gs ← gor s !! k; runs gs !! i
  | GInner k i => gs ← gor s !! k; inners gs !! i
  | GUser k i => gs ← gor s !! k; users gs !! i
  end.

Definition set_pc (g : gid) (p : pc) (s : state) : state :=
  match g with
  | GMain => set_main p s
  | GRun k i => on_gor k (λ gs, mkGor (<[i := p]> (runs gs)) (inners gs) (users gs)) s
  | GInner k i => on_gor k (λ gs, mkGor (runs gs) (<[i := p]> (inners gs)) (users gs)) s
  | GUser k i => on_gor k (λ gs, mkGor (runs gs) (inners gs) (<[i := p]> (users gs))) s
  end.

(** The timeout that the closure of [processWithTimeout] computes. *)
Definition effective_timeout (m : nodeMetadata) (t0 begin : Go.Time) : Z :=
  let timeout := Go.MaxInt64 in
  let timeout :=
    if 0 <? localTimeout m then minDuration timeout (localTimeout m) else timeout in
  if 0 <? totalTimeout m
  then minDuration timeout (Go.Sub (Go.Add t0 (totalTimeout m)) begin)
  else timeout.

(** Where [processWithRetry] returns to. *)
Definition after_retry (w : who) : pc :=
  match w with Driver => Notify | Inner => InnerReturned end.

(** [onDepDone] on child [c], called from the loop [loop] ([Strong] or
    [Weak]) of the [run] of node [k]: the atomic [Add(1)] and its
    comparison with [depCnt]. *)
Definition onDepDone (d : DAG) (k c : nat) (loop : list nat → pc) (rest : list nat)
    (sent : history → history) (s : state) : option (state * pc) :=
  ndc ← nodes s !! c;
  mc ← dag_metaNodes d !! c;
  let v := Go.wrap32 (doneDepCnt ndc + 1) in
  Some (on_hist k sent (on_node c (set_doneDepCnt v) s),
        if v =? depCnt mc then StartCas c (loop rest) else loop rest).

(** The step of a goroutine that executes on node [k] at program point
    [p]: the state after the step and the next program point.  [None]:
    the goroutine is blocked, has returned, or the label does not
    apply. *)
Definition exec (d : DAG) (s : state) (k : nat) (p : pc) (l : label)
    : option (state * pc) :=
  match p, l with
  (* RunWithPool *)
  | MRoots [], Step _ => Some (s, MWait)
  | MRoots (idx :: rest), Step _ => Some (s, StartCas idx (MRoots rest))
  | MWait, Step _ => if wg s =? 0 then Some (s, MCollect 0 []) else None
  | MCollect i results, Step _ =>
      match nodes s !! i with
      | None => Some (s, MDone results)
      | Some n =>
          (* GetCost takes the read lock *)
          if writer n then None
          else Some (s, MCollect (S i) (results ++ [getResult (now s) n]))
      end
  (* start *)
  | StartCas c kont, Step _ =>
      ndc ← nodes s !! c;
      if status ndc =? Waiting
      then Some (spawn_run c (wg_add 1 (on_node c (set_status Running) s)), kont)
      else Some (s, kont)
  (* run *)
  | Run, Step _ =>
      nd ← nodes s !! k;
      m ← dag_metaNodes d !! k;
      if (0 <? totalTimeout m) && Go.After (now s) (Go.Add (t0 s) (totalTimeout m)) then
        if status nd =? Running
        then Some (on_node k (set_status Failed) s, FailErr TimeoutErr Notify)
        else Some (s, Notify)
      else if negb (processor m) then
        if status nd =? Running
        then Some (on_node k (set_status Succeeded) s, Notify)
        else Some (s, Notify)
      else if (localTimeout m <=? 0) && (totalTimeout m <=? 0) then
        Some (on_node k (set_begin (now s)) s, LoopHead Driver None)
      else
        Some (spawn_inner k (on_node k (set_started false) s), WaitStarted)
  | Notify, Step _ =>
      nd ← nodes s !! k;
      m ← dag_metaNodes d !! k;
      if status nd =? Succeeded
      then Some (s, Strong (children m))
      else Some (s, Weak (weakChildren m))
  | Strong [], Step _ =>
      m ← dag_metaNodes d !! k;
      Some (s, Weak (weakChildren m))
  | Strong (c :: rest), Step _ => onDepDone d k c Strong rest incr_strongSent s
  | Weak [], Step _ => Some (s, WgDone)
  | Weak (c :: rest), Step _ => onDepDone d k c Weak rest incr_weakSent s
  | WgDone, Step _ => Some (wg_add (-1) s, RunReturned)
  (* fail *)
  | FailErr e kont, Step _ => Some (on_node k (set_err (Some e)) s, kont)
  (* processWithTimeout *)
  | InnerBegin, Step _ =>
      m ← dag_metaNodes d !! k;
      let timeout := effective_timeout m (t0 s) (now s) in
      Some (on_node k (λ n, set_started true
                              (set_ddl (Go.Add (now s) timeout)
                                 (set_begin (now s) n))) s,
            LoopHead Inner None)
  | WaitStarted, Step _ =>
      nd ← nodes s !! k;
      if started nd then Some (s, Select) else None
  | Select, Step _ =>
      nd ← nodes s !! k;
      if done nd then Some (s, Notify) else None
  | Select, Fires _ =>
      nd ← nodes s !! k;
      if ddl nd <=? now s then Some (s, TimeoutLock) else None
  | TimeoutLock, Step _ =>
      nd ← nodes s !! k;
      if negb (writer nd) && (readers nd =? 0)%nat
      then Some (on_node k (set_writer true) s, TimeoutFail)
      else None
  | TimeoutFail, Step _ =>
      nd ← nodes s !! k;
      if status nd =? Running
      then Some (on_hist k set_timedOut (on_node k (set_status Failed) s),
                 FailErr TimeoutErr TimeoutUnlock)
      else Some (s, TimeoutUnlock)
  | TimeoutUnlock, Step _ => Some (on_node k (set_writer false) s, Notify)
  (* processWithRetry *)
  | LoopHead w e, Step _ =>
      nd ← nodes s !! k;
      m ← dag_metaNodes d !! k;
      if attempts nd <? maxUint 1 (maxAttempts m)
      then Some (s, AttemptRLock w e)
      else Some (s, StoreCost w e)
  | AttemptRLock w e, Step _ =>
      nd ← nodes s !! k;
      if writer nd then None
      else Some (on_node k (λ n, set_readers (S (readers n)) n) s, AttemptCheck w e)
  | AttemptCheck w e, Step _ =>
      nd ← nodes s !! k;
      if negb (status nd =? Running)
      then Some (s, AttemptRUnlock w e false)
      else Some (on_node k (λ n, set_attempts (Go.wrapU64 (attempts n + 1)) n) s,
                 AttemptRUnlock w e true)
  | AttemptRUnlock w e ok, Step _ =>
      Some (on_node k (λ n, set_readers (pred (readers n)) n) s,
            if ok then Process w else StoreCost w e)
  | Process w, Step _ => Some (on_hist k incr_invoked s, InProcessor w)
  | InProcessor w, Ends _ o =>
      nd ← nodes s !! k;
      m ← dag_metaNodes d !! k;
      match process_err (name m) o with
      | None => Some (s, StoreCost w None)
      | Some e =>
          if negb (attempts nd =? maxUint 1 (maxAttempts m))
             && bool_decide (is_Some (backoffFunc m))
          then
            if negb (status nd =? Running)
            then Some (s, StoreCost w (Some e))
            else Some (s, LoopHead w (Some e))   (* after time.Sleep *)
          else Some (s, LoopHead w (Some e))
      end
  | StoreCost w e, Step _ =>
      Some (on_node k (λ n, set_cost (Go.Since (now s) (begin n)) n) s, CloseDone w e)
  | CloseDone w e, Step _ => Some (on_node k (set_done true) s, Finish w e)
  | Finish w None, Step _ =>
      nd ← nodes s !! k;
      if status nd =? Running
      then Some (on_node k (set_status Succeeded) s, after_retry w)
      else Some (s, after_retry w)
  | Finish w (Some e), Step _ =>
      nd ← nodes s !! k;
      if status nd =? Running
      then Some (on_node k (set_status Failed) s, FailErr e (after_retry w))
      else Some (s, after_retry w)
  (* DoIfRunning, called by user code *)
  | UserRLock, Step _ =>
      nd ← nodes s !! k;
      if writer nd then None
      else Some (on_node k (λ n, set_readers (S (readers n)) n) s, UserCheck)
  | UserCheck, Step _ =>
      nd ← nodes s !! k;
      if negb (status nd =? Running)
      then Some (s, UserRUnlock false)
      else Some (on_hist k incr_fnRuns s, UserFn)
  | UserFn, Step _ => Some (s, UserRUnlock true)
  | UserRUnlock ok, Step _ =>
      Some (on_node k (λ n, set_readers (pred (readers n)) n) s, UserReturned ok)
  | _, _ => None
  end.

Definition step (d : DAG) (s : state) (l : label) : option state :=
  match l with
  | Tick dt => if 0 <? dt then Some (advance dt s) else None
  | UserCall n =>
      if decide (n < length (nodes s))%nat then Some (spawn_user n s) else None
  | Step g | Ends g _ | Fires g =>
      p ← get_pc s g;
      sp ← exec d s (gid_node g) p l;
      Some (set_pc g sp.2 sp.1)
  end.

Fixpoint run_trace (d : DAG) (tr : list label) (s : state) : option state :=
  match tr with
  | [] => Some s
  | l :: rest =>
      match step d s l with
      | None => None
      | Some s' => run_trace d rest s'
      end
  end.

(** The states of the runs of [d]. *)
Definition reachable (d : DAG) (s : state) : Prop :=
  ∃ t tr, run_trace d tr (init d t) = Some s.

(** *** Well-formed graphs *)

Definition b2n (b : bool) : nat := if b then 1%nat else 0%nat.

(** Occurrences of [c] in a list of indices. *)
Fixpoint occ (c : nat) (l : list nat) : nat :=
  match l with
  | [] => 0%nat
  | x :: rest => (b2n (x =? c)%nat + occ c rest)%nat
  end.

(** Edges into [c], strong and weak, with multiplicity. *)
Definition edges_into (c : nat) (m : nodeMetadata) : nat :=
  (occ c (children m) + occ c (weakChildren m))%nat.

Definition indeg (ms : list nodeMetadata) (c : nat) : nat :=
  sum_list_with (edges_into c) ms.

(** What [build] establishes, [wf_bound] being the range of [int32] and
    [wf_attempts] the range of [uint]: adjacency entries are indices of
    the table, [depCnt] counts the edges into a node, and the roots are
    nodes without dependencies. *)
Record wf_dag (d : DAG) : Prop := mkWf {
  wf_children : ∀ k m c, dag_metaNodes d !! k = Some m →
                 c ∈ children m ++ weakChildren m →
                 (c < length (dag_metaNodes d))%nat;
  wf_count : ∀ k m, dag_metaNodes d !! k = Some m →
              depCnt m = Z.of_nat (indeg (dag_metaNodes d) k);
  wf_bound : ∀ k, (k < length (dag_metaNodes d))%nat →
              Z.of_nat (indeg (dag_metaNodes d) k) < 2^31;
  wf_roots : ∀ r, r ∈ rootNodes d →
              ∃ m, dag_metaNodes d !! r = Some m ∧ depCnt m = 0;
  wf_attempts : ∀ k m, dag_metaNodes d !! k = Some m →
                 0 ≤ maxAttempts m < 2^64
}.

(** *** Invariants of the runs *)

(** The order of the status values along which a node moves. *)
Definition st_le (a b : Z) : Prop :=
  a = b ∨ a = Waiting ∨ (a = Running ∧ (b = Succeeded ∨ b = Failed)).

(** A node nothing has happened to. *)
Definition pristine (nd : runtimeNode) (hs : history) : Prop :=
  attempts nd = 0 ∧ err nd = None ∧ done nd = false ∧ begin nd = 0 ∧ cost nd = 0
  ∧ invoked hs = 0%nat ∧ strongSent hs = 0%nat ∧ weakSent hs = 0%nat
  ∧ timedOut hs = false.

(** [onDepDone] calls received by [c], as the histories record them. *)
Definition sent_to (c : nat) (m : nodeMetadata) (hs : history) : nat :=
  (occ c (take (strongSent hs) (children m))
   + occ c (take (weakSent hs) (weakChildren m)))%nat.

Definition delivered (ms : list nodeMetadata) (hss : list history) (c : nat) : nat :=
  sum_list (zip_with (sent_to c) ms hss).

(** The strong children were all notified, or none was. *)
Definition sdone (m : nodeMetadata) (nd : runtimeNode) (hs : history) : Prop :=
  strongSent hs = 0%nat
  ∨ (status nd = Succeeded ∧ strongSent hs = length (children m)).

Definition sent0 (hs : history) : Prop :=
  strongSent hs = 0%nat ∧ weakSent hs = 0%nat.

Definition is_root (d : DAG) (c : nat) : Prop :=
  ∃ m, dag_metaNodes d !! c = Some m ∧ depCnt m = 0.

(** The last dependency of [c] has arrived. *)
Definition cas_ok (d : DAG) (s : state) (c : nat) : Prop :=
  ∃ mc ndc, dag_metaNodes d !! c = Some mc ∧ nodes s !! c = Some ndc
            ∧ doneDepCnt ndc = depCnt mc.

(** A collected result is a past state of its node. *)
Definition res_le (r : NodeResult) (nd : runtimeNode) : Prop :=
  st_le (Status r) (status nd) ∧ 0 ≤ Attempts r ≤ attempts nd.

Definition results_inv (s : state) (results : list NodeResult) : Prop :=
  ∀ i r, results !! i = Some r → ∃ nd, nodes s !! i = Some nd ∧ res_le r nd.

(** Between [attempts++] and the call of the processor. *)
Definition win (p : pc) : nat :=
  match p with
  | AttemptRUnlock _ _ true | Process _ => 1%nat
  | _ => 0%nat
  end.

(** The two loops of [run]. *)
Definition loop_inv (m : nodeMetadata) (nd : runtimeNode) (hs : history)
    (p : pc) : Prop :=
  match p with
  | Strong rest =>
      status nd = Succeeded ∧ rest = drop (strongSent hs) (children m)
      ∧ (strongSent hs ≤ length (children m))%nat ∧ weakSent hs = 0%nat
  | Weak rest =>
      rest = drop (weakSent hs) (weakChildren m)
      ∧ (weakSent hs ≤ length (weakChildren m))%nat ∧ sdone m nd hs
  | _ => False
  end.

(** The program points of [processWithRetry], executed by [w]. *)
Definition retry_inv (w : who) (m : nodeMetadata) (nd : runtimeNode) (p : pc) : Prop :=
  match p with
  | LoopHead w' _ | AttemptRUnlock w' _ _ | Process w' | InProcessor w'
  | StoreCost w' _ | CloseDone w' _ | Finish w' _ => w' = w
  | AttemptRLock w' _ | AttemptCheck w' _ =>
      w' = w ∧ attempts nd < maxUint 1 (maxAttempts m)
  | _ => False
  end.

(** The goroutine that executes [run], with the goroutines [inn] that
    [processWithTimeout] started. *)
Definition run_inv (d : DAG) (s : state) (m : nodeMetadata) (nd : runtimeNode)
    (hs : history) (inn : list pc) (p : pc) : Prop :=
  match p with
  | Run => status nd = Running ∧ pristine nd hs ∧ inn = []
  | WaitStarted | Select | TimeoutLock | TimeoutFail | TimeoutUnlock | Notify =>
      sent0 hs
  | FailErr _ k => status nd = Failed ∧ sent0 hs ∧ (k = Notify ∨ k = TimeoutUnlock)
  | Strong _ | Weak _ => loop_inv m nd hs p
  | StartCas c k => loop_inv m nd hs k ∧ cas_ok d s c
  | WgDone | RunReturned =>
      weakSent hs = length (weakChildren m) ∧ sdone m nd hs
  | _ => retry_inv Driver m nd p ∧ sent0 hs ∧ inn = []
  end.

(** The goroutine that [processWithTimeout] started. *)
Definition inner_inv (m : nodeMetadata) (nd : runtimeNode) (p : pc) : Prop :=
  match p with
  | InnerBegin | InnerReturned => True
  | FailErr _ k => status nd = Failed ∧ k = InnerReturned
  | _ => retry_inv Inner m nd p
  end.

(** The goroutine in [RunWithPool]. *)
Definition main_inv (d : DAG) (s : state) (p : pc) : Prop :=
  match p with
  | MRoots rest => Forall (is_root d) rest
  | StartCas c (MRoots rest) => is_root d c ∧ Forall (is_root d) rest
  | MWait => True
  | MCollect i results => length results = i ∧ results_inv s results
  | MDone results => length results = length (nodes s) ∧ results_inv s results
  | _ => False
  end.

(** A goroutine of user code is inside a [DoIfRunning] call. *)
Definition user_inv (p : pc) : Prop :=
  match p with
  | UserRLock | UserCheck | UserFn | UserRUnlock _ | UserReturned _ => True
  | _ => False
  end.

Definition stat_inv (nd : runtimeNode) (hs : history) : Prop :=
  (status nd = Waiting ∨ status nd = Running
   ∨ status nd = Succeeded ∨ status nd = Failed)
  ∧ (err nd ≠ None → status nd = Failed)
  ∧ (timedOut hs = true → status nd = Failed)
  ∧ ((0 < strongSent hs)%nat → status nd = Succeeded).

(** [start] dispatched [run] at most once, and not while the node
    waits. *)
Definition runs_inv (d : DAG) (s : state) (m : nodeMetadata) (nd : runtimeNode)
    (hs : history) (rs inn : list pc) : Prop :=
  match rs with
  | [] => status nd = Waiting ∧ pristine nd hs ∧ inn = []
  | [p] => status nd ≠ Waiting ∧ run_inv d s m nd hs inn p
  | _ => False
  end.

(** [processWithTimeout] is executed at most once. *)
Definition inners_inv (m : nodeMetadata) (nd : runtimeNode) (inn : list pc) : Prop :=
  match inn with
  | [] => True
  | [q] => inner_inv m nd q
  | _ => False
  end.

(** A node with its goroutines. *)
Definition node_inv (d : DAG) (s : state) (k : nat) (m : nodeMetadata)
    (nd : runtimeNode) (hs : history) (g : goroutines) : Prop :=
  runs_inv d s m nd hs (runs g) (inners g)
  ∧ inners_inv m nd (inners g)
  ∧ stat_inv nd hs
  ∧ 0 ≤ attempts nd ≤ maxUint 1 (maxAttempts m)
  ∧ attempts nd
    = Z.of_nat (invoked hs) + Z.of_nat (sum_list_with win (runs g ++ inners g))
  ∧ doneDepCnt nd = Z.of_nat (delivered (dag_metaNodes d) (hist s) k)
  ∧ (status nd ≠ Waiting → doneDepCnt nd = depCnt m)
  ∧ Forall user_inv (users g).

Record inv (d : DAG) (s : state) : Prop := mkInv {
  inv_nodes : length (nodes s) = length (dag_metaNodes d);
  inv_hist : length (hist s) = length (dag_metaNodes d);
  inv_gor : length (gor s) = length (dag_metaNodes d);
  inv_node : ∀ k m nd hs g,
    dag_metaNodes d !! k = Some m → nodes s !! k = Some nd →
    hist s !! k = Some hs → gor s !! k = Some g →
    node_inv d s k m nd hs g;
  inv_main : main_inv d s (main s)
}.

(** The lock [mu]: the program points at which a goroutine holds its
    read side, and those at which it holds its write side. *)
Definition rd (p : pc) : nat :=
  match p with
  | AttemptCheck _ _ | AttemptRUnlock _ _ _ | UserCheck | UserFn | UserRUnlock _ => 1%nat
  | _ => 0%nat
  end.

Definition wr (p : pc) : nat :=
  match p with
  | TimeoutFail | FailErr _ TimeoutUnlock | TimeoutUnlock => 1%nat
  | _ => 0%nat
  end.

Definition holders (f : pc → nat) (g : goroutines) : nat :=
  sum_list_with f (runs g ++ inners g ++ users g).

Definition lock_inv (nd : runtimeNode) (g : goroutines) : Prop :=
  readers nd = holders rd g
  ∧ holders wr g = b2n (writer nd)
  ∧ (writer nd = true → readers nd = 0%nat).


(** *** A decision procedure for well-formedness *)

Definition wf_nodeb (ms : list nodeMetadata) (k : nat) (m : nodeMetadata) : bool :=
  forallb (λ c, (c <? length ms)%nat) (children m ++ weakChildren m)
  && (depCnt m =? Z.of_nat (indeg ms k))
  && (Z.of_nat (indeg ms k) <? 2^31)
  && (0 <=? maxAttempts m) && (maxAttempts m <? 2^64).

Definition wf_rootb (ms : list nodeMetadata) (r : nat) : bool :=
  match ms !! r with
  | Some m => depCnt m =? 0
  | None => false
  end.

Definition wf_dagb (d : DAG) : bool :=
  forallb (λ km, wf_nodeb (dag_metaNodes d) km.1 km.2)
          (imap pair (dag_metaNodes d))
  && forallb (wf_rootb (dag_metaNodes d)) (rootNodes d).

(** *** What a step of another node leaves alone *)

(** All the fields but the two that other nodes write: the counter of
    done dependencies and the status. *)
Definition same_core (nd nd' : runtimeNode) : Prop :=
  done nd' = done nd ∧ started nd' = started nd ∧ err nd' = err nd
  ∧ readers nd' = readers nd ∧ writer nd' = writer nd ∧ begin nd' = begin nd
  ∧ ddl nd' = ddl nd ∧ cost nd' = cost nd ∧ attempts nd' = attempts nd.

(** The goroutine a label schedules. *)
Definition label_gid (l : label) : option gid :=
  match l with
  | Step g | Ends g _ | Fires g => Some g
  | _ => None
  end.

(** *** A node whose total timeout had expired when [run] began *)

Definition expired_pc (p : pc) : bool :=
  match p with
  | Notify | Weak _ | StartCas _ (Weak _) | WgDone | RunReturned => true
  | _ => false
  end.

Definition expired (nd : runtimeNode) (hs : history) (g : goroutines) : Prop :=
  status nd = Failed ∧ attempts nd = 0 ∧ invoked hs = 0%nat ∧ strongSent hs = 0%nat
  ∧ inners g = [] ∧ done nd = false ∧ begin nd = 0
  ∧ ∃ p, runs g = [p]
         ∧ (p = FailErr TimeoutErr Notify
            ∨ (err nd = Some TimeoutErr ∧ expired_pc p = true)).

Definition expired_at (s : state) (k : nat) : Prop :=
  ∃ nd hs g, nodes s !! k = Some nd ∧ hist s !! k = Some hs ∧ gor s !! k = Some g
             ∧ expired nd hs g.

(** *** The lock and the bodies of [DoIfRunning] *)

(** The lock of a node is consistent with its goroutines, and once the
    deadline branch has made the node fail, no body [fn] of a
    [DoIfRunning] call of the user is executing. *)
Definition guard_inv (nd : runtimeNode) (hs : history) (g : goroutines) : Prop :=
  lock_inv nd g ∧ (timedOut hs = true → UserFn ∉ users g).

Definition guards_ok (s : state) : Prop :=
  ∀ k nd hs g, nodes s !! k = Some nd → hist s !! k = Some hs → gor s !! k = Some g →
               guard_inv nd hs g.

(** *** The transitions of the status *)

(** The three compare-and-swap operations on the status: the one of
    [start], and those of [success] and [fail]. *)
Definition st_next (a b : Z) : Prop :=
  (a = Waiting ∧ b = Running)
  ∨ (a = Running ∧ (b = Succeeded ∨ b = Failed)).

(** Any number of such transitions. *)
Definition st_reach (a b : Z) : Prop :=
  a = b ∨ st_next a b ∨ (a = Waiting ∧ (b = Succeeded ∨ b = Failed)).


(** *** The wait group and the nodes without timeouts *)

(** A dispatched [run] that has not returned. *)
Definition act (p : pc) : nat :=
  match p with RunReturned => 0%nat | _ => 1%nat end.

(** The deferred [wg.Done()]. *)
Definition wgd (p : pc) : Z :=
  match p with WgDone => 1 | _ => 0 end.

Definition running_runs (g : goroutines) : nat := sum_list_with act (runs g).

(** The dispatched [run]s of the graph that have not returned. *)
Definition active_runs (gs : list goroutines) : nat :=
  sum_list_with running_runs gs.

(** [RunWithPool] is past [wg.Wait()]. *)
Definition collecting (p : pc) : bool :=
  match p with MCollect _ _ | MDone _ => true | _ => false end.

(** The counter of the wait group is the number of dispatched [run]s that
    have not returned, and it is zero once [RunWithPool] reads the
    results. *)
Definition wg_ok (s : state) : Prop :=
  wg s = Z.of_nat (active_runs (gor s))
  ∧ (collecting (main s) = true → wg s = 0).

(** Neither a local nor a total timeout: [run] calls
    [processWithoutTimeout]. *)
Definition notimeout (m : nodeMetadata) : Prop :=
  localTimeout m ≤ 0 ∧ totalTimeout m ≤ 0.

(** [success] or [fail] has completed. *)
Definition settled_st (nd : runtimeNode) : Prop :=
  status nd = Succeeded ∨ (status nd = Failed ∧ err nd ≠ None).

(** The status of a node without timeouts at the program points of its
    [run]: Running up to the compare-and-swap of [success] or [fail],
    settled from the notification of the children on; when the loop over
    the strong children is over and the node succeeded, all of them were
    notified. *)
Definition plain_pc (m : nodeMetadata) (nd : runtimeNode) (hs : history)
    (p : pc) : Prop :=
  match p with
  | Run | LoopHead Driver _ | AttemptRLock Driver _ | AttemptCheck Driver _
  | AttemptRUnlock Driver _ _ | Process Driver | InProcessor Driver
  | StoreCost Driver _ | CloseDone Driver _ | Finish Driver _ =>
      status nd = Running
  | FailErr _ Notify => status nd = Failed
  | Notify | Strong _ | StartCas _ (Strong _) => settled_st nd
  | Weak _ | StartCas _ (Weak _) | WgDone | RunReturned =>
      settled_st nd
      ∧ (status nd = Succeeded → strongSent hs = length (children m))
  | _ => False
  end.

(** A node without timeouts has no goroutine of [processWithTimeout]. *)
Definition plain_ok (d : DAG) (s : state) : Prop :=
  ∀ k m nd hs g,
    dag_metaNodes d !! k = Some m → nodes s !! k = Some nd →
    hist s !! k = Some hs → gor s !! k = Some g →
    notimeout m →
    inners g = [] ∧ ∀ p, runs g = [p] → plain_pc m nd hs p.

(** A result that [RunWithPool] has read of a node without timeouts is
    the state of the node from then on. *)
Definition final_ok (d : DAG) (s : state) : Prop :=
  ∀ results, (∃ i, main s = MCollect i results) ∨ main s = MDone results →
    ∀ k r m nd, results !! k = Some r → dag_metaNodes d !! k = Some m →
      nodes s !! k = Some nd → notimeout m →
      Status r = status nd ∧ Err r = err nd ∧ Attempts r = attempts nd.


(** *** The deadline *)

(** [GetDDL]: the deadline, and whether the node has one. *)
Definition GetDDL (m : nodeMetadata) (nd : runtimeNode) : Go.Time * bool :=
  if (localTimeout m <=? 0) && (totalTimeout m <=? 0) then (0, false)
  else (ddl nd, true).

(** At the [select] the closure has closed [started]; in the deadline
    branch the timer has fired, so the deadline has passed. *)
Definition ddl_pc (s : state) (nd : runtimeNode) (p : pc) : Prop :=
  match p with
  | Select => started nd = true
  | TimeoutLock | TimeoutFail => started nd = true ∧ ddl nd ≤ now s
  | _ => True
  end.

(** The deadline of a node: [started] is closed by the closure of
    [processWithTimeout] only, after it has stored the deadline; the
    deadline branch is taken when the deadline has passed, and only for
    a node with a timeout. *)
Definition ddl_inv (s : state) (m : nodeMetadata) (nd : runtimeNode)
    (hs : history) (g : goroutines) : Prop :=
  (runs g = [] ∨ runs g = [Run] → started nd = false)
  ∧ (inners g = [InnerBegin] → started nd = false)
  ∧ (started nd = true →
     ddl nd = Go.Add (begin nd) (effective_timeout m (t0 s) (begin nd)))
  ∧ (∀ p, runs g = [p] → ddl_pc s nd p)
  ∧ (timedOut hs = true → started nd = true ∧ ddl nd ≤ now s)
  ∧ (timedOut hs = true → ¬ notimeout m).

Definition ddl_ok (d : DAG) (s : state) : Prop :=
  ∀ k m nd hs g,
    dag_metaNodes d !! k = Some m → nodes s !! k = Some nd →
    hist s !! k = Some hs → gor s !! k = Some g → ddl_inv s m nd hs g.


End Runtime.

(** ** Scenarios *)

Module Scenarios.
Import Runtime.

Definition dag_of (h : heap) (leaves : list (option ptr)) : DAG :=
  match build h leaves with
  | Some (Some d, _) => d
  | _ => mkDAG [] []
  end.

Definition run_of (d : DAG) (t : Go.Time) (tr : list label) : state :=
  match run_trace d tr (init d t) with
  | Some s => s
  | None => init d t
  end.

(** Schedules are written with one letter per step. *)
Definition M : label := Step GMain.
Definition R (k : nat) : label := Step (GRun k 0).
Definition I (k : nat) : label := Step (GInner k 0).
Definition U (k : nat) : label := Step (GUser k 0).

(** [n2] strongly and [n3] weakly depend on [n1], whose processor
    fails. *)
Definition fan_heap : heap :=
  [ mkNode "n1" true 0 0 [] [] 0 None false false;
    mkNode "n2" true 0 0 [Some 0%nat] [] 0 None false false;
    mkNode "n3" true 0 0 [] [Some 0%nat] 0 None false false ].

Definition fan_dag : DAG := dag_of fan_heap [Some 1%nat; Some 2%nat].

Definition fan_trace : list label :=
  [M; M] ++ replicate 6 (R 1) ++ [Ends (GRun 1 0) (Return (Some "boom"))]
  ++ replicate 10 (R 1).

Definition fan_state : state := run_of fan_dag Go.unixEpoch fan_trace.

(** One node with a local timeout of 1ms. *)
Definition single_heap : heap :=
  [ mkNode "n" true 1000000 0 [] [] 0 None false false ].

Definition single_dag : DAG := dag_of single_heap [Some 0%nat].

(** The processor succeeds; the goroutine of [processWithTimeout] has
    closed [done] and is about to call [success] when the results are
    collected. *)
Definition early_collect_trace : list label :=
  [M; M; M; R 0] ++ replicate 6 (I 0) ++ [Ends (GInner 0 0) (Return None)]
  ++ replicate 2 (I 0) ++ replicate 5 (R 0) ++ [M; M; M].

(** The processor fails; the goroutine of [processWithTimeout] has won
    the compare-and-swap of [fail] and is about to store the error when
    the results are collected. *)
Definition early_collect_failed_trace : list label :=
  [M; M; M; R 0] ++ replicate 6 (I 0) ++ [Ends (GInner 0 0) (Return (Some "boom"))]
  ++ replicate 4 (I 0) ++ replicate 5 (R 0) ++ [M; M; M].

(** [n2] depends on [n1] and has a total timeout of 5ms; the processor
    of [n1] takes 10ms. *)
Definition chain_heap : heap :=
  [ mkNode "n1" true 0 0 [] [] 0 None false false;
    mkNode "n2" true 0 5000000 [Some 0%nat] [] 0 None false false ].

Definition chain_dag : DAG := dag_of chain_heap [Some 1%nat].

(** Up to the moment the worker of [n2] is about to begin. *)
Definition chain_trace_start : list label :=
  [M; M; M] ++ replicate 6 (R 1) ++ [Tick 10000000; Ends (GRun 1 0) (Return None)]
  ++ replicate 9 (R 1).

Definition chain_trace : list label :=
  chain_trace_start ++ replicate 5 (R 0) ++ [M; M; M; M].

(** On the graph of one node with a local timeout of 1ms: user code
    calls [DoIfRunning] while the node runs, then the timer of the
    [select] fires and the deadline branch makes the node fail. *)
Definition timeout_trace : list label :=
  [M; M; M; R 0; I 0; R 0; UserCall 0] ++ replicate 4 (U 0)
  ++ [Tick 2000000; Fires (GRun 0 0); R 0; R 0].

Definition timeout_state : state := run_of single_dag Go.unixEpoch timeout_trace.

(** On the graph of one node with a local timeout of 1ms: the goroutine
    of [processWithTimeout] has incremented [attempts] and is about to
    call the processor when the timer fires; the deadline branch makes
    the node fail, [run] returns and the results are collected. *)
Definition attempt_race_trace : list label :=
  [M; M; M; R 0] ++ replicate 5 (I 0) ++ [R 0; Tick 2000000; Fires (GRun 0 0)]
  ++ replicate 7 (R 0) ++ [M; M; M].

Definition attempt_race_state : state :=
  run_of single_dag Go.unixEpoch attempt_race_trace.

(** The run of [chain_trace], and the results it returns. *)
Definition chain_state : state := run_of chain_dag Go.unixEpoch chain_trace.

Definition chain_results : list NodeResult :=
  match main chain_state with
  | MDone results => results
  | _ => []
  end.

End Scenarios.

(** ** Invariant of the pool *)

Module PoolSpec.
Import Pool.

(** What holds of the pool as long as no goroutine has panicked: the
    worker count is the number of live workers and is within the bound,
    the head is still the task that [NewPool] allocated, whose function
    is nil, and [len] counts the tasks appended behind it. *)
Definition pool_inv (m : Z) (s : system) : Prop :=
  maxWorkers (pool s) = m
  ∧ Z.of_nat (length (running s)) ≤ workers (pool s) ≤ Z.max 0 m
  ∧ (panicked s = false →
     workers (pool s) = Z.of_nat (length (running s))
     ∧ head (pool s) = Some 0%nat
     ∧ (∃ nx, store (pool s) !! 0%nat = Some (mkTask None nx))
     ∧ is_Some (tail (pool s))
     ∧ Z.of_nat (length (store (pool s))) = len (pool s) + 1).

End PoolSpec.

(** ** The writes of the Mermaid output *)

Module MermaidSpec.

(** The strings [WriteAsMermaid] passes to the writer when no write
    fails: the header, a line per node, then for every node its strong
    and its weak edges. *)
Definition mermaid_lines (dag : DAG) : list string :=
  ("graph TB" +:+ Go.nl)
  :: imap node_line (dag_metaNodes dag)
  ++ concat (imap edge_lines (dag_metaNodes dag)).

(** A writer that accepts [n] more writes and then fails. *)
Definition limited : StringWriter (nat * string) :=
  mkWriter (nat * string)
    (λ w s, match w.1 with
            | O => (w, Some "short write")
            | S n => ((n, w.2 +:+ s), None)
            end).

End MermaidSpec.

(** ** Invariants of the builder *)

Module BuilderSpec.
Import Runtime.

(** A pointer of the caller refers to an allocated definition. *)
Definition ptr_ok (h : heap) (o : option ptr) : Prop :=
  match o with
  | Some p => (p < length h)%nat
  | None => True
  end.

Definition heap_ok (h : heap) : Prop :=
  ∀ p nd, h !! p = Some nd →
          Forall (ptr_ok h) (Dependencies nd ++ WeakDependencies nd).

Definition ptr_okb (h : heap) (o : option ptr) : bool :=
  match o with
  | Some p => (p <? length h)%nat
  | None => true
  end.

Definition heap_okb (h : heap) : bool :=
  forallb (λ nd, forallb (ptr_okb h) (Dependencies nd ++ WeakDependencies nd)) h.

(** The metadata under construction: adjacency entries are indices of
    the table, the dependency count of a node is the number of entries
    that name it (as long as that number fits an [int32]), and no name is
    empty. *)
Definition meta_ok (ms : list nodeMetadata) : Prop :=
  ∀ k m, ms !! k = Some m →
         Forall (λ c, (c < length ms)%nat) (children m ++ weakChildren m)
         ∧ (Z.of_nat (indeg ms k) < 2^31 → depCnt m = Z.of_nat (indeg ms k))
         ∧ name m ≠ "".

(** [m] has the fields that [newNodeMetadata] copied into [m'], whatever
    edges and dependency count were added since. *)
Definition same_fields (m m' : nodeMetadata) : Prop :=
  name m = name m' ∧ processor m = processor m'
  ∧ localTimeout m = localTimeout m' ∧ totalTimeout m = totalTimeout m'
  ∧ maxAttempts m = maxAttempts m' ∧ backoffFunc m = backoffFunc m'
  ∧ onSuccess m = onSuccess m' ∧ onFailure m = onFailure m'.

(** Every edge of the metadata was asked for: a child of node [i] is the
    index of a definition that lists the definition of [i] among its
    [Dependencies], a weak child among its [WeakDependencies]. *)
Definition edges_sound (h : heap) (b : dagBuilder) : Prop :=
  ∀ i m c, metaNodes b !! i = Some m →
    (c ∈ children m →
       ∃ p q, index b !! q = Some i ∧ index b !! p = Some c
              ∧ Some q ∈ Dependencies (h !!! p))
    ∧ (c ∈ weakChildren m →
       ∃ p q, index b !! q = Some i ∧ index b !! p = Some c
              ∧ Some q ∈ WeakDependencies (h !!! p)).

(** The map [index]: the metadata at the index of a definition is a copy
    of the definition, two definitions have different indices, and every
    metadata node is the copy of an indexed definition. *)
Definition interned (h : heap) (b : dagBuilder) : Prop :=
  (∀ p i, index b !! p = Some i →
          ∃ m, metaNodes b !! i = Some m
               ∧ same_fields m (newNodeMetadata (h !!! p)))
  ∧ (∀ p q i, index b !! p = Some i → index b !! q = Some i → p = q)
  ∧ size (index b) = length (metaNodes b)
  ∧ edges_sound h b
  ∧ (∀ i, (i < length (metaNodes b))%nat → ∃ p, index b !! p = Some i).

Definition builder_ok (h : heap) (b : dagBuilder) : Prop :=
  meta_ok (metaNodes b)
  ∧ (∀ p i, index b !! p = Some i →
            (i < length (metaNodes b))%nat ∧ (p < length h)%nat)
  ∧ interned h b.

(** The builder [b'] extends [b]. *)
Definition extends (b b' : dagBuilder) : Prop :=
  (length (metaNodes b) ≤ length (metaNodes b'))%nat
  ∧ index b ⊆ index b'
  ∧ visited b' = visited b ∧ next b' = next b
  ∧ (∀ j c, c ∈ children (metaNodes b !!! j) →
            c ∈ children (metaNodes b' !!! j))
  ∧ (∀ j c, c ∈ weakChildren (metaNodes b !!! j) →
            c ∈ weakChildren (metaNodes b' !!! j)).

(** Every edge asked for by an indexed definition outside [O] is there:
    its dependencies are indexed and list it as a child, its weak
    dependencies as a weak child. [O] holds the definitions whose [add]
    has not returned yet. *)
Definition complete (h : heap) (b : dagBuilder) (O : ptr → Prop) : Prop :=
  ∀ p i q, index b !! p = Some i → ¬ O p →
    (Some q ∈ Dependencies (h !!! p) →
       ∃ j, index b !! q = Some j ∧ i ∈ children (metaNodes b !!! j))
    ∧ (Some q ∈ WeakDependencies (h !!! p) →
       ∃ j, index b !! q = Some j ∧ i ∈ weakChildren (metaNodes b !!! j)).

(** What a recursive call of [add] does, when the index holds at least
    [n] definitions: it returns, keeps the invariant, extends the builder,
    has interned its argument and has added the edges of every definition
    it interned. *)
Definition interns (h : heap) (rec : ptr → dagBuilder → option (dagBuilder * nat))
    (n : nat) : Prop :=
  ∀ dep b O, (dep < length h)%nat → builder_ok h b → complete h b O →
             (n ≤ size (index b))%nat →
             ∃ r, rec dep b = Some r ∧ builder_ok h r.1 ∧ extends b r.1
                  ∧ index r.1 !! dep = Some r.2 ∧ complete h r.1 O.

(** *** The search of [detectCycle] *)

(** The nodes [detectCycle] visits from node [i]. *)
Definition succs (ms : list nodeMetadata) (i : nat) : list nat :=
  children (ms !!! i) ++ weakChildren (ms !!! i).

(** [path] follows edges of the graph. *)
Definition is_walk (ms : list nodeMetadata) (path : list nat) : Prop :=
  ∀ j a c, path !! j = Some a → path !! S j = Some c → c ∈ succs ms a.

(** The array [next] in a call of [detectCycle]: the nodes whose entry is
    not -1 are those of the search path [stk], in order; the entry of each
    is its successor on the path, and is one of its children. *)
Definition stack_ok (ms : list nodeMetadata) (nx : list Z) (stk : list nat) : Prop :=
  NoDup stk
  ∧ length nx = length ms
  ∧ (∀ i, (i < length ms)%nat → (nx !!! i ≠ -1 ↔ i ∈ stk))
  ∧ (∀ j g g', stk !! j = Some g → stk !! S j = Some g' → nx !!! g = Z.of_nat g')
  ∧ (∀ g, g ∈ stk → (g < length ms)%nat
                     ∧ ∃ c, nx !!! g = Z.of_nat c ∧ c ∈ succs ms g).

(** The nodes [detectCycle] has left, in the order it left them: each is
    marked visited, its entry of [next] is -1 again, and all its children
    were left before it. *)
Definition finished_ok (ms : list nodeMetadata) (b : dagBuilder) (fin : list nat) : Prop :=
  NoDup fin
  ∧ length (visited b) = length ms
  ∧ (∀ i, i ∈ fin → (i < length ms)%nat ∧ visited b !!! i = true ∧ next b !!! i = -1)
  ∧ (∀ j i c, fin !! j = Some i → c ∈ succs ms i →
              ∃ j', (j' < j)%nat ∧ fin !! j' = Some c).

(** Every visited node off the search path was left, except [skip]. *)
Definition settled (ms : list nodeMetadata) (b : dagBuilder) (fin : list nat)
    (skip : option nat) : Prop :=
  ∀ i, (i < length ms)%nat → skip ≠ Some i →
       visited b !!! i = true → next b !!! i = -1 → i ∈ fin.

(** The text of the error for the closed walk [path]. *)
Definition cycle_text (ms : list nodeMetadata) (path : list nat) : string :=
  cycle_error (reverse (map (λ i, name (ms !!! i)) path)).

(** What a recursive call of [detectCycle] on [idx] does, on a search
    path of at least [k] nodes: it returns; without an error it restores
    [next], leaves [idx] and the nodes it met; with an error, the text
    names a closed walk. *)
Definition searches (ms : list nodeMetadata)
    (rec : nat → dagBuilder → option (dagBuilder * Go.error)) (k : nat) : Prop :=
  ∀ idx b stk fin,
    metaNodes b = ms → (idx < length ms)%nat → (k ≤ length stk)%nat →
    stack_ok ms (next b) stk →
    (∀ g, last stk = Some g → next b !!! g = Z.of_nat idx) →
    finished_ok ms b fin → settled ms b fin None →
    ∃ b' r, rec idx b = Some (b', r) ∧ metaNodes b' = ms
      ∧ match r with
        | None =>
            next b' = next b
            ∧ ∃ fin', finished_ok ms b' (fin ++ fin')
                      ∧ settled ms b' (fin ++ fin') None
                      ∧ idx ∈ fin ++ fin'
                      ∧ (∀ i, visited b !!! i = true → visited b' !!! i = true)
        | Some e =>
            ∃ path, e = cycle_text ms path ∧ is_walk ms path
                    ∧ (2 ≤ length path)%nat ∧ head path = last path
                    ∧ Forall (λ i, (i < length ms)%nat) path
        end.

(** *** What [build] establishes *)

(** A walk of at least one step that ends where it started. *)
Definition closed {A} (l : list A) : Prop :=
  (2 ≤ length l)%nat ∧ head l = last l.

(** [fin] lists every node after all of its children. *)
Definition topological (ms : list nodeMetadata) (fin : list nat) : Prop :=
  NoDup fin
  ∧ (∀ i, (i < length ms)%nat → i ∈ fin)
  ∧ (∀ j i c, fin !! j = Some i → c ∈ succs ms i →
              ∃ j', (j' < j)%nat ∧ fin !! j' = Some c).

(** The definition [q] lists [p] as a dependency, strong or weak. *)
Definition depends_on (h : heap) (q p : ptr) : Prop :=
  Some p ∈ Dependencies (h !!! q) ++ WeakDependencies (h !!! q).

(** Each definition of [ps] depends on the next one. *)
Definition deps_chain (h : heap) (ps : list ptr) : Prop :=
  ∀ j q p, ps !! j = Some q → ps !! S j = Some p → depends_on h q p.

(** The name a definition gets in the graph. *)
Definition def_name (h : heap) (p : ptr) : string :=
  name (newNodeMetadata (h !!! p)).

(** The builder when the second loop of [build] starts. *)
Definition reset_search (b : dagBuilder) : dagBuilder :=
  mkBuilder (metaNodes b) (index b)
            (replicate (length (metaNodes b)) false)
            (replicate (length (metaNodes b)) (-1)).

(** The number of edges into a node fits [depCnt], an [int32]. *)
Definition counts_fit (ms : list nodeMetadata) : Prop :=
  ∀ k, (k < length ms)%nat → Z.of_nat (indeg ms k) < 2^31.


End BuilderSpec.

(** * Facts about the runs *)

Module RuntimeFacts.
Import Runtime.

Ltac bool2prop :=
  repeat match goal with
  | H : (_ =? _) = true |- _ => apply Z.eqb_eq in H
  | H : (_ =? _) = false |- _ => apply Z.eqb_neq in H
  | H : (_ <? _) = true |- _ => apply Z.ltb_lt in H
  | H : (_ <? _) = false |- _ => apply Z.ltb_ge in H
  | H : (_ <=? _) = true |- _ => apply Z.leb_le in H
  | H : (_ <=? _) = false |- _ => apply Z.leb_gt in H
  | H : (_ =? _)%nat = true |- _ => apply Nat.eqb_eq in H
  | H : (_ =? _)%nat = false |- _ => apply Nat.eqb_neq in H
  | H : negb _ = true |- _ => apply negb_true_iff in H
  | H : negb _ = false |- _ => apply negb_false_iff in H
  | H : _ && _ = true |- _ => apply andb_true_iff in H; destruct H
  | H : _ && _ = false |- _ => apply andb_false_iff in H
  end.

Ltac unfold_status := unfold Waiting, Running, Succeeded, Failed in *.

(** ** Arithmetic of the machine integers *)

Lemma wrap32_small x : - 2^31 ≤ x < 2^31 → Go.wrap32 x = x.
Proof. intros H. unfold Go.wrap32. rewrite Z.mod_small; lia. Qed.

Lemma wrapU64_small x : 0 ≤ x < 2^64 → Go.wrapU64 x = x.
Proof. intros H. unfold Go.wrapU64. rewrite Z.mod_small; lia. Qed.

Lemma maxUint_spec a b : maxUint a b = Z.max a b.
Proof. unfold maxUint. case_match; bool2prop; lia. Qed.

(** ** Counting the notifications *)

Lemma occ_app c l1 l2 : occ c (l1 ++ l2) = (occ c l1 + occ c l2)%nat.
Proof. induction l1 as [|x l1 IH]; simpl; [done|]. rewrite IH. lia. Qed.

Lemma occ_take_le c n l : (occ c (take n l) ≤ occ c l)%nat.
Proof.
  rewrite <- (take_drop n l) at 2. rewrite occ_app. lia.
Qed.

Lemma occ_take_S c n l x :
  l !! n = Some x → occ c (take (S n) l) = (occ c (take n l) + b2n (x =? c)%nat)%nat.
Proof.
  intros H. rewrite (take_S_r _ _ _ H), occ_app. simpl. lia.
Qed.

Lemma occ_pos c l : c ∈ l → (0 < occ c l)%nat.
Proof.
  induction 1 as [|x y l Hin IH]; simpl.
  - rewrite Nat.eqb_refl. simpl. lia.
  - lia.
Qed.

Lemma occ_take_full c n l :
  occ c (take n l) = occ c l → (0 < occ c l)%nat → (0 < n)%nat.
Proof. destruct n; simpl; lia. Qed.

Lemma drop_cons_lookup {A} (l : list A) n x rest :
  x :: rest = drop n l → l !! n = Some x ∧ rest = drop (S n) l ∧ (n < length l)%nat.
Proof.
  intros H.
  assert (Hl : l !! n = Some x).
  { pose proof (lookup_drop l n 0) as E. rewrite Nat.add_0_r in E.
    rewrite <- E, <- H. done. }
  split; [done|]. split.
  - pose proof (drop_drop l 1 n) as E. rewrite <- H in E. simpl in E.
    rewrite drop_0 in E. rewrite E. f_equal. lia.
  - by apply lookup_lt_Some in Hl.
Qed.

Lemma drop_nil_length {A} (l : list A) n : [] = drop n l → (length l ≤ n)%nat.
Proof.
  intros H. apply (f_equal length) in H. rewrite length_drop in H. simpl in H. lia.
Qed.

Lemma sent_to_le c m hs : (sent_to c m hs ≤ edges_into c m)%nat.
Proof.
  unfold sent_to, edges_into.
  pose proof (occ_take_le c (strongSent hs) (children m)).
  pose proof (occ_take_le c (weakSent hs) (weakChildren m)). lia.
Qed.

Lemma delivered_le_indeg ms hss c : (delivered ms hss c ≤ indeg ms c)%nat.
Proof.
  unfold delivered, indeg. revert hss.
  induction ms as [|m ms IH]; intros [|hs hss]; simpl; try lia.
  pose proof (sent_to_le c m hs). specialize (IH hss). lia.
Qed.

(** A change of the history of node [k] changes what [c] received by the
    difference at [k]. *)
Lemma delivered_alter ms hss c k f m hs :
  ms !! k = Some m → hss !! k = Some hs →
  (delivered ms (alter f k hss) c + sent_to c m hs
   = delivered ms hss c + sent_to c m (f hs))%nat.
Proof.
  unfold delivered. revert hss k.
  induction ms as [|m0 ms IH]; intros [|h0 hss] [|k] Hm Hh; simplify_eq/=; try lia.
  specialize (IH hss k Hm Hh). lia.
Qed.

Lemma delivered_alter_same ms hss c k f :
  (∀ h, strongSent (f h) = strongSent h ∧ weakSent (f h) = weakSent h) →
  delivered ms (alter f k hss) c = delivered ms hss c.
Proof.
  intros Hf. unfold delivered. revert hss k.
  induction ms as [|m0 ms IH]; intros [|h0 hss] [|k]; simpl; try done.
  - unfold sent_to. destruct (Hf h0) as [-> ->]. done.
  - f_equal. apply IH.
Qed.



(** ** Frames *)

Lemma delivered_ext ms hss hss' c :
  Forall2 (λ h h', strongSent h = strongSent h' ∧ weakSent h = weakSent h') hss hss' →
  delivered ms hss c = delivered ms hss' c.
Proof.
  intros H. unfold delivered. revert ms.
  induction H as [|h h' hss hss' [H1 H2] _ IH]; intros [|m ms]; simpl; try done.
  unfold sent_to at 1 3. rewrite H1, H2. f_equal. apply IH.
Qed.

Lemma st_le_refl a : st_le a a.
Proof. by left. Qed.

Lemma st_le_trans a b c : st_le a b → st_le b c → st_le a c.
Proof. unfold st_le. unfold_status. lia. Qed.

Lemma res_le_mono r nd nd' :
  res_le r nd → st_le (status nd) (status nd') → attempts nd ≤ attempts nd' →
  res_le r nd'.
Proof.
  intros [H1 H2] H3 H4. split; [by eapply st_le_trans|lia].
Qed.

(** The invariant of a node reads the state only through what the node
    received and through the counters of the children it is about to
    start. *)
Lemma node_inv_state d s s' k m nd hs g :
  delivered (dag_metaNodes d) (hist s') k = delivered (dag_metaNodes d) (hist s) k →
  (∀ c, cas_ok d s c → cas_ok d s' c) →
  node_inv d s k m nd hs g → node_inv d s' k m nd hs g.
Proof.
  intros Hd Hc. unfold node_inv. rewrite Hd.
  intros (H1 & H2).
  split; [|done]. unfold runs_inv in *.
  destruct (runs g) as [|p [|]]; try done.
  destruct H1 as [? H1]. split; [done|].
  destruct p; simpl in *; try done. destruct H1; split; auto.
Qed.

(** The invariant of a node reads the node through some fields only. *)
Lemma node_inv_ext d s k m nd hs g nd' hs' g' :
  node_inv d s k m nd hs g →
  status nd' = status nd → attempts nd' = attempts nd → err nd' = err nd →
  done nd' = done nd → begin nd' = begin nd → cost nd' = cost nd →
  doneDepCnt nd' = doneDepCnt nd →
  invoked hs' = invoked hs → strongSent hs' = strongSent hs →
  weakSent hs' = weakSent hs → timedOut hs' = timedOut hs →
  runs g' = runs g → inners g' = inners g → Forall user_inv (users g') →
  node_inv d s k m nd' hs' g'.
Proof.
  intros H E1 E2 E3 E4 E5 E6 E7 E8 E9 E10 E11 E12 E13 Hu.
  unfold node_inv in *. rewrite E12, E13.
  destruct nd, nd', hs, hs'; simpl in *; subst.
  destruct H as (H1 & H2 & H3 & H4 & H5 & H6 & H7 & _).
  exact (conj H1 (conj H2 (conj H3 (conj H4 (conj H5 (conj H6 (conj H7 Hu))))))).
Qed.

(** A step that changes one node only, leaves alone what it received and
    what it sent, and moves it forward. *)
Lemma inv_local d s s' k0 :
  inv d s →
  length (nodes s') = length (nodes s) →
  length (hist s') = length (hist s) →
  length (gor s') = length (gor s) →
  main s' = main s →
  (∀ k, k ≠ k0 → nodes s' !! k = nodes s !! k ∧ hist s' !! k = hist s !! k
                  ∧ gor s' !! k = gor s !! k) →
  (∀ m nd hs g,
     dag_metaNodes d !! k0 = Some m → nodes s !! k0 = Some nd →
     hist s !! k0 = Some hs → gor s !! k0 = Some g →
     node_inv d s k0 m nd hs g →
     ∃ nd' hs' g',
       nodes s' !! k0 = Some nd' ∧ hist s' !! k0 = Some hs' ∧ gor s' !! k0 = Some g'
       ∧ doneDepCnt nd' = doneDepCnt nd
       ∧ strongSent hs' = strongSent hs ∧ weakSent hs' = weakSent hs
       ∧ st_le (status nd) (status nd') ∧ attempts nd ≤ attempts nd'
       ∧ node_inv d s k0 m nd' hs' g') →
  inv d s'.
Proof.
  intros Hinv Hln Hlh Hlg Hmain Hfr Hloc.
  destruct Hinv as [In Ih Ig Inode Imain].
  (* every node of [s] has a counterpart in [s'] *)
  assert (Hall : ∀ k m nd hs g,
     dag_metaNodes d !! k = Some m → nodes s !! k = Some nd →
     hist s !! k = Some hs → gor s !! k = Some g →
     ∃ nd' hs' g',
       nodes s' !! k = Some nd' ∧ hist s' !! k = Some hs' ∧ gor s' !! k = Some g'
       ∧ doneDepCnt nd' = doneDepCnt nd
       ∧ strongSent hs' = strongSent hs ∧ weakSent hs' = weakSent hs
       ∧ st_le (status nd) (status nd') ∧ attempts nd ≤ attempts nd'
       ∧ node_inv d s k m nd' hs' g').
  { intros k m nd hs g Hm Hn Hh Hg.
    destruct (decide (k = k0)) as [->|Hne].
    - eapply Hloc; eauto.
    - destruct (Hfr k Hne) as (E1 & E2 & E3).
      exists nd, hs, g. rewrite E1, E2, E3.
      split_and!; try done; first [apply st_le_refl | lia | by apply Inode]. }
  assert (Hget : ∀ k, (k < length (dag_metaNodes d))%nat →
     ∃ m nd hs g, dag_metaNodes d !! k = Some m ∧ nodes s !! k = Some nd
                  ∧ hist s !! k = Some hs ∧ gor s !! k = Some g).
  { intros k Hk.
    destruct (lookup_lt_is_Some_2 (dag_metaNodes d) k) as [m Hm]; [done|].
    destruct (lookup_lt_is_Some_2 (nodes s) k) as [nd Hn]; [lia|].
    destruct (lookup_lt_is_Some_2 (hist s) k) as [hs Hh]; [lia|].
    destruct (lookup_lt_is_Some_2 (gor s) k) as [g Hg]; [lia|].
    eauto 10. }
  assert (Hdel : ∀ c, delivered (dag_metaNodes d) (hist s') c
                      = delivered (dag_metaNodes d) (hist s) c).
  { intros c. apply delivered_ext. apply Forall2_same_length_lookup.
    split; [done|]. intros k h' h Hh' Hh.
    assert (Hk : (k < length (dag_metaNodes d))%nat).
    { apply lookup_lt_Some in Hh. lia. }
    destruct (Hget k Hk) as (m & nd & hs & g & Hm & Hn & Hh2 & Hg).
    destruct (Hall k m nd hs g Hm Hn Hh2 Hg)
      as (nd' & hs' & g' & ? & ? & ? & ? & ? & ? & _).
    simplify_eq. done. }
  assert (Hcas : ∀ c, cas_ok d s c → cas_ok d s' c).
  { intros c (mc & ndc & Hm & Hn & Hc).
    assert (Hk : (c < length (dag_metaNodes d))%nat) by by apply lookup_lt_Some in Hm.
    destruct (Hget c Hk) as (m & nd & hs & g & Hm2 & Hn2 & Hh2 & Hg).
    destruct (Hall c m nd hs g Hm2 Hn2 Hh2 Hg)
      as (nd' & hs' & g' & ? & ? & ? & ? & _).
    simplify_eq. exists mc, nd'. repeat split; try done. congruence. }
  constructor; try congruence.
  - intros k m nd' hs' g' Hm Hn' Hh' Hg'.
    assert (Hk : (k < length (dag_metaNodes d))%nat) by by apply lookup_lt_Some in Hm.
    destruct (Hget k Hk) as (m2 & nd & hs & g & Hm2 & Hn & Hh & Hg).
    destruct (Hall k m2 nd hs g Hm2 Hn Hh Hg)
      as (nd2 & hs2 & g2 & ? & ? & ? & _ & _ & _ & _ & _ & Hni).
    simplify_eq. eapply node_inv_state; eauto.
  - rewrite Hmain. unfold main_inv in *.
    assert (Hres : ∀ acc, results_inv s acc → results_inv s' acc).
    { intros acc Hacc i r Hr. destruct (Hacc i r Hr) as (nd & Hn & Hle).
      assert (Hk : (i < length (dag_metaNodes d))%nat).
      { apply lookup_lt_Some in Hn. lia. }
      destruct (Hget i Hk) as (m & nd2 & hs & g & Hm & Hn2 & Hh & Hg).
      destruct (Hall i m nd2 hs g Hm Hn2 Hh Hg)
        as (nd' & hs' & g' & ? & ? & ? & ? & ? & ? & ? & ? & _).
      simplify_eq. exists nd'. split; [done|]. by eapply res_le_mono. }
    destruct (main s); try done.
    + destruct Imain. split; auto.
    + destruct Imain. split; [congruence|auto].
Qed.


(** ** The steps of the goroutines of a node *)

Lemma inv_lookups d s k :
  inv d s → (k < length (dag_metaNodes d))%nat →
  ∃ m nd hs g, dag_metaNodes d !! k = Some m ∧ nodes s !! k = Some nd
               ∧ hist s !! k = Some hs ∧ gor s !! k = Some g
               ∧ node_inv d s k m nd hs g.
Proof.
  intros [In Ih Ig Inode _] Hk.
  destruct (lookup_lt_is_Some_2 (dag_metaNodes d) k) as [m Hm]; [done|].
  destruct (lookup_lt_is_Some_2 (nodes s) k) as [nd Hn]; [lia|].
  destruct (lookup_lt_is_Some_2 (hist s) k) as [hs Hh]; [lia|].
  destruct (lookup_lt_is_Some_2 (gor s) k) as [g Hg]; [lia|].
  exists m, nd, hs, g. eauto 10.
Qed.

Lemma inv_lookups_gor d s k g :
  inv d s → gor s !! k = Some g →
  ∃ m nd hs, dag_metaNodes d !! k = Some m ∧ nodes s !! k = Some nd
             ∧ hist s !! k = Some hs ∧ node_inv d s k m nd hs g.
Proof.
  intros Hinv Hg.
  assert (Hk : (k < length (dag_metaNodes d))%nat).
  { apply lookup_lt_Some in Hg. rewrite <- (inv_gor _ _ Hinv). done. }
  destruct (inv_lookups d s k Hinv Hk) as (m & nd & hs & g' & ? & ? & ? & ? & ?).
  simplify_eq. eauto 10.
Qed.

(** Side conditions of [inv_local]. *)
Ltac local_side :=
  first
  [ progress (simpl; rewrite ?length_alter); done
  | done
  | (intros ? ?; simpl; rewrite ?list_lookup_alter_ne by done; done) ].

Ltac local_pre Hm Hn Hh Hg :=
  let m := fresh "m" in let nd := fresh "nd" in let hs := fresh "hs" in
  let g := fresh "g" in let Hni := fresh "Hni" in
  intros m nd hs g ? ? ? ? Hni; simplify_eq; clear Hni;
  eexists _, _, _; simpl; rewrite ?list_lookup_alter_eq, ?Hn, ?Hh, ?Hg; simpl;
  split_and!; try reflexivity; simpl.

Ltac exec_inv H :=
  unfold exec, onDepDone in H;
  repeat (first [ progress simplify_option_eq | case_match ]);
  bool2prop.

Lemma step_user d s l k0 i g p sp :
  inv d s → gor s !! k0 = Some g → users g !! i = Some p →
  exec d s k0 p l = Some sp → inv d (set_pc (GUser k0 i) sp.2 sp.1).
Proof.
  intros Hinv Hg Hp Hex.
  destruct (inv_lookups_gor d s k0 g Hinv Hg) as (m & nd & hs & Hm & Hn & Hh & Hni).
  destruct p; exec_inv Hex.
  all: simpl.
  all: try (destruct Hni as (_ & _ & _ & _ & _ & _ & _ & Hu);
            by apply (Forall_lookup_1 _ _ _ _ Hu) in Hp).
  all: apply (inv_local d s _ k0 Hinv); try local_side.
  all: local_pre Hm Hn Hh Hg; try apply st_le_refl.
  all: eapply node_inv_ext; [exact Hni|try done..]; simpl.
  all: destruct Hni as (_ & _ & _ & _ & _ & _ & _ & Hu).
  all: apply Forall_insert; done.
Qed.


Ltac leaf := first [ done | lia | congruence | tauto ].

(** The conjuncts of [node_inv], with the definitions unfolded. *)
Ltac unfold_inv :=
  unfold node_inv, runs_inv, inners_inv, stat_inv, run_inv, inner_inv in *;
  unfold retry_inv, loop_inv, after_retry in *;
  unfold pristine, sent0, sdone in *; simpl in *.

(** What [run] knows while the goroutine of [processWithTimeout] works
    holds whatever that goroutine does. *)
Lemma runs_inv_stable d s m nd hs rs q nd' hs' inn' :
  runs_inv d s m nd hs rs [q] →
  st_le (status nd) (status nd') →
  strongSent hs' = strongSent hs → weakSent hs' = weakSent hs →
  runs_inv d s m nd' hs' rs inn'.
Proof.
  intros H Hst E1 E2. unfold runs_inv in *.
  destruct rs as [|p [|]]; try done; [by destruct H as (_ & _ & ?)|].
  destruct H as [Hw H].
  assert (status nd' ≠ Waiting).
  { unfold st_le in Hst. unfold_status. lia. }
  split; [done|].
  unfold st_le in Hst.
  destruct p; unfold_inv; rewrite ?E1, ?E2; unfold_status;
    try (intuition (first [lia|congruence]); fail).
  destruct H as [H Hc]. split; [|done].
  destruct p; try done; rewrite ?E1, ?E2; intuition (first [lia|congruence]).
Qed.

(** What the goroutine of [processWithTimeout] knows holds as long as
    the attempts do not change. *)
Lemma inners_inv_stable m nd nd' inn :
  inners_inv m nd inn →
  st_le (status nd) (status nd') → attempts nd' = attempts nd →
  inners_inv m nd' inn.
Proof.
  intros H Hst E. unfold inners_inv in *. destruct inn as [|q [|]]; try done.
  unfold st_le in Hst.
  destruct q; unfold_inv; rewrite ?E; unfold_status;
    try (intuition (first [lia|congruence]); fail).
Qed.

Ltac auto_inv := try (intuition (first [lia|congruence]); fail).

Lemma step_inner d s l k0 i g p sp :
  wf_dag d → inv d s → gor s !! k0 = Some g → inners g !! i = Some p →
  exec d s k0 p l = Some sp → inv d (set_pc (GInner k0 i) sp.2 sp.1).
Proof.
  intros Hwf Hinv Hg Hp Hex.
  destruct (inv_lookups_gor d s k0 g Hinv Hg) as (m & nd & hs & Hm & Hn & Hh & Hni).
  pose proof (wf_attempts d Hwf k0 m Hm) as Hatt.
  assert (Hq : inners g = [p] ∧ i = 0%nat).
  { destruct Hni as (_ & Hq & _). unfold inners_inv in Hq.
    destruct (inners g) as [|q [|]]; try done.
    destruct i; simplify_eq/=; done. }
  destruct Hq as [Hq ->].
  assert (Hpi : inner_inv m nd p).
  { destruct Hni as (_ & Hq' & _). by rewrite Hq in Hq'. }
  destruct p; try (by (unfold inner_inv, retry_inv in Hpi)).
  all: try (assert (p = InnerReturned) as -> by (by destruct Hpi)).
  all: try match goal with w : who |- _ =>
         destruct w; [by (unfold inner_inv, retry_inv in Hpi; intuition congruence)|]
       end.
  all: exec_inv Hex; simpl.
  all: apply (inv_local d s _ k0 Hinv); try local_side.
  all: local_pre Hm Hn Hh Hg.
  all: destruct Hni as (I1 & I2 & I3 & I4 & I5 & I6 & I7 & I8).
  all: rewrite Hq in *; rewrite ?sum_list_with_app in *.
  all: unfold inner_inv, retry_inv in *.
  all: rewrite ?wrapU64_small by (rewrite maxUint_spec in *; simpl; lia).
  all: try match goal with |- node_inv _ _ _ _ _ _ _ =>
         split; [eapply runs_inv_stable;
                  [exact I1|simpl; unfold st_le; unfold_status; auto_inv..]|];
         clear I1; unfold_inv; unfold_status; rewrite ?sum_list_with_app; simpl
       end.
  all: unfold st_le; unfold_status; simpl.
  all: auto_inv.
Qed.


Lemma step_run_local d s l k0 i g p sp :
  wf_dag d → inv d s → gor s !! k0 = Some g → runs g !! i = Some p →
  (∀ c k, p ≠ StartCas c k) →
  (∀ c rest, p ≠ Strong (c :: rest)) → (∀ c rest, p ≠ Weak (c :: rest)) →
  exec d s k0 p l = Some sp → inv d (set_pc (GRun k0 i) sp.2 sp.1).
Proof.
  intros Hwf Hinv Hg Hp Hn1 Hn2 Hn3 Hex.
  destruct (inv_lookups_gor d s k0 g Hinv Hg) as (m & nd & hs & Hm & Hn & Hh & Hni).
  pose proof (wf_attempts d Hwf k0 m Hm) as Hatt.
  assert (Hr : runs g = [p] ∧ i = 0%nat).
  { destruct Hni as (Hr & _). unfold runs_inv in Hr.
    destruct (runs g) as [|q [|]]; try done.
    destruct i; simplify_eq/=; done. }
  destruct Hr as [Hr ->].
  assert (Hpi : run_inv d s m nd hs (inners g) p).
  { destruct Hni as (Hr' & _). rewrite Hr in Hr'. by destruct Hr'. }
  destruct p as [| | | |c k|?|?|[|c rest]|[|c rest]| | |e k| | | | | | | |
                 w ?|w ?|w ?|w ? ?|w|w|w ?|w ?|w ?| | | | |];
    try (by (unfold run_inv, retry_inv in Hpi; intuition congruence));
    try (by (exfalso; eauto)).
  all: try match goal with w : who |- _ =>
         destruct w; [|by (unfold run_inv, retry_inv in Hpi; intuition congruence)]
       end.
  all: exec_inv Hex; simpl.
  all: apply (inv_local d s _ k0 Hinv); try local_side.
  all: local_pre Hm Hn Hh Hg.
  all: destruct Hni as (I1 & I2 & I3 & I4 & I5 & I6 & I7 & I8).
  all: rewrite Hr in *; rewrite ?sum_list_with_app in *.
  all: assert (Hw : status nd ≠ Waiting) by (by destruct I1).
  all: clear I1.
  all: unfold run_inv in Hpi; unfold retry_inv, loop_inv in Hpi;
       unfold sent0, pristine in Hpi.
  all: destruct_and?.
  all: repeat match goal with
       | H : inners _ = [] |- _ => rewrite H in *; clear H
       | H : _ ∨ _ |- _ => destruct H as [->| ->]
       | H : [] = drop _ _ |- _ => apply drop_nil_length in H
       end.
  all: rewrite ?wrapU64_small by (rewrite maxUint_spec in *; simpl; lia).
  all: try match goal with |- node_inv _ _ _ _ _ _ _ =>
         split; [|split;
           [first [ by (eapply inners_inv_stable;
                         [exact I2|simpl; unfold st_le; unfold_status; auto_inv..])
                  | idtac ] |]]
       end.
  all: unfold_inv; unfold_status; rewrite ?sum_list_with_app; simpl.
  all: unfold st_le; unfold_status; simpl.
  all: auto_inv.
  all: repeat match goal with
       | H : strongSent _ = 0%nat |- _ => rewrite H in *; clear H
       | H : weakSent _ = 0%nat |- _ => rewrite H in *; clear H
       end; simpl.
  all: auto_inv.
Qed.


(** ** Steps that reach another node *)

(** The general form of [inv_local]: every node has a counterpart that
    moved forward and satisfies the invariant in the new state. *)
Lemma inv_intro d s s' :
  inv d s →
  length (nodes s') = length (nodes s) →
  length (hist s') = length (hist s) →
  length (gor s') = length (gor s) →
  main s' = main s →
  (∀ k m nd hs g,
     dag_metaNodes d !! k = Some m → nodes s !! k = Some nd →
     hist s !! k = Some hs → gor s !! k = Some g →
     node_inv d s k m nd hs g →
     ∃ nd' hs' g',
       nodes s' !! k = Some nd' ∧ hist s' !! k = Some hs' ∧ gor s' !! k = Some g'
       ∧ st_le (status nd) (status nd') ∧ attempts nd ≤ attempts nd'
       ∧ node_inv d s' k m nd' hs' g') →
  inv d s'.
Proof.
  intros Hinv Hln Hlh Hlg Hmain Hall.
  pose proof Hinv as [In Ih Ig Inode Imain].
  constructor; try congruence.
  - intros k m nd' hs' g' Hm Hn' Hh' Hg'.
    assert (Hk : (k < length (dag_metaNodes d))%nat) by by apply lookup_lt_Some in Hm.
    destruct (inv_lookups d s k Hinv Hk) as (m2 & nd & hs & g & Hm2 & Hn & Hh & Hg & Hni).
    destruct (Hall k m2 nd hs g Hm2 Hn Hh Hg Hni)
      as (nd2 & hs2 & g2 & ? & ? & ? & _ & _ & Hni').
    by simplify_eq.
  - rewrite Hmain. unfold main_inv in *.
    assert (Hres : ∀ acc, results_inv s acc → results_inv s' acc).
    { intros acc Hacc i r Hr. destruct (Hacc i r Hr) as (nd & Hn & Hle).
      assert (Hk : (i < length (dag_metaNodes d))%nat).
      { apply lookup_lt_Some in Hn. lia. }
      destruct (inv_lookups d s i Hinv Hk)
        as (m & nd2 & hs & g & Hm & Hn2 & Hh & Hg & Hni).
      destruct (Hall i m nd2 hs g Hm Hn2 Hh Hg Hni)
        as (nd' & hs' & g' & ? & ? & ? & ? & ? & _).
      simplify_eq. exists nd'. split; [done|]. by eapply res_le_mono. }
    destruct (main s); try done.
    + destruct Imain. split; auto.
    + destruct Imain. split; [congruence|auto].
Qed.

Lemma runs_inv_ext d s s' m nd hs rs inn nd' :
  runs_inv d s m nd hs rs inn →
  status nd' = status nd → attempts nd' = attempts nd → err nd' = err nd →
  done nd' = done nd → begin nd' = begin nd → cost nd' = cost nd →
  (∀ c, cas_ok d s c → cas_ok d s' c) →
  runs_inv d s' m nd' hs rs inn.
Proof.
  intros H E1 E2 E3 E4 E5 E6 Hc.
  destruct nd, nd'; simpl in *; subst. unfold runs_inv in *.
  destruct rs as [|p [|]]; try done.
  destruct H as [Hw H]. split; [done|].
  destruct p; try exact H. destruct H. split; [done|auto].
Qed.

Lemma inners_inv_ext m nd nd' inn :
  inners_inv m nd inn →
  status nd' = status nd → attempts nd' = attempts nd →
  inners_inv m nd' inn.
Proof.
  intros H E1 E2. destruct nd, nd'; simpl in *; subst. exact H.
Qed.

(** Nobody waits to start a node that another dependency still has to
    reach. *)
Lemma cas_ok_full d s c :
  wf_dag d → inv d s → cas_ok d s c →
  delivered (dag_metaNodes d) (hist s) c = indeg (dag_metaNodes d) c.
Proof.
  intros Hwf Hinv (mc & ndc & Hm & Hn & Hc).
  assert (Hk : (c < length (dag_metaNodes d))%nat) by by apply lookup_lt_Some in Hm.
  rewrite (wf_count d Hwf c mc Hm) in Hc.
  destruct (inv_lookups d s c Hinv Hk) as (m & nd & hs & g & ? & ? & ? & ? & Hni).
  simplify_eq. destruct Hni as (_ & _ & _ & _ & _ & I6 & _). lia.
Qed.


(** [start] wins the race for a waiting node whose dependencies are all
    done: the node runs, and [run] is dispatched. *)
Lemma start_inv d s c ndc :
  inv d s → cas_ok d s c → nodes s !! c = Some ndc → status ndc = Waiting →
  inv d (spawn_run c (wg_add 1 (on_node c (set_status Running) s))).
Proof.
  intros Hinv (mc & ndc' & Hm & Hn' & Hcas) Hn Hst. simplify_eq.
  assert (Hk : (c < length (dag_metaNodes d))%nat) by by apply lookup_lt_Some in Hm.
  destruct (inv_lookups d s c Hinv Hk) as (m & nd & hs & g & ? & ? & Hh & Hg & Hni).
  simplify_eq.
  apply (inv_local d s _ c Hinv); try local_side.
  local_pre Hm Hn' Hh Hg.
  all: try (unfold st_le; auto; fail); try lia.
  destruct Hni as (I1 & I2 & I3 & I4 & I5 & I6 & I7 & I8).
  unfold runs_inv in I1.
  destruct (runs g) as [|p [|]] eqn:Hr; [|by destruct I1|done].
  destruct I1 as (_ & Hpr & Hin). rewrite Hin in *.
  unfold node_inv. simpl.
  unfold pristine in Hpr. destruct_and?.
  unfold runs_inv, run_inv, stat_inv, pristine; simpl.
  unfold_status. split_and!; try done; try lia; try congruence.
  all: auto.
Qed.

(** A goroutine of [run] that leaves [start] continues its loop. *)
Lemma start_return_inv d s k0 g c kont :
  inv d s → gor s !! k0 = Some g → runs g = [StartCas c kont] →
  inv d (set_pc (GRun k0 0) kont s).
Proof.
  intros Hinv Hg Hr.
  destruct (inv_lookups_gor d s k0 g Hinv Hg) as (m & nd & hs & Hm & Hn & Hh & Hni).
  apply (inv_local d s _ k0 Hinv); try local_side.
  local_pre Hm Hn Hh Hg; try apply st_le_refl; try lia.
  destruct Hni as (I1 & I2 & I3 & I4 & I5 & I6 & I7 & I8).
  rewrite Hr in *. unfold node_inv. simpl.
  unfold runs_inv in I1. simpl in I1. destruct I1 as (Hw & Hl & _).
  split_and!; try done.
  all: destruct kont; try done.
  all: simpl in *; try lia.
Qed.

(** ** [onDepDone] *)

(** The invariant of a node whose dependency counter alone changed. *)
Lemma node_inv_frame d s s' k m nd nd' hs g :
  node_inv d s k m nd hs g →
  (∀ c, cas_ok d s c → cas_ok d s' c) →
  status nd' = status nd → attempts nd' = attempts nd → err nd' = err nd →
  done nd' = done nd → begin nd' = begin nd → cost nd' = cost nd →
  doneDepCnt nd' = Z.of_nat (delivered (dag_metaNodes d) (hist s') k) →
  (status nd' ≠ Waiting → doneDepCnt nd' = depCnt m) →
  node_inv d s' k m nd' hs g.
Proof.
  intros (I1 & I2 & I3 & I4 & I5 & I6 & I7 & I8) Hc E1 E2 E3 E4 E5 E6 D1 D2.
  unfold node_inv. split_and!; try done.
  - by eapply runs_inv_ext.
  - by eapply inners_inv_ext.
  - unfold stat_inv in *. rewrite E1, E3. done.
  - lia.
  - lia.
  - lia.
Qed.

(** One more notification of [c], sent by node [k]. *)
Lemma delivered_sent ms hss k m hs f c x :
  ms !! k = Some m → hss !! k = Some hs →
  sent_to x m (f hs) = (sent_to x m hs + b2n (c =? x)%nat)%nat →
  delivered ms (alter f k hss) x = (delivered ms hss x + b2n (c =? x)%nat)%nat.
Proof.
  intros Hm Hh E.
  pose proof (delivered_alter ms hss x k f m hs Hm Hh). lia.
Qed.

Lemma sent_to_strong m hs c x :
  children m !! strongSent hs = Some c →
  sent_to x m (incr_strongSent hs) = (sent_to x m hs + b2n (c =? x)%nat)%nat.
Proof.
  intros H. unfold sent_to. simpl. rewrite (occ_take_S _ _ _ _ H). lia.
Qed.

Lemma sent_to_weak m hs c x :
  weakChildren m !! weakSent hs = Some c →
  sent_to x m (incr_weakSent hs) = (sent_to x m hs + b2n (c =? x)%nat)%nat.
Proof.
  intros H. unfold sent_to. simpl. rewrite (occ_take_S _ _ _ _ H). lia.
Qed.

(** The atomic [Add(1)] of [onDepDone], with what the caller knows about
    its own loop before and after it. *)
Lemma add_inv d s k0 g c p p' sent m nd hs :
  wf_dag d → inv d s →
  gor s !! k0 = Some g → runs g = [p] →
  dag_metaNodes d !! k0 = Some m → nodes s !! k0 = Some nd → hist s !! k0 = Some hs →
  c ∈ children m ++ weakChildren m →
  (∀ x, sent_to x m (sent hs) = (sent_to x m hs + b2n (c =? x)%nat)%nat) →
  invoked (sent hs) = invoked hs → timedOut (sent hs) = timedOut hs →
  ((0 < strongSent (sent hs))%nat → status nd = Succeeded) →
  win p = 0%nat → win p' = 0%nat →
  loop_inv m nd (sent hs) p' →
  ∀ sp, onDepDone d k0 c (λ _, p') [] sent s = Some sp →
  inv d (set_pc (GRun k0 0) sp.2 sp.1).
Proof.
  intros Hwf Hinv Hg Hr Hm Hn Hh Hin Hsent Hiv Hto Hss Hwp Hwp' Hloop sp Hex.
  assert (Hkc : (c < length (dag_metaNodes d))%nat) by by eapply wf_children.
  destruct (inv_lookups d s c Hinv Hkc) as (mc & ndc & hsc & gc & Hmc & Hnc & Hhc & Hgc & Hnic).
  pose proof (inv_node d s Hinv k0 m nd hs g Hm Hn Hh Hg) as Hni0.
  unfold onDepDone in Hex. rewrite Hnc, Hmc in Hex. simpl in Hex.
  assert (Hdel : ∀ x, delivered (dag_metaNodes d) (alter sent k0 (hist s)) x
                      = (delivered (dag_metaNodes d) (hist s) x + b2n (c =? x)%nat)%nat).
  { intros x. by eapply delivered_sent. }
  assert (Hlt : Z.of_nat (delivered (dag_metaNodes d) (hist s) c) + 1 ≤ depCnt mc < 2^31).
  { pose proof (delivered_le_indeg (dag_metaNodes d) (alter sent k0 (hist s)) c) as Hle.
    rewrite Hdel, Nat.eqb_refl in Hle. simpl in Hle.
    rewrite (wf_count d Hwf c mc Hmc).
    pose proof (wf_bound d Hwf c Hkc). lia. }
  assert (Hdc : doneDepCnt ndc = Z.of_nat (delivered (dag_metaNodes d) (hist s) c)).
  { by destruct Hnic as (_ & _ & _ & _ & _ & ? & _). }
  assert (Hwc : status ndc = Waiting).
  { destruct (decide (status ndc = Waiting)) as [|Hne]; [done|].
    destruct Hnic as (_ & _ & _ & _ & _ & _ & I7 & _). specialize (I7 Hne). lia. }
  assert (Hw0 : status nd ≠ Waiting).
  { destruct Hni0 as (I1 & _). unfold runs_inv in I1. rewrite Hr in I1. by destruct I1. }
  assert (Hne : c ≠ k0) by (intros ->; simplify_eq; done).
  assert (Hne' : k0 ≠ c) by congruence.
  rewrite wrap32_small in Hex by lia.
  assert (Hcas : ∀ x, cas_ok d s x → x ≠ c).
  { intros x (mx & ndx & ? & ? & ?) ->. simplify_eq. lia. }
  injection Hex as <-. simpl.
  set (s' := on_gor _ _ _).
  assert (Hcas' : ∀ x, cas_ok d s x → cas_ok d s' x).
  { intros x Hx. pose proof (Hcas x Hx) as Hxc.
    destruct Hx as (mx & ndx & ? & ? & ?). exists mx, ndx.
    split_and!; try done. subst s'. simpl. by rewrite list_lookup_alter_ne. }
  apply (inv_intro d s s' Hinv); subst s'; simpl; rewrite ?length_alter; try done.
  intros k mk ndk hsk gk Hmk Hnk Hhk Hgk Hnik.
  destruct (decide (k = k0)) as [->|Hk0]; [|destruct (decide (k = c)) as [->|Hkc']].
  - simplify_eq.
    eexists nd, (sent hs), _.
    rewrite list_lookup_alter_ne by done.
    rewrite !list_lookup_alter_eq, Hh, Hg. simpl.
    split_and!; try done; try apply st_le_refl; try lia.
    destruct Hnik as (I1 & I2 & I3 & I4 & I5 & I6 & I7 & I8).
    rewrite Hr in *. unfold node_inv. simpl.
    split_and!; try done; try lia.
    + destruct (decide (doneDepCnt ndc + 1 = depCnt mc)) as [E|E].
      * apply Z.eqb_eq in E. rewrite E. simpl. split; [done|].
        exists mc, (set_doneDepCnt (doneDepCnt ndc + 1) ndc). simpl.
        rewrite list_lookup_alter_eq, Hnc. apply Z.eqb_eq in E. done.
      * apply Z.eqb_neq in E. rewrite E.
        destruct p'; try done.
    + unfold stat_inv in *. rewrite Hto. destruct_and?. split_and!; try done.
    + rewrite Hiv. rewrite I5. simpl. rewrite Hwp.
      destruct (_ =? _); simpl; rewrite ?Hwp'; done.
    + rewrite Hdel. apply Nat.eqb_neq in Hne. rewrite Hne. simpl. lia.
  - simplify_eq.
    exists (set_doneDepCnt (doneDepCnt ndc + 1) ndc), hsc, gc.
    rewrite list_lookup_alter_eq, Hnc. simpl.
    rewrite !list_lookup_alter_ne by done.
    split_and!; try done; try apply st_le_refl; try lia.
    eapply node_inv_frame; [exact Hnik|exact Hcas'|try done..]; simpl.
    rewrite Hdel, Nat.eqb_refl. simpl. lia.
  - exists ndk, hsk, gk.
    rewrite !list_lookup_alter_ne by done.
    split_and!; try done; try apply st_le_refl; try lia.
    eapply node_inv_frame; [exact Hnik|exact Hcas'|try done..]; simpl.
    + rewrite Hdel. assert (c ≠ k) as Hck by done.
      apply Nat.eqb_neq in Hck. rewrite Hck. simpl.
      destruct Hnik as (_ & _ & _ & _ & _ & ? & _). lia.
    + by destruct Hnik as (_ & _ & _ & _ & _ & _ & ? & _).
Qed.

(** ** Every step keeps the invariant *)

Lemma inv_same d s s' :
  inv d s → nodes s' = nodes s → hist s' = hist s → gor s' = gor s →
  main_inv d s' (main s') → inv d s'.
Proof.
  intros [In Ih Ig Inode Imain] En Eh Eg Hmain.
  constructor; rewrite ?En, ?Eh, ?Eg; try done.
  intros k m nd hs g Hm Hn Hh Hg.
  apply (node_inv_state d s s').
  - by rewrite Eh.
  - intros c (mc & ndc & ? & ? & ?). exists mc, ndc. by rewrite En.
  - by apply Inode.
Qed.

Lemma results_inv_same s s' acc :
  nodes s' = nodes s → results_inv s acc → results_inv s' acc.
Proof. intros E H i r Hr. rewrite E. by apply H. Qed.

Lemma main_inv_same d s s' p :
  nodes s' = nodes s → main_inv d s p → main_inv d s' p.
Proof.
  intros E H. destruct p; try done; simpl in *; rewrite ?E.
  - destruct H. split; [done|]. by eapply results_inv_same.
  - destruct H. split; [done|]. by eapply results_inv_same.
Qed.

Lemma pc_cases p :
  (∃ c k, p = StartCas c k) ∨ (∃ c rest, p = Strong (c :: rest))
  ∨ (∃ c rest, p = Weak (c :: rest))
  ∨ ((∀ c k, p ≠ StartCas c k) ∧ (∀ c rest, p ≠ Strong (c :: rest))
     ∧ (∀ c rest, p ≠ Weak (c :: rest))).
Proof.
  destruct p as [ | | | | | | |[|]|[|]| | | | | | | | | | | | | | | | | | | | | | | | ];
    try (right; right; right; done); eauto 6.
Qed.

Lemma step_run d s l k0 i g p sp :
  wf_dag d → inv d s → gor s !! k0 = Some g → runs g !! i = Some p →
  exec d s k0 p l = Some sp → inv d (set_pc (GRun k0 i) sp.2 sp.1).
Proof.
  intros Hwf Hinv Hg Hp Hex.
  destruct (inv_lookups_gor d s k0 g Hinv Hg) as (m & nd & hs & Hm & Hn & Hh & Hni).
  assert (Hr : runs g = [p] ∧ i = 0%nat).
  { destruct Hni as (I1 & _). unfold runs_inv in I1.
    destruct (runs g) as [|q [|]]; try done. destruct i; simplify_eq/=; done. }
  destruct Hr as [Hr ->].
  assert (Hw0 : status nd ≠ Waiting ∧ run_inv d s m nd hs (inners g) p).
  { destruct Hni as (I1 & _). unfold runs_inv in I1. by rewrite Hr in I1. }
  destruct Hw0 as [Hw0 Hpi].
  assert (Hst : stat_inv nd hs) by by destruct Hni as (_ & _ & ? & _).
  destruct (pc_cases p) as [(c & k & ->)|[(c & rest & ->)|[(c & rest & ->)|(Hn1 & Hn2 & Hn3)]]].
  { simpl in Hex. destruct l; try done.
    destruct (nodes s !! c) as [ndc|] eqn:Hnc; [|done]. simpl in Hex.
    destruct Hpi as [Hl Hcas].
    destruct (status ndc =? Waiting) eqn:E; bool2prop; simplify_eq/=.
    - assert (c ≠ k0) by (intros ->; simplify_eq; done).
      eapply start_return_inv.
      + by eapply start_inv.
      + simpl. rewrite list_lookup_alter_ne by done. exact Hg.
      + exact Hr.
    - by eapply start_return_inv. }
  { destruct l; try done. simpl in Hex, Hpi.
    destruct Hpi as (Hs & Hd & Hle & Hws).
    apply drop_cons_lookup in Hd as (Hl & -> & Hlt).
    eapply (add_inv d s k0 g c _ (Strong _) incr_strongSent m nd hs);
      try done; simpl.
    all: try (apply elem_of_app; left; by eapply list_elem_of_lookup_2).
    all: try (intros x; by apply sent_to_strong).
    all: try (split_and!; try done; lia). }
  { destruct l; try done. simpl in Hex, Hpi.
    destruct Hpi as (Hd & Hle & Hsd).
    apply drop_cons_lookup in Hd as (Hl & -> & Hlt).
    eapply (add_inv d s k0 g c _ (Weak _) incr_weakSent m nd hs);
      try done; simpl.
    all: try (apply elem_of_app; right; by eapply list_elem_of_lookup_2).
    all: try (intros x; by apply sent_to_weak).
    all: try (by destruct Hst as (_ & _ & _ & ?)).
    all: try (split_and!; try done; lia). }
  by eapply step_run_local.
Qed.

Lemma is_root_cas_ok d s c :
  wf_dag d → inv d s → is_root d c → cas_ok d s c.
Proof.
  intros Hwf Hinv (m & Hm & H0).
  assert (Hk : (c < length (dag_metaNodes d))%nat) by by apply lookup_lt_Some in Hm.
  rewrite (wf_count d Hwf c m Hm) in H0.
  destruct (inv_lookups d s c Hinv Hk) as (m' & nd & hs & g & Hm' & Hn & Hh & Hg & Hni).
  exists m', nd. split_and!; try done.
  destruct Hni as (_ & _ & _ & _ & _ & I6 & _).
  pose proof (delivered_le_indeg (dag_metaNodes d) (hist s) c).
  rewrite (wf_count d Hwf c m' Hm'). lia.
Qed.

Lemma step_main d s l sp :
  wf_dag d → inv d s → exec d s 0 (main s) l = Some sp →
  inv d (set_main sp.2 sp.1).
Proof.
  intros Hwf Hinv Hex.
  pose proof (inv_main d s Hinv) as Hmain.
  destruct (main s) as [rest| |i results|results|c k| | | | | | | | | | | | | | | | | | | | | | | | | | | |]
    eqn:Emain; try done.
  - destruct rest as [|idx rest]; destruct l; simplify_eq/=.
    + by eapply inv_same.
    + eapply inv_same; try done. simpl. by apply Forall_cons in Hmain.
  - destruct l; try done. simpl in Hex. destruct (wg s =? 0); simplify_eq/=.
    eapply inv_same; try done.
    all: simpl; split; [done|]; by intros i r Hr.
  - destruct l; try done. simpl in Hex, Hmain. destruct Hmain as [Hlen Hres].
    destruct (nodes s !! i) as [n|] eqn:Hn.
    + destruct (writer n); simplify_eq/=.
      eapply inv_same; try done. simpl. split.
      * rewrite length_app. simpl. lia.
      * intros j r Hr. apply lookup_app_Some in Hr as [Hr|[Hj Hr]].
        { by apply Hres. }
        apply list_lookup_singleton_Some in Hr as [Hj0 <-].
        assert (j = length results) as -> by lia.
        exists n. split; [done|]. unfold res_le. simpl. split; [apply st_le_refl|].
        assert (Hk : (length results < length (dag_metaNodes d))%nat).
        { apply lookup_lt_Some in Hn. rewrite <- (inv_nodes _ _ Hinv). done. }
        destruct (inv_lookups d s _ Hinv Hk) as (m & nd & hs & gs & ? & ? & ? & ? & Hni).
        simplify_eq. destruct Hni as (_ & _ & _ & I4 & _). lia.
    + simplify_eq/=. eapply inv_same; try done. simpl. split; [|done].
      apply lookup_ge_None in Hn.
      assert (Hle : (length results ≤ length (nodes s))%nat).
      { destruct results as [|r0 results _] using rev_ind; [simpl; lia|].
        destruct (Hres (length results) r0) as (nd & Hnd & _).
        - rewrite lookup_app_r by lia. by rewrite Nat.sub_diag.
        - apply lookup_lt_Some in Hnd. rewrite length_app. simpl. lia. }
      lia.
  - destruct l; try done. simpl in Hex, Hmain.
    destruct k; try done. destruct Hmain as [Hroot Hrest].
    destruct (nodes s !! c) as [ndc|] eqn:Hnc; [|done]. simpl in Hex.
    destruct (status ndc =? Waiting) eqn:E; bool2prop; simplify_eq/=.
    + eapply (inv_same d (spawn_run c (wg_add 1 (on_node c (set_status Running) s))));
        try done.
      eapply start_inv; try done. by apply is_root_cas_ok.
    + by eapply inv_same.
Qed.

Lemma step_tick d s dt : inv d s → inv d (advance dt s).
Proof.
  intros Hinv. eapply inv_same; try done. simpl.
  eapply main_inv_same; [|exact (inv_main d s Hinv)]. done.
Qed.

Lemma step_usercall d s n :
  inv d s → (n < length (nodes s))%nat → inv d (spawn_user n s).
Proof.
  intros Hinv Hlt. rewrite (inv_nodes _ _ Hinv) in Hlt.
  destruct (inv_lookups d s n Hinv Hlt) as (m & nd & hs & g & Hm & Hn & Hh & Hg & Hni).
  apply (inv_local d s _ n Hinv); try local_side.
  local_pre Hm Hn Hh Hg; try apply st_le_refl; try lia.
  eapply node_inv_ext; [exact Hni|try done..]. simpl.
  destruct Hni as (_ & _ & _ & _ & _ & _ & _ & Hu).
  apply Forall_app. split; [done|]. by apply Forall_singleton.
Qed.

Lemma delivered_init ms n c : delivered ms (replicate n newHistory) c = 0%nat.
Proof.
  unfold delivered. revert n.
  induction ms as [|m ms IH]; intros [|n]; simpl; rewrite ?IH; done.
Qed.

Lemma inv_init d t : wf_dag d → inv d (init d t).
Proof.
  intros Hwf. constructor; simpl; rewrite ?length_replicate; try done.
  - intros k m nd hs g Hm Hn Hh Hg.
    apply lookup_replicate in Hn as [-> _].
    apply lookup_replicate in Hh as [-> _].
    apply lookup_replicate in Hg as [-> _].
    unfold node_inv. simpl. rewrite delivered_init.
    pose proof (wf_attempts d Hwf k m Hm). rewrite maxUint_spec.
    unfold runs_inv, stat_inv, pristine. simpl. unfold_status.
    split_and!; try done; try lia; auto.
  - apply Forall_forall. intros r Hr. by apply (wf_roots d Hwf).
Qed.

Lemma inv_step d s l s' :
  wf_dag d → inv d s → step d s l = Some s' → inv d s'.
Proof.
  intros Hwf Hinv Hst.
  assert (Hg : ∀ g, (∃ p sp, get_pc s g = Some p ∧ exec d s (gid_node g) p l = Some sp
                             ∧ s' = set_pc g sp.2 sp.1) → inv d s').
  { intros g (p & sp & Hp & Hex & ->).
    destruct g as [|k i|k i|k i]; simpl in *.
    - simplify_eq. by eapply (step_main d s l).
    - destruct (gor s !! k) as [gs|] eqn:Hgs; [|done]. by eapply step_run.
    - destruct (gor s !! k) as [gs|] eqn:Hgs; [|done]. by eapply step_inner.
    - destruct (gor s !! k) as [gs|] eqn:Hgs; [|done]. by eapply step_user. }
  destruct l as [dt|n|g|g o|g]; simpl in Hst.
  - destruct (0 <? dt); simplify_eq. by apply step_tick.
  - destruct (decide _); simplify_eq. by apply step_usercall.
  - destruct (get_pc s g) as [p|] eqn:Hp; [|done]. simpl in Hst.
    destruct (exec d s (gid_node g) p _) as [sp|] eqn:Hex; [|done]. simplify_eq/=.
    apply (Hg g). eauto.
  - destruct (get_pc s g) as [p|] eqn:Hp; [|done]. simpl in Hst.
    destruct (exec d s (gid_node g) p _) as [sp|] eqn:Hex; [|done]. simplify_eq/=.
    apply (Hg g). eauto.
  - destruct (get_pc s g) as [p|] eqn:Hp; [|done]. simpl in Hst.
    destruct (exec d s (gid_node g) p _) as [sp|] eqn:Hex; [|done]. simplify_eq/=.
    apply (Hg g). eauto.
Qed.

Lemma inv_run_trace d tr s s' :
  wf_dag d → inv d s → run_trace d tr s = Some s' → inv d s'.
Proof.
  intros Hwf. revert s. induction tr as [|l tr IH]; intros s Hinv Hrun; simpl in Hrun.
  - by simplify_eq.
  - destruct (step d s l) as [s1|] eqn:Hs; [|done].
    eapply IH; [|done]. by eapply inv_step.
Qed.

Lemma inv_reachable d s : wf_dag d → reachable d s → inv d s.
Proof.
  intros Hwf (t & tr & Hrun). eapply inv_run_trace; [done| |done]. by apply inv_init.
Qed.
Lemma wf_dagb_ok d : wf_dagb d = true → wf_dag d.
Proof.
  unfold wf_dagb. intros H. apply andb_true_iff in H as [Hn Hr].
  rewrite forallb_forall in Hn. rewrite forallb_forall in Hr.
  assert (Hk : ∀ k m, dag_metaNodes d !! k = Some m → wf_nodeb (dag_metaNodes d) k m = true).
  { intros k m Hm. apply (Hn (k, m)). apply list_elem_of_In.
    apply list_elem_of_lookup. exists k. rewrite list_lookup_imap, Hm. done. }
  constructor.
  - intros k m c Hm Hc. specialize (Hk k m Hm). unfold wf_nodeb in Hk.
    repeat (apply andb_true_iff in Hk as [Hk ?]).
    rewrite forallb_forall in Hk. apply Nat.ltb_lt, Hk, list_elem_of_In, Hc.
  - intros k m Hm. specialize (Hk k m Hm). unfold wf_nodeb in Hk.
    repeat (apply andb_true_iff in Hk as [Hk ?]). bool2prop. done.
  - intros k Hlt. destruct (lookup_lt_is_Some_2 _ _ Hlt) as [m Hm].
    specialize (Hk k m Hm). unfold wf_nodeb in Hk.
    repeat (apply andb_true_iff in Hk as [Hk ?]). bool2prop. done.
  - intros r Hin. apply list_elem_of_In, Hr in Hin. unfold wf_rootb in Hin.
    destruct (dag_metaNodes d !! r) as [m|]; [|done]. exists m. bool2prop. done.
  - intros k m Hm. specialize (Hk k m Hm). unfold wf_nodeb in Hk.
    repeat (apply andb_true_iff in Hk as [Hk ?]). bool2prop. lia.
Qed.

(** ** What the invariant says about the claims of the specification *)


Lemma st_le_failed b : st_le Failed b → b = Failed.
Proof. unfold st_le. unfold_status. lia. Qed.



Lemma fan_reachable : reachable Scenarios.fan_dag Scenarios.fan_state.
Proof. exists Go.unixEpoch, Scenarios.fan_trace. vm_compute. reflexivity. Qed.


(** C7: in every state of every run the processor of a node was invoked
    at most [max(1, maxAttempts)] times, [maxAttempts = 0] counting as 1;
    the attempts counter is the number of invocations plus the number of
    goroutines that have incremented it and are about to call the
    processor, of which there is at most one; so whenever no goroutine is
    at that point the counter equals the number of invocations and is
    positive exactly when the processor was invoked. *)
Theorem attempts_count_invocations d s k m nd hs g :
  wf_dag d → reachable d s →
  dag_metaNodes d !! k = Some m → nodes s !! k = Some nd →
  hist s !! k = Some hs → gor s !! k = Some g →
  Z.of_nat (invoked hs) ≤ attempts nd
  ∧ attempts nd ≤ Z.max 1 (maxAttempts m)
  ∧ maxUint 1 0 = 1
  ∧ attempts nd
    = Z.of_nat (invoked hs) + Z.of_nat (sum_list_with win (runs g ++ inners g))
  ∧ (sum_list_with win (runs g ++ inners g) ≤ 1)%nat
  ∧ (sum_list_with win (runs g ++ inners g) = 0%nat →
     attempts nd = Z.of_nat (invoked hs)
     ∧ (0 < attempts nd ↔ (0 < invoked hs)%nat)).
Proof.
  intros Hwf Hreach Hm Hn Hh Hg.
  pose proof (inv_reachable d s Hwf Hreach) as Hinv.
  pose proof (inv_node d s Hinv k m nd hs g Hm Hn Hh Hg)
    as (I1 & I2 & I3 & I4 & I5 & _).
  rewrite maxUint_spec in I4.
  assert (Hw : (sum_list_with win (runs g ++ inners g) ≤ 1)%nat).
  { unfold runs_inv in I1. unfold inners_inv in I2.
    rewrite sum_list_with_app.
    destruct (runs g) as [|p [|]]; try done.
    - destruct I1 as (_ & _ & ->). simpl. lia.
    - destruct I1 as [_ I1].
      assert (Hp : win p = 0%nat ∨ inners g = []).
      { destruct p; simpl in *; auto; right; by destruct I1 as (_ & _ & ?). }
      assert (Hq : (sum_list_with win (inners g) ≤ 1)%nat).
      { destruct (inners g) as [|q [|]]; try done; simpl; [lia|].
        destruct q; simpl; try lia. destruct ok; simpl; lia. }
      assert (Hp1 : (win p ≤ 1)%nat).
      { destruct p; simpl; try lia. destruct ok; simpl; lia. }
      simpl. destruct Hp as [E|E]; rewrite E in *; simpl in *; lia. }
  split_and!; try lia; try done.
  all: intros E; rewrite E in I5; split; lia.
Qed.

Lemma attempts_count_invocations_witness :
  attempts (default newRuntimeNode (nodes Scenarios.fan_state !! 1%nat))
  ≤ Z.max 1 (maxAttempts
       (default (newNodeMetadata emptyNode) (dag_metaNodes Scenarios.fan_dag !! 1%nat))).
Proof.
  refine (proj1 (proj2 (attempts_count_invocations Scenarios.fan_dag Scenarios.fan_state
            1%nat _ _
            (default newHistory (hist Scenarios.fan_state !! 1%nat))
            (default noGoroutines (gor Scenarios.fan_state !! 1%nat))
            _ _ _ _ _ _))).
  - apply wf_dagb_ok. vm_compute. reflexivity.
  - exists Go.unixEpoch, Scenarios.fan_trace. vm_compute. reflexivity.
  - vm_compute. reflexivity.
  - vm_compute. reflexivity.
  - vm_compute. reflexivity.
  - vm_compute. reflexivity.
Defined.

(** C7 as the claim states it fails: the counter is incremented before
    the processor is called, in a step of its own, so a run can end with
    an attempts count of 1 in the result of a node whose processor was
    never invoked. *)
Lemma attempts_without_invocation :
  reachable Scenarios.single_dag Scenarios.attempt_race_state
  ∧ ∃ r hs,
      main Scenarios.attempt_race_state = MDone [r]
      ∧ hist Scenarios.attempt_race_state !! 0%nat = Some hs
      ∧ Attempts r = 1 ∧ invoked hs = 0%nat
      ∧ Attempts r ≠ Z.of_nat (invoked hs)
      ∧ ¬ (0 < Attempts r ↔ (0 < invoked hs)%nat).
Proof.
  split.
  - exists Go.unixEpoch, Scenarios.attempt_race_trace. vm_compute. reflexivity.
  - eexists _, _. split_and!; try (vm_compute; reflexivity).
    + vm_compute. discriminate.
    + vm_compute. intros [H _]. specialize (H eq_refl). inversion H.
Qed.

(** ** Steps seen from another node *)

Lemma same_core_refl nd : same_core nd nd.
Proof. by unfold same_core. Qed.

Ltac elsewhere_close :=
  eexists _, _; split_and!; try done; try apply same_core_refl; auto.

(** A step of the main goroutine, or of a goroutine of another node,
    changes of node [k] at most the counter of done dependencies, or
    starts it. *)
Lemma step_elsewhere d s l s' k nd hs g :
  main_inv d s (main s) →
  step d s l = Some s' →
  (∀ g0, label_gid l = Some g0 → g0 = GMain ∨ gid_node g0 ≠ k) →
  nodes s !! k = Some nd → hist s !! k = Some hs → gor s !! k = Some g →
  ∃ nd' g',
    nodes s' !! k = Some nd' ∧ hist s' !! k = Some hs ∧ gor s' !! k = Some g'
    ∧ same_core nd nd' ∧ inners g' = inners g
    ∧ (users g' = users g ∨ users g' = users g ++ [UserRLock])
    ∧ ((status nd' = status nd ∧ runs g' = runs g)
       ∨ (status nd = Waiting ∧ status nd' = Running ∧ runs g' = runs g ++ [Run])).
Proof.
  intros Hmain Hst Hl Hn Hh Hg.
  assert (Hcase : ∀ g0 p sp,
            get_pc s g0 = Some p → exec d s (gid_node g0) p l = Some sp →
            g0 = GMain ∨ gid_node g0 ≠ k →
            ∃ nd' g',
              nodes (set_pc g0 sp.2 sp.1) !! k = Some nd'
              ∧ hist (set_pc g0 sp.2 sp.1) !! k = Some hs
              ∧ gor (set_pc g0 sp.2 sp.1) !! k = Some g'
              ∧ same_core nd nd' ∧ inners g' = inners g
              ∧ (users g' = users g ∨ users g' = users g ++ [UserRLock])
              ∧ ((status nd' = status nd ∧ runs g' = runs g)
                 ∨ (status nd = Waiting ∧ status nd' = Running
                    ∧ runs g' = runs g ++ [Run]))).
  { intros g0 p sp Hp Hex Hg0.
    assert (Hg0' : g0 = GMain ∨ (g0 ≠ GMain ∧ gid_node g0 ≠ k)).
    { destruct g0; [by left|right..]; by destruct Hg0. }
    clear Hg0. destruct Hg0' as [->|[Hnm Hne]].
    - simpl in Hp. simplify_eq. simpl.
      destruct (main s) as [rest| |i results|results|c kont| | | | | | | | | | | | | | | | | | | | | | | | | | | |]
        eqn:Emain; try done.
      + destruct rest; destruct l; simplify_eq/=; elsewhere_close.
      + destruct l; try done. simpl in Hex. destruct (wg s =? 0); simplify_eq/=.
        elsewhere_close.
      + destruct l; try done. simpl in Hex.
        destruct (nodes s !! i) as [n|]; [destruct (writer n)|]; simplify_eq/=;
          elsewhere_close.
      + destruct l; try done. simpl in Hex.
        destruct (nodes s !! c) as [ndc|] eqn:Hnc; [|done]. simpl in Hex.
        destruct (status ndc =? Waiting) eqn:E; bool2prop; simplify_eq/=;
          [|elsewhere_close].
        destruct (decide (c = k)) as [->|].
        * simplify_eq. rewrite !list_lookup_alter_eq, Hn, Hg. simpl.
          eexists _, _; split_and!; try done; try (by left); by right.
        * rewrite !list_lookup_alter_ne by done. elsewhere_close.
    - assert (Hset : ∀ q s1, nodes (set_pc g0 q s1) = nodes s1
                            ∧ hist (set_pc g0 q s1) = hist s1
                            ∧ ∃ f, gor (set_pc g0 q s1) = alter f (gid_node g0) (gor s1)).
      { intros q s1. destruct g0; try done; simpl; eauto. }
      clear Hp. revert Hex Hset Hne. generalize (gid_node g0) as k0.
      intros k0 Hex Hset Hne.
      destruct (Hset sp.2 sp.1) as (-> & -> & f & ->).
      rewrite list_lookup_alter_ne by done. clear Hset.
      destruct p; exec_inv Hex; simpl.
      all: repeat match goal with
           | Hd : ?a ≠ ?b |- context [alter _ ?a _ !! ?b] =>
               rewrite (list_lookup_alter_ne _ _ a b) by done
           end.
      all: try (elsewhere_close; fail).
      all: try match goal with
           | |- context [alter _ ?c (nodes _) !! ?kk] =>
               destruct (decide (c = kk)) as [->|];
               [rewrite !list_lookup_alter_eq|rewrite !list_lookup_alter_ne by done]
           end.
      all: rewrite ?Hn, ?Hg; simpl.
      all: try (elsewhere_close; fail).
      all: try (eexists _, _; split_and!; try done; try (by left);
                right; simplify_eq; done). }
  destruct l as [dt|n|g0|g0 o|g0]; simpl in Hst.
  - destruct (0 <? dt); simplify_eq/=. elsewhere_close.
  - destruct (decide _); simplify_eq/=.
    destruct (decide (n = k)) as [->|].
    + rewrite list_lookup_alter_eq, Hg. simpl.
      eexists _, _; split_and!; try done; try apply same_core_refl; auto.
    + rewrite list_lookup_alter_ne by done. elsewhere_close.
  - destruct (get_pc s g0) as [p|] eqn:Hp; [|done]. simpl in Hst.
    destruct (exec d s (gid_node g0) p _) as [sp|] eqn:Hex; [|done]. simplify_eq/=.
    eapply Hcase; eauto.
  - destruct (get_pc s g0) as [p|] eqn:Hp; [|done]. simpl in Hst.
    destruct (exec d s (gid_node g0) p _) as [sp|] eqn:Hex; [|done]. simplify_eq/=.
    eapply Hcase; eauto.
  - destruct (get_pc s g0) as [p|] eqn:Hp; [|done]. simpl in Hst.
    destruct (exec d s (gid_node g0) p _) as [sp|] eqn:Hex; [|done]. simplify_eq/=.
    eapply Hcase; eauto.
Qed.

(** ** A node whose total timeout has expired when [run] begins *)

Lemma expired_pc_cases p :
  expired_pc p = true →
  p = Notify ∨ (∃ rest, p = Weak rest) ∨ (∃ c rest, p = StartCas c (Weak rest))
  ∨ p = WgDone ∨ p = RunReturned.
Proof.
  destruct p as [ | | | |c kont| | | | | | | | | | | | | | | | | | | | | | | | | | | | ];
    try done; eauto 6.
  destruct kont; try done; eauto 6.
Qed.

Lemma expired_step d s l s' k :
  inv d s → expired_at s k → step d s l = Some s' → expired_at s' k.
Proof.
  intros Hinv (nd & hs & g & Hn & Hh & Hg & Hex) Hst.
  destruct Hex as (Hs & Ha & Hi & Hss & Hin & Hd & Hb & p & Hr & Hp).
  assert (Helse : (∀ g0, label_gid l = Some g0 → g0 = GMain ∨ gid_node g0 ≠ k) →
                  expired_at s' k).
  { intros Hl.
    destruct (step_elsewhere d s l s' k nd hs g (inv_main d s Hinv) Hst Hl Hn Hh Hg)
      as (nd' & g' & Hn' & Hh' & Hg' & Hcore & Hin' & _ & Hrun).
    destruct Hcore as (? & ? & ? & ? & ? & ? & ? & ? & ?).
    destruct Hrun as [[Hs' Hr']|[Hw _]]; [|rewrite Hs in Hw; done].
    exists nd', hs, g'. split_and!; try done.
    unfold expired. split_and!; try congruence.
    exists p. split; [congruence|]. destruct Hp as [?|[? ?]]; [by left|right].
    split; congruence. }
  destruct (label_gid l) as [g0|] eqn:El; [|apply Helse; intros ?; done].
  destruct g0 as [|k0 i|k0 i|k0 i].
  - apply Helse. intros ? [= <-]. by left.
  - destruct (decide (k0 = k)) as [->|Hne];
      [|apply Helse; intros ? [= <-]; by right].
    assert (Hstep : ∃ sp, exec d s k p l = Some sp ∧ s' = set_pc (GRun k i) sp.2 sp.1
                          ∧ i = 0%nat).
    { destruct l; simplify_eq/=; rewrite Hg in Hst; simpl in Hst; rewrite Hr in Hst;
        destruct i; simplify_eq/=; destruct (exec _ _ _ _ _) as [sp|]; simplify_eq/=;
        eauto. }
    destruct Hstep as (sp & Hexec & -> & ->). clear Helse Hst.
    destruct Hp as [->|[He Hp]].
    + destruct l; simplify_eq/=. unfold expired_at. simpl.
      rewrite !list_lookup_alter_eq, Hn, Hg, Hh. simpl.
      eexists _, _, _. split_and!; try done. unfold expired. simpl. rewrite Hr. simpl.
      split_and!; try done. eexists. split; [done|]. right. done.
    + destruct (expired_pc_cases p Hp) as [->|[(rest & ->)|[(c & rest & ->)|[->| ->]]]];
        [| destruct rest | | |]; exec_inv Hexec; unfold expired_at; simpl.
      all: try (unfold Succeeded, Failed in *; congruence).
      all: repeat first
           [ rewrite list_lookup_alter_eq
           | rewrite list_lookup_alter_ne by done
           | match goal with
             | |- context [alter _ ?c _ !! ?kk] => destruct (decide (c = kk)) as [->|]
             end ].
      all: rewrite ?Hn, ?Hg, ?Hh; simpl.
      all: try (unfold Waiting, Failed in *; simplify_eq; congruence).
      all: eexists _, _, _; split_and!; try done.
      all: unfold expired; simpl; rewrite ?Hr; simpl; split_and!; try done.
      all: try (simplify_eq; done).
      all: eexists; split; [done|]; right; split; try done.
      all: try (simplify_eq; done).
      all: case_match; done.
  - destruct (decide (k0 = k)) as [->|Hne];
      [|apply Helse; intros ? [= <-]; by right].
    destruct l; simplify_eq/=; rewrite Hg in Hst; simpl in Hst; rewrite Hin in Hst;
      done.
  - destruct (decide (k0 = k)) as [->|Hne];
      [|apply Helse; intros ? [= <-]; by right].
    assert (Hstep : ∃ q sp, users g !! i = Some q ∧ exec d s k q l = Some sp
                            ∧ s' = set_pc (GUser k i) sp.2 sp.1).
    { destruct l; simplify_eq/=; rewrite Hg in Hst; simpl in Hst;
        destruct (users g !! i) as [q|]; simplify_eq/=;
        destruct (exec _ _ _ _ _) as [sp|] eqn:Hsp; simplify_eq/=;
        eexists _, _; split_and!; done. }
    destruct Hstep as (q & sp & Hq & Hexec & ->). clear Helse Hst.
    assert (Hu : user_inv q).
    { destruct (inv_lookups_gor d s k g Hinv Hg) as (m & ? & ? & _ & _ & _ & Hni).
      destruct Hni as (_ & _ & _ & _ & _ & _ & _ & Hu).
      by apply (Forall_lookup_1 _ _ _ _ Hu) in Hq. }
    destruct q; try done; exec_inv Hexec; unfold expired_at; simpl.
    all: rewrite ?list_lookup_alter_eq, ?Hn, ?Hg, ?Hh; simpl.
    all: try (unfold Running, Failed in *; congruence).
    all: eexists _, _, _; split_and!; try done.
    all: unfold expired; simpl; split_and!; try done.
    all: try (exists p; split; [done|]; destruct Hp as [?|[? ?]]; [by left|by right]).
Qed.

Lemma expired_run_trace d tr s s' k :
  wf_dag d → inv d s → expired_at s k → run_trace d tr s = Some s' →
  inv d s' ∧ expired_at s' k.
Proof.
  intros Hwf. revert s. induction tr as [|l tr IH]; intros s Hinv Hex Hrun; simpl in Hrun.
  - by simplify_eq.
  - destruct (step d s l) as [s1|] eqn:Hs; [|done].
    eapply IH; [| |done].
    + by eapply inv_step.
    + by eapply expired_step.
Qed.

(** C5: when the worker of a node with a positive total timeout begins
    ([run] is at its first statement) strictly after [t0 + totalTimeout],
    its first step moves the status from Running to Failed; from then on,
    whatever the schedule, the status stays Failed, the error stored is the
    timeout error as soon as [fail] has returned, the processor is never
    invoked, the attempts counter stays 0, no strong child is notified,
    [run] is never blocked, and when [run] has returned every weak child
    has been notified. *)
Theorem expired_total_timeout_fails_node d s k m g :
  wf_dag d → reachable d s →
  dag_metaNodes d !! k = Some m → gor s !! k = Some g → runs g = [Run] →
  0 < totalTimeout m →
  Go.After (now s) (Go.Add (t0 s) (totalTimeout m)) = true →
  ∃ s1,
    step d s (Step (GRun k 0)) = Some s1
    ∧ (∃ nd nd1, nodes s !! k = Some nd ∧ status nd = Running
                 ∧ nodes s1 !! k = Some nd1 ∧ status nd1 = Failed)
    ∧ ∀ tr s2, run_trace d tr s1 = Some s2 →
        ∃ nd2 hs2 g2,
          nodes s2 !! k = Some nd2 ∧ hist s2 !! k = Some hs2 ∧ gor s2 !! k = Some g2
          ∧ status nd2 = Failed ∧ attempts nd2 = 0
          ∧ invoked hs2 = 0%nat ∧ strongSent hs2 = 0%nat
          ∧ (err nd2 = Some TimeoutErr ∨ runs g2 = [FailErr TimeoutErr Notify])
          ∧ (runs g2 = [RunReturned] → weakSent hs2 = length (weakChildren m))
          ∧ (runs g2 ≠ [RunReturned] → is_Some (step d s2 (Step (GRun k 0)))).
Proof.
  intros Hwf Hreach Hm Hg Hr Ht Hafter.
  pose proof (inv_reachable d s Hwf Hreach) as Hinv.
  destruct (inv_lookups_gor d s k g Hinv Hg) as (m' & nd & hs & ? & Hn & Hh & Hni).
  simplify_eq.
  destruct Hni as (I1 & _). unfold runs_inv in I1. rewrite Hr in I1.
  destruct I1 as (_ & Hrun & Hpr & Hin).
  unfold pristine in Hpr. destruct_and?.
  assert (Hlt : (0 <? totalTimeout m) = true) by by apply Z.ltb_lt.
  assert (Hrn : (status nd =? Running) = true) by by apply Z.eqb_eq.
  set (s1 := set_pc (GRun k 0) (FailErr TimeoutErr Notify)
                    (on_node k (set_status Failed) s)).
  assert (Hs1 : step d s (Step (GRun k 0)) = Some s1).
  { simpl. rewrite Hg. simpl. rewrite Hr. simpl. rewrite Hn, Hm. simpl.
    rewrite Hlt, Hafter, Hrn. simpl. reflexivity. }
  exists s1. split; [done|].
  assert (Hinv1 : inv d s1) by by eapply inv_step.
  assert (Hex1 : expired_at s1 k).
  { subst s1. unfold expired_at. simpl.
    rewrite !list_lookup_alter_eq, Hn, Hh, Hg. simpl.
    eexists _, _, _. split_and!; try done.
    unfold expired. simpl. rewrite Hr. simpl. split_and!; try done.
    eexists. split; [done|]. by left. }
  split.
  { exists nd, (set_status Failed nd). subst s1. simpl.
    rewrite list_lookup_alter_eq, Hn. done. }
  intros tr s2 Hrun2.
  destruct (expired_run_trace d tr s1 s2 k Hwf Hinv1 Hex1 Hrun2) as [Hinv2 Hex2].
  destruct Hex2 as (nd2 & hs2 & g2 & Hn2 & Hh2 & Hg2 & Hex2).
  destruct Hex2 as (Hs & Ha & Hi & Hss & Hin2 & Hd & Hb & p & Hr2 & Hp).
  exists nd2, hs2, g2. split_and!; try done.
  - destruct Hp as [->|[? _]]; auto.
  - intros E. rewrite Hr2 in E. simplify_eq.
    pose proof (inv_node d s2 Hinv2 k m nd2 hs2 g2 Hm Hn2 Hh2 Hg2) as (I1 & _).
    unfold runs_inv in I1. rewrite Hr2 in I1. by destruct I1 as (_ & ? & _).
  - intros Hne.
    pose proof (inv_node d s2 Hinv2 k m nd2 hs2 g2 Hm Hn2 Hh2 Hg2) as (I1 & _).
    unfold runs_inv in I1. rewrite Hr2 in I1. destruct I1 as [_ I1].
    simpl. rewrite Hg2. simpl. rewrite Hr2. simpl.
    destruct Hp as [->|[_ Hp]]; [by eexists|].
    destruct (expired_pc_cases p Hp) as [->|[(rest & ->)|[(c & rest & ->)|[->| ->]]]];
      simpl; rewrite ?Hn2, ?Hm; simpl.
    + destruct (status nd2 =? Succeeded); by eexists.
    + destruct rest as [|c rest]; [by eexists|].
      simpl in I1. destruct I1 as (Hd' & _).
      apply drop_cons_lookup in Hd' as (Hl & _ & _).
      assert (Hc : (c < length (dag_metaNodes d))%nat).
      { eapply wf_children; [done..|]. apply elem_of_app. right.
        by eapply list_elem_of_lookup_2. }
      destruct (inv_lookups d s2 c Hinv2 Hc) as (mc & ndc & ? & ? & Hmc & Hnc & _).
      unfold onDepDone. rewrite Hnc, Hmc. simpl. by eexists.
    + destruct I1 as [_ (mc & ndc & _ & Hnc & _)]. rewrite Hnc. simpl.
      destruct (status ndc =? Waiting); by eexists.
    + by eexists.
    + by rewrite Hr2 in Hne.
Qed.

Lemma expired_total_timeout_fails_node_witness :
  is_Some (step Scenarios.chain_dag
             (Scenarios.run_of Scenarios.chain_dag Go.unixEpoch Scenarios.chain_trace_start)
             (Step (GRun 0 0))).
Proof.
  destruct (expired_total_timeout_fails_node Scenarios.chain_dag
              (Scenarios.run_of Scenarios.chain_dag Go.unixEpoch Scenarios.chain_trace_start)
              0%nat
              (default (newNodeMetadata emptyNode)
                       (dag_metaNodes Scenarios.chain_dag !! 0%nat))
              (mkGor [Run] [] []))
    as (s1 & Hs1 & _).
  - apply wf_dagb_ok. vm_compute. reflexivity.
  - exists Go.unixEpoch, Scenarios.chain_trace_start. vm_compute. reflexivity.
  - vm_compute. reflexivity.
  - vm_compute. reflexivity.
  - reflexivity.
  - vm_compute. reflexivity.
  - vm_compute. reflexivity.
  - exists s1. exact Hs1.
Defined.

(** ** [DoIfRunning] *)

(** The body of a [DoIfRunning] call starts only while the status is
    Running: a step changes the number of bodies started by the user, and
    the attempts counter (which [processWithRetry] increments in such a
    body), only then; and the record of the timeout is never erased. *)
Lemma step_guarded d s l s' k nd hs :
  step d s l = Some s' → nodes s !! k = Some nd → hist s !! k = Some hs →
  ∃ nd' hs',
    nodes s' !! k = Some nd' ∧ hist s' !! k = Some hs'
    ∧ (timedOut hs = true → timedOut hs' = true)
    ∧ (status nd ≠ Running → fnRuns hs' = fnRuns hs ∧ attempts nd' = attempts nd).
Proof.
  intros Hst Hn Hh.
  assert (Hcase : ∀ g0 p sp,
            exec d s (gid_node g0) p l = Some sp →
            ∃ nd' hs',
              nodes (set_pc g0 sp.2 sp.1) !! k = Some nd'
              ∧ hist (set_pc g0 sp.2 sp.1) !! k = Some hs'
              ∧ (timedOut hs = true → timedOut hs' = true)
              ∧ (status nd ≠ Running → fnRuns hs' = fnRuns hs ∧ attempts nd' = attempts nd)).
  { intros g0 p sp Hex.
    assert (Hset : ∀ q s1, nodes (set_pc g0 q s1) = nodes s1
                          ∧ hist (set_pc g0 q s1) = hist s1).
    { intros q s1. destruct g0; done. }
    destruct (Hset sp.2 sp.1) as (-> & ->). clear Hset.
    revert Hex. generalize (gid_node g0) as k0. intros k0 Hex.
    destruct p; exec_inv Hex; simpl.
    all: repeat first
         [ rewrite list_lookup_alter_eq
         | rewrite list_lookup_alter_ne by done
         | match goal with
           | |- context [alter _ ?c _ !! ?kk] => destruct (decide (c = kk)) as [->|]
           end ].
    all: rewrite ?Hn, ?Hh; simpl.
    all: eexists _, _; split_and!; try done; simpl.
    all: try (intros ?; simplify_eq; done).
    all: try (intros ?; simplify_eq; split; congruence). }
  destruct l as [dt|n|g0|g0 o|g0]; simpl in Hst.
  - destruct (0 <? dt); simplify_eq/=. eexists _, _; split_and!; eauto.
  - destruct (decide _); simplify_eq/=. eexists _, _; split_and!; eauto.
  - destruct (get_pc s g0) as [p|] eqn:Hp; [|done]. simpl in Hst.
    destruct (exec d s (gid_node g0) p _) as [sp|] eqn:Hex; [|done]. simplify_eq/=.
    eapply Hcase; eauto.
  - destruct (get_pc s g0) as [p|] eqn:Hp; [|done]. simpl in Hst.
    destruct (exec d s (gid_node g0) p _) as [sp|] eqn:Hex; [|done]. simplify_eq/=.
    eapply Hcase; eauto.
  - destruct (get_pc s g0) as [p|] eqn:Hp; [|done]. simpl in Hst.
    destruct (exec d s (gid_node g0) p _) as [sp|] eqn:Hex; [|done]. simplify_eq/=.
    eapply Hcase; eauto.
Qed.

Lemma sum_list_with_insert {A} (f : A → nat) (l : list A) i x y :
  l !! i = Some x →
  (sum_list_with f (<[i:=y]> l) + f x = sum_list_with f l + f y)%nat.
Proof.
  revert i. induction l as [|a l IH]; intros [|i] H; simplify_eq/=; [lia|].
  specialize (IH i H). lia.
Qed.

Lemma holders_split f g :
  holders f g
  = (sum_list_with f (runs g) + sum_list_with f (inners g)
     + sum_list_with f (users g))%nat.
Proof. unfold holders. rewrite !sum_list_with_app. lia. Qed.

Lemma rd_zero_no_fn l : sum_list_with rd l = 0%nat → UserFn ∉ l.
Proof.
  induction l as [|p l IH]; simpl; intros H.
  - apply not_elem_of_nil.
  - apply not_elem_of_cons. split.
    + intros <-. simpl in H. lia.
    + apply IH. lia.
Qed.

(** The effect on the lock of node [k] of a step of one of its own
    goroutines, at a program point [p] from which the goroutine returns
    from [fail] and [start] to where the invariant says. *)
Lemma exec_lock d s k p l sp nd hs g :
  exec d s k p l = Some sp →
  nodes s !! k = Some nd → hist s !! k = Some hs → gor s !! k = Some g →
  (∀ e kont, p = FailErr e kont →
     kont = Notify ∨ kont = TimeoutUnlock ∨ kont = InnerReturned) →
  (∀ c kont, p = StartCas c kont → rd kont = 0%nat ∧ wr kont = 0%nat) →
  (timedOut hs = false ∨ status nd ≠ Running) →
  (rd p ≤ readers nd)%nat →
  (writer nd = true → readers nd = 0%nat) →
  (wr p = 1%nat → writer nd = true) →
  ∃ nd' hs' g',
    nodes sp.1 !! k = Some nd' ∧ hist sp.1 !! k = Some hs' ∧ gor sp.1 !! k = Some g'
    ∧ (readers nd' + rd p = readers nd + rd sp.2)%nat
    ∧ (b2n (writer nd') + wr p = b2n (writer nd) + wr sp.2)%nat
    ∧ (writer nd' = true → readers nd' = 0%nat)
    ∧ holders rd g' = holders rd g ∧ holders wr g' = holders wr g
    ∧ users g' = users g
    ∧ (length (runs g) ≤ length (runs g'))%nat
    ∧ (length (inners g) ≤ length (inners g'))%nat
    ∧ (∀ i, (i < length (runs g))%nat → runs g' !! i = runs g !! i)
    ∧ (∀ i, (i < length (inners g))%nat → inners g' !! i = inners g !! i)
    ∧ (timedOut hs' = true → timedOut hs = true ∨ p = TimeoutFail)
    ∧ (sp.2 = UserFn → timedOut hs' = false).
Proof.
  intros Hex Hn Hh Hg Hfail Hstart Hto Hrd Hwr Hw1.
  destruct p; try (destruct (Hfail _ _ eq_refl) as [->|[->| ->]]);
    try (destruct (Hstart _ _ eq_refl) as [Hk1 Hk2]); clear Hfail Hstart;
    exec_inv Hex; simpl in *.
  all: repeat first
       [ rewrite list_lookup_alter_eq
       | rewrite list_lookup_alter_ne by done
       | match goal with
         | |- context [alter _ ?c _ !! ?kk] => destruct (decide (c = kk)) as [->|]
         end ].
  all: rewrite ?Hn, ?Hh, ?Hg; simpl.
  all: eexists _, _, _; split_and!; try reflexivity; simpl.
  all: rewrite ?holders_split; simpl; rewrite ?sum_list_with_app; simpl.
  all: rewrite ?length_app; simpl.
  all: try (intros; rewrite lookup_app_l by done; done).
  all: try (destruct (writer nd); simpl in *; lia).
  all: try (intros; destruct (writer nd); simpl in *; first [lia|done|auto]).
  all: try (intros; first [lia|done|auto; fail]).
  all: try (destruct ok; simpl; lia).
  all: try (repeat case_match; simpl in *; first [lia|done|auto; fail]).
  all: try (intros; destruct Hto; [congruence|done]).
  all: try (intros; subst; simpl in *; done).
  all: try (intros; repeat match goal with w : who |- _ => destruct w end;
            simpl in *; first [lia | done | congruence]).
Qed.

Lemma sum_list_with_lookup_le {A} (f : A → nat) (l : list A) i x :
  l !! i = Some x → (f x ≤ sum_list_with f l)%nat.
Proof.
  revert i. induction l as [|a l IH]; intros [|i] H; simplify_eq/=; [lia|].
  specialize (IH i H). lia.
Qed.

Lemma not_elem_of_insert {A} (l : list A) i x y :
  x ∉ l → y ≠ x → x ∉ <[i:=y]> l.
Proof.
  revert i. induction l as [|a l IH]; intros i Hx Hy; [done|].
  apply not_elem_of_cons in Hx as [? ?].
  destruct i; simpl; apply not_elem_of_cons; split; auto.
Qed.

(** Where a goroutine of a node returns to from [fail] and [start]. *)
Lemma pc_returns d s k m nd hs g p :
  node_inv d s k m nd hs g →
  p ∈ runs g ++ inners g ++ users g →
  (∀ e kont, p = FailErr e kont →
     kont = Notify ∨ kont = TimeoutUnlock ∨ kont = InnerReturned)
  ∧ (∀ c kont, p = StartCas c kont → rd kont = 0%nat ∧ wr kont = 0%nat).
Proof.
  intros (I1 & I2 & _ & _ & _ & _ & _ & I8) Hp.
  apply elem_of_app in Hp as [Hp|Hp]; [|apply elem_of_app in Hp as [Hp|Hp]].
  - unfold runs_inv in I1. destruct (runs g) as [|q [|]]; try done.
    + by apply elem_of_nil in Hp.
    + apply list_elem_of_singleton in Hp as ->. destruct I1 as [_ I1].
      split.
      * intros e kont ->. simpl in I1. destruct I1 as (_ & _ & [->| ->]); auto.
      * intros c kont ->. simpl in I1. destruct I1 as [I1 _].
        destruct kont; done.
  - unfold inners_inv in I2. destruct (inners g) as [|q [|]]; try done.
    + by apply elem_of_nil in Hp.
    + apply list_elem_of_singleton in Hp as ->.
      split.
      * intros e kont ->. simpl in I2. destruct I2 as [_ ->]. auto.
      * intros c kont ->. done.
  - rewrite Forall_forall in I8. specialize (I8 p Hp).
    split; intros ? ? ->; done.
Qed.

(** One step of a goroutine of node [k], seen from node [k]. *)
Lemma guard_own d s l k m nd hs g p sp nd' hs' g' :
  node_inv d s k m nd hs g → guard_inv nd hs g →
  nodes s !! k = Some nd → hist s !! k = Some hs → gor s !! k = Some g →
  p ∈ runs g ++ inners g ++ users g →
  exec d s k p l = Some sp →
  nodes sp.1 !! k = Some nd' → hist sp.1 !! k = Some hs' → gor sp.1 !! k = Some g' →
  (readers nd' + rd p = holders rd g' + rd sp.2)%nat
  ∧ (b2n (writer nd') + wr p = holders wr g' + wr sp.2)%nat
  ∧ (writer nd' = true → readers nd' = 0%nat)
  ∧ users g' = users g
  ∧ (∀ i, (i < length (runs g))%nat → runs g' !! i = runs g !! i)
  ∧ (∀ i, (i < length (inners g))%nat → inners g' !! i = inners g !! i)
  ∧ (timedOut hs' = true → (UserFn ∉ users g) ∧ sp.2 ≠ UserFn).
Proof.
  intros Hni [(L1 & L2 & L3) Hq] Hn Hh Hg Hp Hex Hn' Hh' Hg'.
  destruct (pc_returns d s k m nd hs g p Hni Hp) as [Hfail Hstart].
  assert (Hle : ∀ f, (f p ≤ holders f g)%nat).
  { intros f. apply list_elem_of_lookup in Hp as [i Hi].
    by apply (sum_list_with_lookup_le f) in Hi. }
  assert (Hto : timedOut hs = false ∨ status nd ≠ Running).
  { destruct Hni as (_ & _ & (_ & _ & Ht & _) & _).
    destruct (timedOut hs); [right|by left].
    rewrite Ht by done. done. }
  assert (Hw1 : wr p = 1%nat → writer nd = true).
  { intros E. specialize (Hle wr). rewrite L2, E in Hle.
    destruct (writer nd); [done|simpl in Hle; lia]. }
  destruct (exec_lock d s k p l sp nd hs g Hex Hn Hh Hg Hfail Hstart Hto)
    as (nd1 & hs1 & g1 & ? & ? & ? & E1 & E2 & E3 & E4 & E5 & E6 & _ & _ & E9 & E10 & E11 & E12);
    try done.
  { rewrite L1. apply Hle. }
  simplify_eq. split_and!; try done; try lia.
  intros Ht. split.
  - destruct (E11 Ht) as [Ht0| ->]; [by apply Hq|].
    apply rd_zero_no_fn.
    assert (readers nd = 0%nat) as E0.
    { apply L3, Hw1. done. }
    rewrite E0, holders_split in L1. lia.
  - intros E. specialize (E12 E). congruence.
Qed.

Lemma guards_step d s l s' :
  wf_dag d → inv d s → guards_ok s → step d s l = Some s' → guards_ok s'.
Proof.
  intros Hwf Hinv Hgd Hst k nd' hs' g' Hn' Hh' Hg'.
  pose proof (inv_step d s l s' Hwf Hinv Hst) as Hinv'.
  assert (Hk : (k < length (dag_metaNodes d))%nat).
  { apply lookup_lt_Some in Hn'. by rewrite <- (inv_nodes _ _ Hinv'). }
  destruct (inv_lookups d s k Hinv Hk) as (m & nd & hs & g & Hm & Hn & Hh & Hg & Hni).
  pose proof (Hgd k nd hs g Hn Hh Hg) as Hgk.
  assert (Helse : (∀ g0, label_gid l = Some g0 → g0 = GMain ∨ gid_node g0 ≠ k) →
                  guard_inv nd' hs' g').
  { intros Hl.
    destruct (step_elsewhere d s l s' k nd hs g (inv_main d s Hinv) Hst Hl Hn Hh Hg)
      as (nd2 & g2 & ? & ? & ? & Hcore & Hin & Hus & Hrun).
    simplify_eq.
    destruct Hcore as (_ & _ & _ & Er & Ew & _).
    destruct Hgk as [(L1 & L2 & L3) Hq].
    assert (Hhold : ∀ f, f Run = 0%nat → f UserRLock = 0%nat →
                      holders f g' = holders f g).
    { intros f F1 F2. rewrite !holders_split, Hin.
      destruct Hus as [-> | ->];
        destruct Hrun as [[_ ->]|(_ & _ & ->)];
        rewrite ?sum_list_with_app; simpl; lia. }
    split; [split_and!|].
    - rewrite Er, L1, Hhold; done.
    - rewrite Ew, Hhold; done.
    - rewrite Er, Ew. done.
    - intros Ht. specialize (Hq Ht).
      destruct Hus as [-> | ->]; [done|].
      apply not_elem_of_app. split; [done|].
      apply not_elem_of_cons. split; [done|apply not_elem_of_nil]. }
  assert (Hown : ∀ g0 p,
            g0 ≠ GMain → gid_node g0 = k → label_gid l = Some g0 →
            get_pc s g0 = Some p →
            p ∈ runs g ++ inners g ++ users g →
            (∀ q h, gor (set_pc g0 q h) !! k
                    = (λ gs, match g0 with
                             | GRun _ j => mkGor (<[j:=q]> (runs gs)) (inners gs) (users gs)
                             | GInner _ j => mkGor (runs gs) (<[j:=q]> (inners gs)) (users gs)
                             | GUser _ j => mkGor (runs gs) (inners gs) (<[j:=q]> (users gs))
                             | GMain => gs
                             end) <$> gor h !! k) →
            guard_inv nd' hs' g').
  { intros g0 p Hnm Hk0 Hl Hp Hin Hset.
    assert (Hex : ∃ sp, exec d s k p l = Some sp ∧ s' = set_pc g0 sp.2 sp.1).
    { destruct l; simplify_eq/=; rewrite Hp in Hst; simpl in Hst;
        destruct (exec _ _ _ _ _) as [sp|]; simplify_eq/=; eauto. }
    destruct Hex as (sp & Hex & ->).
    assert (Hsame : nodes (set_pc g0 sp.2 sp.1) = nodes sp.1
                    ∧ hist (set_pc g0 sp.2 sp.1) = hist sp.1).
    { by destruct g0. }
    destruct Hsame as [En Eh]. rewrite En in Hn'. rewrite Eh in Hh'.
    rewrite Hset in Hg'.
    destruct (gor sp.1 !! k) as [g1|] eqn:Hg1; [|done]. simpl in Hg'.
    destruct (guard_own d s l k m nd hs g p sp nd' hs' g1 Hni Hgk Hn Hh Hg Hin Hex
                Hn' Hh' Hg1) as (E1 & E2 & E3 & E4 & E5 & E6 & E7).
    destruct g0 as [|k0 j|k0 j|k0 j]; simpl in *; try done; simplify_eq.
    all: rewrite Hg in Hp; simpl in Hp.
    all: unfold guard_inv, lock_inv; rewrite !holders_split; simpl.
    all: rewrite holders_split in E1, E2.
    - assert (runs g1 !! j = Some p).
      { rewrite E5; [done|]. by apply lookup_lt_Some in Hp. }
      pose proof (sum_list_with_insert rd (runs g1) j p sp.2 H).
      pose proof (sum_list_with_insert wr (runs g1) j p sp.2 H).
      split_and!; try done; try lia.
      intros Ht. rewrite E4. by apply E7.
    - assert (inners g1 !! j = Some p).
      { rewrite E6; [done|]. by apply lookup_lt_Some in Hp. }
      pose proof (sum_list_with_insert rd (inners g1) j p sp.2 H).
      pose proof (sum_list_with_insert wr (inners g1) j p sp.2 H).
      split_and!; try done; try lia.
      intros Ht. rewrite E4. by apply E7.
    - assert (users g1 !! j = Some p) by by rewrite E4.
      pose proof (sum_list_with_insert rd (users g1) j p sp.2 H).
      pose proof (sum_list_with_insert wr (users g1) j p sp.2 H).
      split_and!; try done; try lia.
      intros Ht. rewrite E4. destruct (E7 Ht).
      by apply not_elem_of_insert. }
  destruct (label_gid l) as [g0|] eqn:El; [|apply Helse; intros ?; done].
  assert (Hd : (g0 = GMain ∨ gid_node g0 ≠ k) ∨ (g0 ≠ GMain ∧ gid_node g0 = k)).
  { destruct g0 as [|k0 j|k0 j|k0 j]; simpl; [by left; left|..];
      (destruct (decide (k0 = k)); [right|left; right]; done). }
  destruct Hd as [Hd|[Hnm Hk0]].
  { apply Helse. intros ? [= <-]. done. }
  assert (Hp : ∃ p, get_pc s g0 = Some p).
  { destruct l; simplify_eq/=; destruct (get_pc s g0); simplify_eq/=; eauto. }
  destruct Hp as [p Hp].
  apply (Hown g0 p Hnm Hk0 eq_refl Hp).
  - destruct g0 as [|k0 j|k0 j|k0 j]; simpl in *; try done; subst k0;
      rewrite Hg in Hp; simpl in Hp; apply list_elem_of_lookup_2 in Hp;
      rewrite !elem_of_app; auto.
  - intros q h. destruct g0 as [|k0 j|k0 j|k0 j]; simpl in *; try done; subst k0;
      by rewrite list_lookup_alter_eq.
Qed.

Lemma guards_init d t : guards_ok (init d t).
Proof.
  intros k nd hs g Hn Hh Hg. simpl in *.
  apply lookup_replicate in Hn as [-> _].
  apply lookup_replicate in Hh as [-> _].
  apply lookup_replicate in Hg as [-> _].
  split; [by split_and!|done].
Qed.

Lemma guards_run_trace d tr s s' :
  wf_dag d → inv d s → guards_ok s → run_trace d tr s = Some s' → guards_ok s'.
Proof.
  intros Hwf. revert s. induction tr as [|l tr IH]; intros s Hinv Hgd Hrun; simpl in Hrun.
  - by simplify_eq.
  - destruct (step d s l) as [s1|] eqn:Hs; [|done].
    eapply IH; [| |done].
    + by eapply inv_step.
    + by eapply guards_step.
Qed.

Lemma guards_reachable d s : wf_dag d → reachable d s → guards_ok s.
Proof.
  intros Hwf (t & tr & Hrun).
  eapply guards_run_trace; [done| | |done].
  - by apply inv_init.
  - apply guards_init.
Qed.

Lemma run_trace_app d tr1 tr2 s :
  run_trace d (tr1 ++ tr2) s = run_trace d tr1 s ≫= run_trace d tr2.
Proof.
  revert s. induction tr1 as [|l tr1 IH]; intros s; simpl; [done|].
  destruct (step d s l); [apply IH|done].
Qed.

Lemma reachable_run_trace d tr s s' :
  reachable d s → run_trace d tr s = Some s' → reachable d s'.
Proof.
  intros (t & tr0 & H0) H. exists t, (tr0 ++ tr).
  rewrite run_trace_app, H0. done.
Qed.

(** Once the deadline branch has made a node fail, no body of a
    [DoIfRunning] call on it starts, whatever the schedule. *)
Lemma timed_out_stable d tr s s' k nd hs :
  wf_dag d → inv d s →
  nodes s !! k = Some nd → hist s !! k = Some hs → timedOut hs = true →
  run_trace d tr s = Some s' →
  ∃ nd' hs', nodes s' !! k = Some nd' ∧ hist s' !! k = Some hs'
             ∧ timedOut hs' = true ∧ fnRuns hs' = fnRuns hs
             ∧ attempts nd' = attempts nd.
Proof.
  intros Hwf. revert s nd hs.
  induction tr as [|l tr IH]; intros s nd hs Hinv Hn Hh Ht Hrun; simpl in Hrun.
  - simplify_eq. eauto 10.
  - destruct (step d s l) as [s1|] eqn:Hs; [|done].
    destruct (step_guarded d s l s1 k nd hs Hs Hn Hh) as (nd1 & hs1 & Hn1 & Hh1 & Ht1 & Hf).
    assert (Hk : (k < length (dag_metaNodes d))%nat).
    { apply lookup_lt_Some in Hn. by rewrite <- (inv_nodes _ _ Hinv). }
    destruct (inv_lookups d s k Hinv Hk) as (m & ? & ? & g & Hm & ? & ? & Hg & Hni).
    simplify_eq.
    assert (Hnr : status nd ≠ Running).
    { destruct Hni as (_ & _ & (_ & _ & Hto & _) & _). rewrite Hto by done. done. }
    destruct (Hf Hnr) as [E1 E2].
    destruct (IH s1 nd1 hs1) as (nd' & hs' & ? & ? & ? & ? & ?); auto.
    { by eapply inv_step. }
    exists nd', hs'. split_and!; try done; congruence.
Qed.

(** C2: in every state of every run, the lock of a node is held as its
    goroutines say (readers are the goroutines inside a [DoIfRunning]
    call, the writer is the deadline branch, and never both); a
    [DoIfRunning] call of the user that is at its guarded check starts
    [fn] and will return true if the status is Running, and skips [fn] and
    will return false otherwise; the deadline branch is about to flip the
    status only while it holds the write side and no [fn] is executing;
    and once it has flipped the status, the status is Failed, no [fn] is
    executing, and on every continuation of the run no [fn] is started
    (nor is the attempts counter incremented) any more. *)
Theorem do_if_running_guard d s k nd hs g :
  wf_dag d → reachable d s →
  nodes s !! k = Some nd → hist s !! k = Some hs → gor s !! k = Some g →
  lock_inv nd g
  ∧ (∀ i, users g !! i = Some UserCheck →
       ∃ s' hs' g',
         step d s (Step (GUser k i)) = Some s'
         ∧ hist s' !! k = Some hs' ∧ gor s' !! k = Some g'
         ∧ (status nd = Running →
            users g' !! i = Some UserFn ∧ fnRuns hs' = S (fnRuns hs))
         ∧ (status nd ≠ Running →
            users g' !! i = Some (UserRUnlock false) ∧ fnRuns hs' = fnRuns hs))
  ∧ (∀ i, users g !! i = Some UserFn →
       ∃ s' g', step d s (Step (GUser k i)) = Some s' ∧ gor s' !! k = Some g'
                ∧ users g' !! i = Some (UserRUnlock true))
  ∧ (∀ i ok, users g !! i = Some (UserRUnlock ok) →
       ∃ s' g', step d s (Step (GUser k i)) = Some s' ∧ gor s' !! k = Some g'
                ∧ users g' !! i = Some (UserReturned ok))
  ∧ (TimeoutFail ∈ runs g →
       writer nd = true ∧ readers nd = 0%nat
       ∧ ∀ p, p ∈ users g → p ≠ UserCheck ∧ p ≠ UserFn)
  ∧ (timedOut hs = true →
       status nd = Failed ∧ (UserFn ∉ users g)
       ∧ ∀ tr s', run_trace d tr s = Some s' →
           ∃ nd' hs' g',
             nodes s' !! k = Some nd' ∧ hist s' !! k = Some hs'
             ∧ gor s' !! k = Some g'
             ∧ status nd' = Failed ∧ timedOut hs' = true
             ∧ fnRuns hs' = fnRuns hs ∧ attempts nd' = attempts nd
             ∧ (UserFn ∉ users g')).
Proof.
  intros Hwf Hreach Hn Hh Hg.
  pose proof (inv_reachable d s Hwf Hreach) as Hinv.
  pose proof (guards_reachable d s Hwf Hreach k nd hs g Hn Hh Hg) as [Hlock Hq].
  assert (Hlen : ∀ i p, users g !! i = Some p → (i < length (users g))%nat).
  { intros i p Hp. by apply lookup_lt_Some in Hp. }
  split_and!.
  - done.
  - intros i Hu. simpl. rewrite Hg. simpl. rewrite Hu. simpl. rewrite Hn. simpl.
    destruct (status nd =? Running) eqn:E; bool2prop; simpl.
    + eexists _, _, _. split; [done|]. simpl.
      rewrite !list_lookup_alter_eq, Hh, Hg. simpl.
      split_and!; try done; intros ?; try done;
        (simpl; split; [by rewrite list_lookup_insert_eq by eauto|done]).
    + eexists _, _, _. split; [done|]. simpl.
      rewrite !list_lookup_alter_eq, Hg. simpl.
      split_and!; try done; intros ?; try done;
        (simpl; split; [by rewrite list_lookup_insert_eq by eauto|done]).
  - intros i Hu. simpl. rewrite Hg. simpl. rewrite Hu. simpl.
    eexists _, _. split; [done|]. simpl.
    rewrite !list_lookup_alter_eq, Hg. simpl. split; [done|]. simpl.
    by rewrite list_lookup_insert_eq by eauto.
  - intros i ok Hu. simpl. rewrite Hg. simpl. rewrite Hu. simpl.
    eexists _, _. split; [done|]. simpl.
    rewrite !list_lookup_alter_eq, Hg. simpl. split; [done|]. simpl.
    by rewrite list_lookup_insert_eq by eauto.
  - intros Hin. destruct Hlock as (L1 & L2 & L3).
    assert (Hw : writer nd = true).
    { apply list_elem_of_lookup in Hin as [i Hi].
      pose proof (sum_list_with_lookup_le wr (runs g) i _ Hi) as Hle. simpl in Hle.
      rewrite holders_split in L2. destruct (writer nd); [done|simpl in L2; lia]. }
    specialize (L3 Hw). split_and!; try done.
    intros p Hp. apply list_elem_of_lookup in Hp as [i Hi].
    pose proof (sum_list_with_lookup_le rd (users g) i _ Hi) as Hle.
    rewrite holders_split in L1.
    split; intros ->; simpl in Hle; lia.
  - intros Ht.
    assert (Hfailed : ∀ s', reachable d s' → ∀ nd' hs', nodes s' !! k = Some nd' →
              hist s' !! k = Some hs' → timedOut hs' = true → status nd' = Failed).
    { intros s' Hr' nd' hs' Hn' Hh' Ht'.
      pose proof (inv_reachable d s' Hwf Hr') as Hinv'.
      assert (Hk : (k < length (dag_metaNodes d))%nat).
      { apply lookup_lt_Some in Hn'. by rewrite <- (inv_nodes _ _ Hinv'). }
      destruct (inv_lookups d s' k Hinv' Hk) as (m & ? & ? & g' & Hm & ? & ? & Hg' & Hni).
      simplify_eq. destruct Hni as (_ & _ & (_ & _ & Hto & _) & _). auto. }
    split_and!; [by eapply Hfailed|by apply Hq|].
    intros tr s' Hrun.
    destruct (timed_out_stable d tr s s' k nd hs Hwf Hinv Hn Hh Ht Hrun)
      as (nd' & hs' & Hn' & Hh' & Ht' & Hf' & Ha').
    pose proof (reachable_run_trace d tr s s' Hreach Hrun) as Hr'.
    assert (Hgk : ∃ g', gor s' !! k = Some g') .
    { apply lookup_lt_is_Some_2. rewrite (inv_gor _ _ (inv_reachable d s' Hwf Hr')).
      apply lookup_lt_Some in Hn'.
      by rewrite <- (inv_nodes _ _ (inv_reachable d s' Hwf Hr')). }
    destruct Hgk as [g' Hg'].
    exists nd', hs', g'. split_and!; try done.
    + by eapply Hfailed.
    + by apply (guards_reachable d s' Hwf Hr' k nd' hs' g' Hn' Hh' Hg').
Qed.

Lemma do_if_running_guard_witness :
  status (default newRuntimeNode (nodes Scenarios.timeout_state !! 0%nat)) = Failed.
Proof.
  refine (proj1 (proj2 (proj2 (proj2 (proj2 (proj2
    (do_if_running_guard Scenarios.single_dag Scenarios.timeout_state 0%nat
       (default newRuntimeNode (nodes Scenarios.timeout_state !! 0%nat))
       (default newHistory (hist Scenarios.timeout_state !! 0%nat))
       (default noGoroutines (gor Scenarios.timeout_state !! 0%nat))
       _ _ _ _ _))))) _)).
  - apply wf_dagb_ok. vm_compute. reflexivity.
  - exists Go.unixEpoch, Scenarios.timeout_trace. vm_compute. reflexivity.
  - vm_compute. reflexivity.
  - vm_compute. reflexivity.
  - vm_compute. reflexivity.
  - vm_compute. reflexivity.
Defined.

(** ** Further facts about the runs *)

(** One step changes the status of a node by at most one of the three
    compare-and-swap operations. *)
Lemma step_status_next d s l s' k nd :
  step d s l = Some s' → nodes s !! k = Some nd →
  ∃ nd', nodes s' !! k = Some nd'
         ∧ (status nd' = status nd ∨ st_next (status nd) (status nd')).
Proof.
  intros Hst Hn.
  assert (Hcase : ∀ g0 p sp,
            exec d s (gid_node g0) p l = Some sp →
            ∃ nd', nodes (set_pc g0 sp.2 sp.1) !! k = Some nd'
                   ∧ (status nd' = status nd ∨ st_next (status nd) (status nd'))).
  { intros g0 p sp Hex.
    assert (Hset : ∀ q s1, nodes (set_pc g0 q s1) = nodes s1) by (by destruct g0).
    rewrite Hset. clear Hset.
    revert Hex. generalize (gid_node g0) as k0. intros k0 Hex.
    destruct p; exec_inv Hex; simpl.
    all: repeat first
         [ rewrite list_lookup_alter_eq
         | rewrite list_lookup_alter_ne by done
         | match goal with
           | |- context [alter _ ?c _ !! ?kk] => destruct (decide (c = kk)) as [->|]
           end ].
    all: rewrite ?Hn; simpl.
    all: eexists; split; [done|]; simpl.
    all: try (by left).
    all: simplify_eq; unfold st_next; unfold_status; lia. }
  destruct l as [dt|n|g0|g0 o|g0]; simpl in Hst.
  - destruct (0 <? dt); simplify_eq/=. eexists; split; [done|by left].
  - destruct (decide _); simplify_eq/=. eexists; split; [done|by left].
  - destruct (get_pc s g0) as [p|] eqn:Hp; [|done]. simpl in Hst.
    destruct (exec d s (gid_node g0) p _) as [sp|] eqn:Hex; [|done]. simplify_eq/=.
    eapply Hcase; eauto.
  - destruct (get_pc s g0) as [p|] eqn:Hp; [|done]. simpl in Hst.
    destruct (exec d s (gid_node g0) p _) as [sp|] eqn:Hex; [|done]. simplify_eq/=.
    eapply Hcase; eauto.
  - destruct (get_pc s g0) as [p|] eqn:Hp; [|done]. simpl in Hst.
    destruct (exec d s (gid_node g0) p _) as [sp|] eqn:Hex; [|done]. simplify_eq/=.
    eapply Hcase; eauto.
Qed.

(** The compare-and-swap operations of [start], [success] and [fail]:
    from every state, a step of any goroutine leaves the status of a node
    alone or moves it from Waiting to Running, from Running to Succeeded
    or from Running to Failed, and does nothing else to it; so along
    every schedule the status follows the chain Waiting, Running, then
    Succeeded or Failed, and a node that is Succeeded or Failed keeps its
    status for ever. *)
Theorem status_moves_forward d tr s s' k nd :
  run_trace d tr s = Some s' → nodes s !! k = Some nd →
  ∃ nd', nodes s' !! k = Some nd'
         ∧ st_reach (status nd) (status nd')
         ∧ (∀ l, tr = [l] →
              status nd' = status nd ∨ st_next (status nd) (status nd'))
         ∧ (status nd = Succeeded ∨ status nd = Failed → status nd' = status nd).
Proof.
  revert s nd. induction tr as [|l tr IH]; intros s nd Hrun Hn; simpl in Hrun.
  - simplify_eq. exists nd. split_and!; [done|by left|done|done].
  - destruct (step d s l) as [s1|] eqn:Hs; [|done].
    destruct (step_status_next d s l s1 k nd Hs Hn) as (nd1 & Hn1 & H1).
    destruct (IH s1 nd1 Hrun Hn1) as (nd' & Hn' & H2 & _).
    exists nd'. split; [done|].
    assert (Hr : st_reach (status nd) (status nd')).
    { unfold st_reach, st_next in *. unfold_status. lia. }
    split_and!; [done| |].
    + intros l0 [= -> ->]. simpl in Hrun. injection Hrun as <-.
      rewrite Hn1 in Hn'. by injection Hn' as <-.
    + unfold st_reach, st_next in Hr. unfold_status. lia.
Qed.

Lemma status_moves_forward_witness :
  ∃ nd', nodes Scenarios.fan_state !! 1%nat = Some nd' ∧ status nd' = Failed.
Proof.
  destruct (status_moves_forward Scenarios.fan_dag
              (drop 15 Scenarios.fan_trace)
              (Scenarios.run_of Scenarios.fan_dag Go.unixEpoch (take 15 Scenarios.fan_trace))
              Scenarios.fan_state 1%nat
              (default newRuntimeNode
                 (nodes (Scenarios.run_of Scenarios.fan_dag Go.unixEpoch
                           (take 15 Scenarios.fan_trace)) !! 1%nat)))
    as (nd' & Hn' & _ & _ & Hf).
  - vm_compute. reflexivity.
  - vm_compute. reflexivity.
  - exists nd'. split; [exact Hn'|]. rewrite Hf; [vm_compute; reflexivity|].
    right. vm_compute. reflexivity.
Defined.

(** [fail] is the only place that assigns [node.err], after its
    compare-and-swap succeeded: in every state of every run a node that
    holds an error is Failed, so a node that is Waiting, Running or
    Succeeded holds the nil error; and a node on which the deadline branch
    of [processWithTimeout] won is Failed. *)
Theorem error_only_when_failed d s k nd hs :
  wf_dag d → reachable d s →
  nodes s !! k = Some nd → hist s !! k = Some hs →
  (err nd ≠ None → status nd = Failed)
  ∧ (status nd ≠ Failed → err nd = None)
  ∧ (timedOut hs = true → status nd = Failed).
Proof.
  intros Hwf Hreach Hn Hh.
  pose proof (inv_reachable d s Hwf Hreach) as Hinv.
  assert (Hk : (k < length (dag_metaNodes d))%nat).
  { apply lookup_lt_Some in Hn. by rewrite <- (inv_nodes _ _ Hinv). }
  destruct (inv_lookups d s k Hinv Hk) as (m & ? & ? & g & Hm & ? & ? & Hg & Hni).
  simplify_eq. destruct Hni as (_ & _ & (_ & He & Ht & _) & _).
  split_and!; try done.
  intros Hnf. destruct (err nd) as [e|] eqn:E; [|done].
  exfalso. apply Hnf, He. done.
Qed.

Lemma error_only_when_failed_witness :
  status (default newRuntimeNode (nodes Scenarios.fan_state !! 1%nat)) = Failed.
Proof.
  refine (proj1 (error_only_when_failed Scenarios.fan_dag Scenarios.fan_state 1%nat
            (default newRuntimeNode (nodes Scenarios.fan_state !! 1%nat))
            (default newHistory (hist Scenarios.fan_state !! 1%nat))
            _ _ _ _) _).
  - apply wf_dagb_ok. vm_compute. reflexivity.
  - exists Go.unixEpoch, Scenarios.fan_trace. vm_compute. reflexivity.
  - vm_compute. reflexivity.
  - vm_compute. reflexivity.
  - vm_compute. discriminate.
Defined.

(** [onDepDone] and [start]: in every state of every run the counter of
    done dependencies of a node is the number of [onDepDone] calls its
    parents made on it and never exceeds its dependency count; the node
    has left Waiting only if the counter has reached the dependency
    count; [run] was dispatched for it at most once, exactly when it left
    Waiting; and the goroutine of [processWithTimeout] was started at
    most once. *)
Theorem started_once_when_dependencies_done d s k m nd g :
  wf_dag d → reachable d s →
  dag_metaNodes d !! k = Some m → nodes s !! k = Some nd → gor s !! k = Some g →
  doneDepCnt nd = Z.of_nat (delivered (dag_metaNodes d) (hist s) k)
  ∧ 0 ≤ doneDepCnt nd ≤ depCnt m
  ∧ (status nd ≠ Waiting → doneDepCnt nd = depCnt m)
  ∧ (status nd = Waiting ↔ runs g = [])
  ∧ (length (runs g) ≤ 1)%nat
  ∧ (length (inners g) ≤ 1)%nat.
Proof.
  intros Hwf Hreach Hm Hn Hg.
  pose proof (inv_reachable d s Hwf Hreach) as Hinv.
  assert (Hk : (k < length (dag_metaNodes d))%nat) by by apply lookup_lt_Some in Hm.
  destruct (inv_lookups d s k Hinv Hk) as (? & ? & hs & ? & ? & ? & Hh & ? & Hni).
  simplify_eq. destruct Hni as (I1 & I2 & _ & _ & _ & I6 & I7 & _).
  pose proof (delivered_le_indeg (dag_metaNodes d) (hist s) k) as Hle.
  pose proof (wf_count d Hwf k m Hm) as Hcnt.
  unfold runs_inv in I1. unfold inners_inv in I2.
  split_and!; try done; try lia.
  - destruct (runs g) as [|p [|]]; try done.
    + split; [done|]. by destruct I1.
    + split; [|done]. intros E. by destruct I1.
  - destruct (runs g) as [|p [|]]; try done; simpl; lia.
  - destruct (inners g) as [|p [|]]; try done; simpl; lia.
Qed.

Lemma started_once_when_dependencies_done_witness :
  doneDepCnt (default newRuntimeNode (nodes Scenarios.fan_state !! 2%nat)) = 1.
Proof.
  refine (proj1 (proj2 (proj2 (started_once_when_dependencies_done
            Scenarios.fan_dag Scenarios.fan_state 2%nat
            (default (newNodeMetadata emptyNode) (dag_metaNodes Scenarios.fan_dag !! 2%nat))
            (default newRuntimeNode (nodes Scenarios.fan_state !! 2%nat))
            (default noGoroutines (gor Scenarios.fan_state !! 2%nat))
            _ _ _ _ _))) _).
  - apply wf_dagb_ok. vm_compute. reflexivity.
  - exists Go.unixEpoch, Scenarios.fan_trace. vm_compute. reflexivity.
  - vm_compute. reflexivity.
  - vm_compute. reflexivity.
  - vm_compute. reflexivity.
  - vm_compute. discriminate.
Defined.

(** The two loops at the end of [run]: in every state of every run a
    node has notified some strong child only if it is Succeeded; it
    notifies its children in the order of the lists and each at most once
    per entry; and when its [run] has returned it has notified every weak
    child, and either every strong child or none. *)
Theorem children_notified_in_order d s k m nd hs g :
  wf_dag d → reachable d s →
  dag_metaNodes d !! k = Some m → nodes s !! k = Some nd →
  hist s !! k = Some hs → gor s !! k = Some g →
  ((0 < strongSent hs)%nat → status nd = Succeeded)
  ∧ (strongSent hs ≤ length (children m))%nat
  ∧ (weakSent hs ≤ length (weakChildren m))%nat
  ∧ ((0 < weakSent hs)%nat →
     strongSent hs = 0%nat ∨ strongSent hs = length (children m))
  ∧ (∀ rest, runs g = [Strong rest] → rest = drop (strongSent hs) (children m))
  ∧ (∀ rest, runs g = [Weak rest] → rest = drop (weakSent hs) (weakChildren m))
  ∧ (runs g = [RunReturned] →
     weakSent hs = length (weakChildren m)
     ∧ (strongSent hs = 0%nat ∨ strongSent hs = length (children m))).
Proof.
  intros Hwf Hreach Hm Hn Hh Hg.
  pose proof (inv_reachable d s Hwf Hreach) as Hinv.
  pose proof (inv_node d s Hinv k m nd hs g Hm Hn Hh Hg)
    as (I1 & _ & (_ & _ & _ & Hs) & _).
  unfold runs_inv in I1.
  assert (Hall : (strongSent hs ≤ length (children m))%nat
                 ∧ (weakSent hs ≤ length (weakChildren m))%nat
                 ∧ ((0 < weakSent hs)%nat →
                    strongSent hs = 0%nat ∨ strongSent hs = length (children m))).
  { destruct (runs g) as [|p [|]]; try done.
    - destruct I1 as (_ & Hp & _). unfold pristine in Hp. destruct_and?.
      split_and!; try lia.
    - destruct I1 as [_ I1].
      assert (Hloop : ∀ q, loop_inv m nd hs q →
                (strongSent hs ≤ length (children m))%nat
                ∧ (weakSent hs ≤ length (weakChildren m))%nat
                ∧ ((0 < weakSent hs)%nat →
                   strongSent hs = 0%nat ∨ strongSent hs = length (children m))).
      { intros q Hq. destruct q; try done; simpl in Hq; unfold sdone in Hq.
        - destruct Hq as (_ & _ & ? & ?). split_and!; lia.
        - destruct Hq as (_ & ? & [?|[_ ?]]); split_and!; lia. }
      destruct p; simpl in I1; try (by apply Hloop);
        try (by apply Hloop; destruct I1);
        unfold pristine, sent0, sdone in *; destruct_and?;
        try (split_and!; lia).
      all: try (destruct I1 as (_ & [? ?] & _); split_and!; lia).
      all: try (destruct I1 as [? [?|[_ ?]]]; split_and!; lia).
      all: eapply Hloop; eassumption. }
  destruct Hall as (A1 & A2 & A3).
  split_and!; try done.
  - intros rest E. rewrite E in I1. by destruct I1 as (_ & _ & ? & _).
  - intros rest E. rewrite E in I1. by destruct I1 as (_ & ? & _).
  - intros E. rewrite E in I1. destruct I1 as (_ & ? & Hsd).
    split; [done|]. unfold sdone in Hsd. destruct Hsd as [?|[_ ?]]; auto.
Qed.

Lemma children_notified_in_order_witness :
  weakSent (default newHistory (hist Scenarios.fan_state !! 1%nat)) = 1%nat.
Proof.
  refine (proj1 (proj2 (proj2 (proj2 (proj2 (proj2 (proj2
            (children_notified_in_order Scenarios.fan_dag Scenarios.fan_state 1%nat
               (default (newNodeMetadata emptyNode)
                        (dag_metaNodes Scenarios.fan_dag !! 1%nat))
               (default newRuntimeNode (nodes Scenarios.fan_state !! 1%nat))
               (default newHistory (hist Scenarios.fan_state !! 1%nat))
               (default noGoroutines (gor Scenarios.fan_state !! 1%nat))
               _ _ _ _ _ _)))))) _)).
  - apply wf_dagb_ok. vm_compute. reflexivity.
  - exists Go.unixEpoch, Scenarios.fan_trace. vm_compute. reflexivity.
  - vm_compute. reflexivity.
  - vm_compute. reflexivity.
  - vm_compute. reflexivity.
  - vm_compute. reflexivity.
  - vm_compute. reflexivity.
Defined.

(** [RunWithPool] returns one result per metadata node, in index order;
    the status and the attempts of a result are those the node had when
    the result was taken, so the node is at that status or further, and
    the attempts of a result never exceed [max(1, maxAttempts)]. *)
Theorem results_one_per_node d s results :
  wf_dag d → reachable d s → main s = MDone results →
  length results = length (dag_metaNodes d)
  ∧ ∀ i r, results !! i = Some r →
      ∃ m nd, dag_metaNodes d !! i = Some m ∧ nodes s !! i = Some nd
              ∧ st_le (Status r) (status nd)
              ∧ 0 ≤ Attempts r ≤ attempts nd
              ∧ Attempts r ≤ Z.max 1 (maxAttempts m).
Proof.
  intros Hwf Hreach Hmain.
  pose proof (inv_reachable d s Hwf Hreach) as Hinv.
  pose proof (inv_main d s Hinv) as Hmi. rewrite Hmain in Hmi.
  destruct Hmi as [Hlen Hres]. split.
  - rewrite Hlen. apply Hinv.
  - intros i r Hr. destruct (Hres i r Hr) as (nd & Hn & Hst & Hat).
    assert (Hk : (i < length (dag_metaNodes d))%nat).
    { apply lookup_lt_Some in Hn. by rewrite <- (inv_nodes _ _ Hinv). }
    destruct (inv_lookups d s i Hinv Hk) as (m & ? & hs & g & Hm & ? & Hh & Hg & Hni).
    simplify_eq. destruct Hni as (_ & _ & _ & I4 & _).
    rewrite maxUint_spec in I4.
    exists m, nd. split_and!; try done; lia.
Qed.

Lemma results_one_per_node_witness :
  ∃ results,
    main (Scenarios.run_of Scenarios.chain_dag Go.unixEpoch Scenarios.chain_trace)
    = MDone results ∧ length results = 2%nat.
Proof.
  eexists. split; [vm_compute; reflexivity|].
  refine (proj1 (results_one_per_node Scenarios.chain_dag
            (Scenarios.run_of Scenarios.chain_dag Go.unixEpoch Scenarios.chain_trace)
            _ _ _ _)).
  - apply wf_dagb_ok. vm_compute. reflexivity.
  - exists Go.unixEpoch, Scenarios.chain_trace. vm_compute. reflexivity.
  - vm_compute. reflexivity.
Defined.

(** ** The wait group *)

Lemma sum_list_with_alter_at {A} (f : A → nat) (g : A → A) (l : list A) j x :
  l !! j = Some x →
  (sum_list_with f (alter g j l) + f x = sum_list_with f l + f (g x))%nat.
Proof.
  revert j. induction l as [|a l IH]; intros [|j] H; simplify_eq/=; [lia|].
  specialize (IH j H). lia.
Qed.

Lemma alter_runs_lookup (F : goroutines → goroutines) c (gs : list goroutines) j g :
  (∀ x i q, runs x !! i = Some q → runs (F x) !! i = Some q) →
  gs !! j = Some g →
  ∃ g', alter F c gs !! j = Some g'
        ∧ ∀ i q, runs g !! i = Some q → runs g' !! i = Some q.
Proof.
  intros HF Hj. destruct (decide (c = j)) as [->|Hne].
  - rewrite list_lookup_alter_eq, Hj. simpl. eauto.
  - rewrite list_lookup_alter_ne by done. eauto.
Qed.

Lemma active_runs_spawn_run c (gs : list goroutines) g0 :
  gs !! c = Some g0 →
  active_runs (alter (λ g, mkGor (runs g ++ [Run]) (inners g) (users g)) c gs)
  = S (active_runs gs).
Proof.
  intros Hc. unfold active_runs.
  pose proof (sum_list_with_alter_at running_runs
                (λ g, mkGor (runs g ++ [Run]) (inners g) (users g)) gs c g0 Hc) as H.
  assert (E : running_runs (mkGor (runs g0 ++ [Run]) (inners g0) (users g0))
              = S (running_runs g0)).
  { unfold running_runs. simpl. rewrite sum_list_with_app. simpl. lia. }
  cbv beta in H. rewrite E in H. lia.
Qed.

Lemma active_runs_alter_same F c (gs : list goroutines) :
  (∀ g, runs (F g) = runs g) → active_runs (alter F c gs) = active_runs gs.
Proof.
  intros HF. unfold active_runs. revert c.
  induction gs as [|g gs IH]; intros [|c]; simpl; auto.
  - unfold running_runs. by rewrite HF.
  - f_equal. apply IH.
Qed.

Lemma exec_wg d s k p l sp :
  length (gor s) = length (nodes s) →
  exec d s k p l = Some sp →
  main sp.1 = main s
  ∧ Z.of_nat (active_runs (gor sp.1)) - wg sp.1
    = Z.of_nat (active_runs (gor s)) - wg s + wgd p
  ∧ (wg sp.1 = wg s ∨ p = WgDone ∨ ∃ c kont, p = StartCas c kont)
  ∧ (∀ j g, gor s !! j = Some g →
       ∃ g', gor sp.1 !! j = Some g'
             ∧ ∀ i q, runs g !! i = Some q → runs g' !! i = Some q)
  ∧ (sp.2 = RunReturned →
       p = WgDone ∨ (∃ e, p = FailErr e RunReturned)
       ∨ (∃ c, p = StartCas c RunReturned)).
Proof.
  intros Hlen Hex.
  destruct p; try (destruct w); exec_inv Hex; simpl.
  all: try (split_and!; [done|lia|by auto|by eauto|by eauto]).
  all: split_and!; [done| |by eauto|..].
  all: try (intros ->; by eauto).
  all: try (intros ?; discriminate).
  all: try (intros ? ? ?; eexists; split; [eassumption|by auto]).
  all: try lia.
  all: try (rewrite active_runs_alter_same by done; lia).
  all: try (intros ? ? ?; eapply alter_runs_lookup; [|eassumption]; simpl;
            intros ? ? ? ?; first [done | by apply lookup_app_l_Some]).
  all: match goal with
       | H : nodes ?s0 !! ?c = Some _, Hl : length (gor ?s0) = _ |- _ =>
           let g0 := fresh "g0" in let Hg0 := fresh "Hg0" in
           destruct (lookup_lt_is_Some_2 (gor s0) c) as [g0 Hg0];
             [rewrite Hl; by eapply lookup_lt_Some|];
           rewrite (active_runs_spawn_run c (gor s0) g0 Hg0); lia
       end.
Qed.

Lemma exec_returned d s k l : exec d s k RunReturned l = None.
Proof. by destruct l. Qed.

Lemma active_runs_lookup (gs : list goroutines) k g i p :
  gs !! k = Some g → runs g !! i = Some p → (act p ≤ active_runs gs)%nat.
Proof.
  intros Hk Hi. unfold active_runs.
  pose proof (sum_list_with_lookup_le running_runs gs k g Hk).
  pose proof (sum_list_with_lookup_le act (runs g) i p Hi).
  unfold running_runs in *. lia.
Qed.

Lemma active_runs_set_run (gs : list goroutines) k g i p q :
  gs !! k = Some g → runs g !! i = Some p →
  (active_runs (alter (λ x, mkGor (<[i:=q]> (runs x)) (inners x) (users x)) k gs)
   + act p = active_runs gs + act q)%nat.
Proof.
  intros Hk Hi. unfold active_runs.
  pose proof (sum_list_with_alter_at running_runs
                (λ x, mkGor (<[i:=q]> (runs x)) (inners x) (users x)) gs k g Hk) as H.
  cbv beta in H.
  assert (E : (running_runs (mkGor (<[i:=q]> (runs g)) (inners g) (users g)) + act p
               = running_runs g + act q)%nat).
  { unfold running_runs. simpl. by apply sum_list_with_insert. }
  lia.
Qed.

(** The counter of the wait group is the number of dispatched [run]s that
    have not returned, and it is zero once [RunWithPool] reads the
    results. *)
Lemma wg_step d s l s' :
  inv d s → wg_ok s → step d s l = Some s' → wg_ok s'.
Proof.
  intros Hinv [Hw Hc] Hst.
  assert (Hlen : length (gor s) = length (nodes s)).
  { by rewrite (inv_gor _ _ Hinv), (inv_nodes _ _ Hinv). }
  assert (Hg : ∀ g, (∃ p sp, get_pc s g = Some p ∧ exec d s (gid_node g) p l = Some sp
                             ∧ s' = set_pc g sp.2 sp.1) → wg_ok s').
  { intros g (p & sp & Hp & Hex & ->).
    destruct (exec_wg d s (gid_node g) p l sp Hlen Hex) as (Em & Ea & Ew & Hl & Hret).
    destruct g as [|k i|k i|k i]; simpl in *.
    - (* the caller of RunWithPool *)
      injection Hp as <-. pose proof (inv_main _ _ Hinv) as Hmain.
      unfold wg_ok. simpl.
      destruct (main s) eqn:Em0; simpl in Hmain; try done; simpl in *.
      + split; [lia|]. exec_inv Hex; simpl; done.
      + split; [lia|]. exec_inv Hex; simpl in *; try done; lia.
      + split; [lia|]. exec_inv Hex; simpl in *; intros _; lia.
      + destruct p; try done. split; [lia|]. exec_inv Hex; simpl; done.
    - (* a goroutine of run *)
      destruct (gor s !! k) as [gs|] eqn:Hgs; [|done]. simpl in Hp.
      destruct (inv_lookups_gor d s k gs Hinv Hgs) as (m & nd & hs & Hm & Hn & Hh & Hni).
      destruct (Hl k gs Hgs) as (g' & Hg' & Hruns).
      pose proof (Hruns i p Hp) as Hp'.
      pose proof (active_runs_set_run (gor sp.1) k g' i p sp.2 Hg' Hp') as Hset.
      pose proof (active_runs_lookup (gor s) k gs i p Hgs Hp) as Hle.
      assert (Hact : act p = 1%nat).
      { destruct p; first [done | by rewrite exec_returned in Hex]. }
      assert (Hact' : Z.of_nat (act sp.2) = 1 - wgd p).
      { destruct Hni as (I1 & _). unfold runs_inv in I1.
        destruct (runs gs) as [|q [|]] eqn:Er; try done.
        destruct i; [|done]. simpl in Hp. injection Hp as ->.
        destruct I1 as [_ I1].
        assert (E : sp.2 = RunReturned ∨ act sp.2 = 1%nat).
        { destruct sp.2; auto. }
        destruct E as [E|E].
        - destruct (Hret E) as [->|[[e ->]|[c ->]]].
          + by rewrite E.
          + simpl in I1. destruct I1 as (_ & _ & [?|?]); done.
          + simpl in I1. destruct I1 as [I1 _]. done.
        - assert (wgd p = 0) as ->.
          { destruct p; try done. exfalso. exec_inv Hex. }
          lia. }
      unfold wg_ok. simpl. split; [lia|].
      rewrite Em. intros Hcol. specialize (Hc Hcol). lia.
    - (* the goroutine of processWithTimeout *)
      destruct (gor s !! k) as [gs|] eqn:Hgs; [|done]. simpl in Hp.
      destruct (inv_lookups_gor d s k gs Hinv Hgs) as (m & nd & hs & Hm & Hn & Hh & Hni).
      assert (Hp0 : wgd p = 0 ∧ wg sp.1 = wg s).
      { destruct Hni as (_ & I2 & _). unfold inners_inv in I2.
        destruct (inners gs) as [|q [|]] eqn:Er; try done.
        destruct i; [|done]. simpl in Hp. injection Hp as ->.
        split; [by destruct p|].
        destruct Ew as [?|[->|(c & kont & ->)]]; done. }
      destruct Hp0 as [E0 E1]. unfold wg_ok. simpl.
      rewrite active_runs_alter_same by done. split; [lia|].
      rewrite Em. intros Hcol. specialize (Hc Hcol). lia.
    - (* a DoIfRunning call of user code *)
      destruct (gor s !! k) as [gs|] eqn:Hgs; [|done]. simpl in Hp.
      destruct (inv_lookups_gor d s k gs Hinv Hgs) as (m & nd & hs & Hm & Hn & Hh & Hni).
      assert (Hp0 : wgd p = 0 ∧ wg sp.1 = wg s).
      { destruct Hni as (_ & _ & _ & _ & _ & _ & _ & I8).
        apply (Forall_lookup_1 _ _ _ _ I8) in Hp.
        split; [by destruct p|].
        destruct Ew as [?|[->|(c & kont & ->)]]; done. }
      destruct Hp0 as [E0 E1]. unfold wg_ok. simpl.
      rewrite active_runs_alter_same by done. split; [lia|].
      rewrite Em. intros Hcol. specialize (Hc Hcol). lia. }
  destruct l as [dt|n|g|g o|g]; simpl in Hst.
  - destruct (0 <? dt); simplify_eq. done.
  - destruct (decide _); simplify_eq. unfold wg_ok, spawn_user. simpl.
    by rewrite active_runs_alter_same.
  - destruct (get_pc s g) as [p|] eqn:Hp; [|done]. simpl in Hst.
    destruct (exec d s (gid_node g) p _) as [sp|] eqn:Hex; [|done]. simplify_eq/=.
    apply (Hg g). eauto.
  - destruct (get_pc s g) as [p|] eqn:Hp; [|done]. simpl in Hst.
    destruct (exec d s (gid_node g) p _) as [sp|] eqn:Hex; [|done]. simplify_eq/=.
    apply (Hg g). eauto.
  - destruct (get_pc s g) as [p|] eqn:Hp; [|done]. simpl in Hst.
    destruct (exec d s (gid_node g) p _) as [sp|] eqn:Hex; [|done]. simplify_eq/=.
    apply (Hg g). eauto.
Qed.

Lemma wg_init d t : wg_ok (init d t).
Proof.
  unfold wg_ok. simpl. split; [|done].
  induction (length (dag_metaNodes d)) as [|n IH]; [done|].
  simpl. unfold active_runs in *. simpl. lia.
Qed.

Lemma wg_run_trace d tr s s' :
  wf_dag d → inv d s → wg_ok s → run_trace d tr s = Some s' → wg_ok s'.
Proof.
  intros Hwf. revert s. induction tr as [|l tr IH]; intros s Hinv Hw Hrun; simpl in Hrun.
  - by simplify_eq.
  - destruct (step d s l) as [s1|] eqn:Hs; [|done].
    eapply IH; [| |done]; [by eapply inv_step|by eapply wg_step].
Qed.

Lemma wg_reachable d s : wf_dag d → reachable d s → wg_ok s.
Proof.
  intros Hwf (t & tr & Hrun).
  eapply wg_run_trace; [done|by apply inv_init|apply wg_init|done].
Qed.



(** ** Nodes without timeouts *)

Lemma plain_run_step d s k p l sp m nd hs g :
  exec d s k p l = Some sp →
  dag_metaNodes d !! k = Some m → nodes s !! k = Some nd →
  hist s !! k = Some hs → gor s !! k = Some g →
  notimeout m → plain_pc m nd hs p →
  (∀ rest, p = Strong rest →
     rest = drop (strongSent hs) (children m)
     ∧ (strongSent hs ≤ length (children m))%nat) →
  ∃ nd' hs' g',
    nodes sp.1 !! k = Some nd' ∧ hist sp.1 !! k = Some hs'
    ∧ gor sp.1 !! k = Some g'
    ∧ plain_pc m nd' hs' sp.2
    ∧ inners g' = inners g ∧ runs g' = runs g.
Proof.
  intros Hex Hm Hn Hh Hg [Hl Ht] Hpl Hstrong.
  destruct p; try (destruct w); simpl in Hpl; try done.
  all: try match goal with
           | H : match ?kont with MRoots _ => _ | _ => _ end |- _ =>
               destruct kont; try done
           end.
  all: try (specialize (Hstrong _ eq_refl)).
  all: exec_inv Hex; simpl in *.
  all: repeat first
       [ rewrite list_lookup_alter_eq
       | rewrite list_lookup_alter_ne by done
       | match goal with
         | |- context [alter _ ?c _ !! ?kk] => destruct (decide (c = kk)) as [->|]
         end ].
  all: rewrite ?Hn, ?Hh, ?Hg; simpl.
  all: try (exfalso; unfold settled_st in *; unfold_status; simplify_eq;
            destruct_or?; destruct_and?; lia).
  all: eexists _, _, _; split_and!; try reflexivity; simpl.
  all: unfold settled_st in *; unfold_status; simplify_eq; simpl.
  all: try done.
  all: try lia.
  all: try (by auto).
  all: try tauto.
  all: destruct Hstrong as [Hd Hle]; intros _.
  all: apply drop_nil_length in Hd; lia.
Qed.

Lemma plain_pc_ext m nd nd' hs hs' p :
  plain_pc m nd hs p → status nd' = status nd → err nd' = err nd →
  strongSent hs' = strongSent hs → plain_pc m nd' hs' p.
Proof.
  intros H Hs He Hh. unfold plain_pc, settled_st in *. rewrite Hs, He, Hh. done.
Qed.

(** A step of a [DoIfRunning] call of user code touches the lock and the
    count of executed bodies only. *)
Lemma user_step_same d s k p l sp :
  user_inv p → exec d s k p l = Some sp →
  gor sp.1 = gor s ∧ main sp.1 = main s ∧ wg sp.1 = wg s
  ∧ (∀ j nd, nodes s !! j = Some nd →
       ∃ nd', nodes sp.1 !! j = Some nd' ∧ status nd' = status nd
              ∧ err nd' = err nd ∧ attempts nd' = attempts nd)
  ∧ (∀ j hs, hist s !! j = Some hs →
       ∃ hs', hist sp.1 !! j = Some hs' ∧ strongSent hs' = strongSent hs
              ∧ weakSent hs' = weakSent hs).
Proof.
  intros Hu Hex. destruct p; try done; exec_inv Hex; simpl.
  all: split_and!; try done.
  all: intros j x Hj;
       repeat first
         [ rewrite list_lookup_alter_eq
         | rewrite list_lookup_alter_ne by done
         | match goal with
           | |- context [alter _ ?c _ !! ?kk] => destruct (decide (c = kk)) as [->|]
           end ];
       rewrite ?Hj; simpl; eexists; split_and!; reflexivity.
Qed.

Lemma plain_step d s l s' :
  wf_dag d → inv d s → plain_ok d s → step d s l = Some s' → plain_ok d s'.
Proof.
  intros Hwf Hinv Hpl Hst k m nd' hs' g' Hm Hn' Hh' Hg' Hnt.
  assert (Hk : (k < length (dag_metaNodes d))%nat) by by eapply lookup_lt_Some.
  destruct (inv_lookups d s k Hinv Hk) as (m0 & nd & hs & g & Hm0 & Hn & Hh & Hg & Hni).
  rewrite Hm in Hm0. injection Hm0 as <-.
  destruct (Hpl k m nd hs g Hm Hn Hh Hg Hnt) as [Hin Hrun].
  assert (Helse : (∀ g0, label_gid l = Some g0 → g0 = GMain ∨ gid_node g0 ≠ k) →
                  inners g' = [] ∧ ∀ p, runs g' = [p] → plain_pc m nd' hs' p).
  { intros Hl.
    destruct (step_elsewhere d s l s' k nd hs g (inv_main d s Hinv) Hst Hl Hn Hh Hg)
      as (nd2 & g2 & ? & ? & ? & Hcore & Hin2 & Hus & Hrun2).
    simplify_eq. split; [congruence|]. intros p Hp.
    destruct Hcore as (_ & _ & Herr & _).
    destruct Hrun2 as [[Es Er]|(Ew & Er' & Er)].
    - rewrite Er in Hp. apply (plain_pc_ext m nd nd' hs' hs' p); auto.
    - destruct Hni as (I1 & _). unfold runs_inv in I1.
      destruct (runs g) as [|q [|]]; try done.
      + simpl in Er. rewrite Er in Hp. injection Hp as <-. done.
      + destruct I1 as [I1 _]. done. }
  assert (Hown : ∀ g0 p sp,
            g0 ≠ GMain → gid_node g0 = k → get_pc s g0 = Some p →
            exec d s k p l = Some sp → s' = set_pc g0 sp.2 sp.1 →
            inners g' = [] ∧ ∀ p, runs g' = [p] → plain_pc m nd' hs' p).
  { intros g0 p sp Hnm Hk0 Hp Hex ->.
    destruct g0 as [|k0 i|k0 i|k0 i]; simpl in *; try done; subst k0;
      rewrite Hg in Hp; simpl in Hp.
    - (* run *)
      destruct Hni as (I1 & _). unfold runs_inv in I1.
      destruct (runs g) as [|q [|]] eqn:Er; try done.
      destruct i; [|done]. simpl in Hp. injection Hp as ->.
      destruct I1 as [_ I1].
      destruct (plain_run_step d s k p l sp m nd hs g Hex Hm Hn Hh Hg Hnt
                  (Hrun p eq_refl)) as (nd1 & hs1 & g1 & Hn1 & Hh1 & Hg1 & Hp1 & Ei & Erun).
      { intros rest ->. simpl in I1. destruct I1 as (_ & ? & ? & _). done. }
      rewrite Hn1 in Hn'. injection Hn' as <-.
      rewrite Hh1 in Hh'. injection Hh' as <-.
      rewrite list_lookup_alter_eq, Hg1 in Hg'. simpl in Hg'. injection Hg' as <-.
      simpl. split; [congruence|]. rewrite Erun, Er. simpl.
      intros p0 [= <-]. done.
    - (* processWithTimeout *)
      rewrite Hin in Hp. done.
    - (* DoIfRunning *)
      destruct Hni as (_ & _ & _ & _ & _ & _ & _ & I8).
      pose proof (Forall_lookup_1 _ _ _ _ I8 Hp) as Hu.
      destruct (user_step_same d s k p l sp Hu Hex) as (Eg & _ & _ & Hnodes & Hhist).
      destruct (Hnodes k nd Hn) as (nd1 & Hn1 & Es & Ee & _).
      destruct (Hhist k hs Hh) as (hs1 & Hh1 & Eh & _).
      rewrite Hn1 in Hn'. injection Hn' as <-.
      rewrite Hh1 in Hh'. injection Hh' as <-.
      rewrite list_lookup_alter_eq, Eg, Hg in Hg'. simpl in Hg'. injection Hg' as <-.
      simpl. split; [done|]. intros p0 Hp0.
      apply (plain_pc_ext m nd nd1 hs hs1 p0); auto. }
  assert (Hdisp : ∀ g0, label_gid l = Some g0 →
            inners g' = [] ∧ ∀ p, runs g' = [p] → plain_pc m nd' hs' p).
  { intros g0 Hl0.
    assert (Hd : (g0 = GMain ∨ gid_node g0 ≠ k) ∨ (g0 ≠ GMain ∧ gid_node g0 = k)).
    { destruct g0 as [|k0 j|k0 j|k0 j]; simpl; [by left; left|..];
        (destruct (decide (k0 = k)); [right|left; right]; done). }
    destruct Hd as [Hd|[Hnm Hk0]].
    { apply Helse. intros ? E. rewrite Hl0 in E. injection E as <-. done. }
    destruct l as [dt|n|g1|g1 o|g1]; simpl in Hl0; try done;
      injection Hl0 as ->; simpl in Hst;
      (destruct (get_pc s g0) as [p|] eqn:Hp; [|done]); simpl in Hst;
      rewrite Hk0 in Hst;
      (destruct (exec d s k p _) as [sp|] eqn:Hex; [|done]);
      injection Hst as <-; by eapply Hown. }
  destruct (label_gid l) as [g0|] eqn:El; [by eapply Hdisp|].
  apply Helse. intros ? ?. done.
Qed.

Lemma collecting_main s results :
  (∃ i, main s = MCollect i results) ∨ main s = MDone results →
  collecting (main s) = true.
Proof. intros [[i ->]| ->]; done. Qed.

Lemma final_step d s l s' :
  wf_dag d → inv d s → wg_ok s → plain_ok d s → final_ok d s →
  step d s l = Some s' → final_ok d s'.
Proof.
  intros Hwf Hinv Hwg Hpl Hfin Hst results Hmain' k r m nd' Hr Hm Hn' Hnt.
  pose proof (wg_step d s l s' Hinv Hwg Hst) as Hwg'.
  pose proof (inv_step d s l s' Hwf Hinv Hst) as Hinv'.
  assert (Hk : (k < length (dag_metaNodes d))%nat) by by eapply lookup_lt_Some.
  destruct (inv_lookups d s k Hinv Hk) as (m0 & nd & hs & g & Hm0 & Hn & Hh & Hg & Hni).
  rewrite Hm in Hm0. injection Hm0 as <-.
  destruct (Hpl k m nd hs g Hm Hn Hh Hg Hnt) as [Hin Hrun].
  (* the caller of RunWithPool takes the step *)
  assert (Hmainstep : ∀ sp, exec d s 0 (main s) l = Some sp → s' = set_main sp.2 sp.1 →
            Status r = status nd' ∧ Err r = err nd' ∧ Attempts r = attempts nd').
  { intros sp Hex ->. simpl in *.
    pose proof (inv_main _ _ Hinv) as Hmi.
    destruct (main s) eqn:Em; simpl in Hmi; try done.
    - exec_inv Hex; simpl in *; destruct Hmain' as [[? ?]|?]; done.
    - exec_inv Hex; simpl in *. destruct Hmain' as [[? E]|?]; [|done].
      injection E as _ <-. by rewrite lookup_nil in Hr.
    - destruct Hmi as [Hlen _]. exec_inv Hex; simpl in *.
      + destruct Hmain' as [[? E]|?]; [|done]. injection E as _ <-.
        apply lookup_app_Some in Hr as [Hr|[Hge Hr]].
        * eapply Hfin; eauto.
        * apply list_lookup_singleton_Some in Hr as [Hz <-].
          assert (k = length results0) as -> by lia.
          rewrite Hn' in *. simplify_eq. done.
      + destruct Hmain' as [[? ?]|E]; [done|]. injection E as <-.
        eapply Hfin; eauto.
    - destruct p; try done. exec_inv Hex; simpl in *;
        destruct Hmain' as [[? ?]|?]; done. }
  (* another goroutine takes the step, or time passes *)
  assert (Hother : main s' = main s →
            (∃ nd2, nodes s' !! k = Some nd2 ∧ status nd2 = status nd
                    ∧ err nd2 = err nd ∧ attempts nd2 = attempts nd) →
            Status r = status nd' ∧ Err r = err nd' ∧ Attempts r = attempts nd').
  { intros Em (nd2 & Hn2 & Es & Ee & Ea). rewrite Hn' in Hn2. injection Hn2 as <-.
    rewrite Em in Hmain'. rewrite Es, Ee, Ea. eapply Hfin; eauto. }
  assert (Hcol' : collecting (main s') = true) by by eapply collecting_main.
  assert (Helse : (∀ g0, label_gid l = Some g0 → g0 ≠ GMain ∧ gid_node g0 ≠ k) →
                  main s' = main s →
                  Status r = status nd' ∧ Err r = err nd' ∧ Attempts r = attempts nd').
  { intros Hl Em. apply Hother; [done|].
    destruct (step_elsewhere d s l s' k nd hs g (inv_main d s Hinv) Hst) as
      (nd2 & g2 & Hn2 & Hh2 & Hg2 & Hcore & _ & _ & Hrun2); try done.
    { intros g0 E. right. by destruct (Hl g0 E). }
    exists nd2. destruct Hcore as (_ & _ & Ee & _ & _ & _ & _ & _ & Ea).
    destruct Hrun2 as [[Es _]|(_ & _ & Er)]; [done|]. exfalso.
    destruct Hwg' as [Hw' Hc']. specialize (Hc' Hcol').
    assert (Hi : runs g2 !! length (runs g) = Some Run).
    { rewrite Er. by apply list_lookup_middle. }
    pose proof (active_runs_lookup (gor s') k g2 _ Run Hg2 Hi). simpl in *. lia. }
  assert (Hlen : length (gor s) = length (nodes s)).
  { by rewrite (inv_gor _ _ Hinv), (inv_nodes _ _ Hinv). }
  assert (Hgo : ∀ g0 p sp,
            label_gid l = Some g0 → get_pc s g0 = Some p →
            exec d s (gid_node g0) p l = Some sp → s' = set_pc g0 sp.2 sp.1 →
            Status r = status nd' ∧ Err r = err nd' ∧ Attempts r = attempts nd').
  { intros g0 p sp Hl0 Hp Hex Es'.
    destruct (exec_wg d s (gid_node g0) p l sp Hlen Hex) as (Em & _).
    assert (Hd : g0 = GMain ∨ (g0 ≠ GMain ∧ gid_node g0 ≠ k)
                 ∨ (g0 ≠ GMain ∧ gid_node g0 = k)).
    { destruct g0 as [|k0 j|k0 j|k0 j]; simpl; [by left|..];
        (destruct (decide (k0 = k)); [right; right|right; left]; done). }
    destruct Hd as [->|[Hd|[Hnm Hk0]]].
    - simpl in Hp. injection Hp as <-. by apply (Hmainstep sp).
    - apply Helse.
      + intros g1 E. rewrite Hl0 in E. by injection E as <-.
      + subst s'. destruct Hd as [Hd _]. destruct g0; simpl; done.
    - assert (Em' : main s' = main s).
      { subst s'. destruct g0; simpl; done. }
      assert (Hcol : collecting (main s) = true) by by rewrite <- Em'.
      destruct Hwg as [Hw Hc]. specialize (Hc Hcol).
      destruct g0 as [|k0 i|k0 i|k0 i]; simpl in *; try done; subst k0;
        rewrite Hg in Hp; simpl in Hp.
      + pose proof (active_runs_lookup (gor s) k g i p Hg Hp) as Hle.
        assert (p = RunReturned) as ->.
        { destruct p; simpl in Hle; try lia. done. }
        by rewrite exec_returned in Hex.
      + rewrite Hin in Hp. done.
      + destruct Hni as (_ & _ & _ & _ & _ & _ & _ & I8).
        pose proof (Forall_lookup_1 _ _ _ _ I8 Hp) as Hu.
        destruct (user_step_same d s k p l sp Hu Hex) as (_ & _ & _ & Hnodes & _).
        apply Hother; [done|]. subst s'. simpl. by apply Hnodes. }
  destruct l as [dt|n|g0|g0 o|g0].
  - simpl in Hst. destruct (0 <? dt); [|done]. injection Hst as <-.
    apply Hother; [done|]. simpl. eauto.
  - simpl in Hst. destruct (decide _); [|done]. injection Hst as <-.
    apply Hother; [done|]. simpl. eauto.
  - simpl in Hst. destruct (get_pc s g0) as [p|] eqn:Hp; [|done]. simpl in Hst.
    destruct (exec d s (gid_node g0) p _) as [sp|] eqn:Hex; [|done].
    injection Hst as <-. by eapply Hgo.
  - simpl in Hst. destruct (get_pc s g0) as [p|] eqn:Hp; [|done]. simpl in Hst.
    destruct (exec d s (gid_node g0) p _) as [sp|] eqn:Hex; [|done].
    injection Hst as <-. by eapply Hgo.
  - simpl in Hst. destruct (get_pc s g0) as [p|] eqn:Hp; [|done]. simpl in Hst.
    destruct (exec d s (gid_node g0) p _) as [sp|] eqn:Hex; [|done].
    injection Hst as <-. by eapply Hgo.
Qed.

Lemma plain_init d t : plain_ok d (init d t).
Proof.
  intros k m nd hs g Hm Hn Hh Hg Hnt. simpl in *.
  apply lookup_replicate in Hg as [-> _]. done.
Qed.

Lemma final_init d t : final_ok d (init d t).
Proof. intros results [[i E]|E]; simpl in E; done. Qed.

Lemma finals_run_trace d tr s s' :
  wf_dag d → inv d s → wg_ok s → plain_ok d s → final_ok d s →
  run_trace d tr s = Some s' → plain_ok d s' ∧ final_ok d s'.
Proof.
  intros Hwf. revert s.
  induction tr as [|l tr IH]; intros s Hinv Hwg Hpl Hfin Hrun; simpl in Hrun.
  - by simplify_eq.
  - destruct (step d s l) as [s1|] eqn:Hs; [|done].
    eapply (IH s1); [by eapply inv_step|by eapply wg_step|by eapply plain_step
                    |by eapply final_step|done].
Qed.

Lemma finals_reachable d s :
  wf_dag d → reachable d s → plain_ok d s ∧ final_ok d s.
Proof.
  intros Hwf (t & tr & Hrun).
  eapply finals_run_trace; [done|by apply inv_init|apply wg_init|apply plain_init
                           |apply final_init|done].
Qed.

(** Without timeouts the results are final: for a node with neither a
    local nor a total timeout, the result that [RunWithPool] returns is
    the state of the node, and the node is untouched (Waiting, no
    attempt), Succeeded without an error, or Failed with an error. *)
Theorem result_without_timeout_is_final d s results k r m :
  wf_dag d → reachable d s → main s = MDone results →
  dag_metaNodes d !! k = Some m → notimeout m → results !! k = Some r →
  ∃ nd, nodes s !! k = Some nd
        ∧ Status r = status nd ∧ Err r = err nd ∧ Attempts r = attempts nd
        ∧ ((Status r = Waiting ∧ Err r = None ∧ Attempts r = 0)
           ∨ (Status r = Succeeded ∧ Err r = None)
           ∨ (Status r = Failed ∧ Err r ≠ None)).
Proof.
  intros Hwf Hreach Hmain Hm Hnt Hr.
  pose proof (inv_reachable d s Hwf Hreach) as Hinv.
  destruct (wg_reachable d s Hwf Hreach) as [Hw Hc].
  destruct (finals_reachable d s Hwf Hreach) as [Hpl Hfin].
  assert (Hk : (k < length (dag_metaNodes d))%nat) by by eapply lookup_lt_Some.
  destruct (inv_lookups d s k Hinv Hk) as (m0 & nd & hs & g & Hm0 & Hn & Hh & Hg & Hni).
  rewrite Hm in Hm0. injection Hm0 as <-.
  destruct (Hfin results (or_intror Hmain) k r m nd Hr Hm Hn Hnt) as (Es & Ee & Ea).
  exists nd. split_and!; try done. rewrite Es, Ee, Ea.
  rewrite Hmain in Hc. specialize (Hc eq_refl).
  destruct (Hpl k m nd hs g Hm Hn Hh Hg Hnt) as [_ Hrun].
  destruct Hni as (I1 & _ & (_ & I3 & _) & _). unfold runs_inv in I1.
  destruct (runs g) as [|p [|]] eqn:Er; try done.
  - left. destruct I1 as (? & (? & ? & _) & _). done.
  - right. assert (Hp : runs g !! 0%nat = Some p) by by rewrite Er.
    pose proof (active_runs_lookup (gor s) k g 0 p Hg Hp) as Hle.
    assert (p = RunReturned) as ->.
    { destruct p; simpl in Hle; try lia. done. }
    destruct (Hrun _ eq_refl) as [[Hs|[Hs He]] _]; [left|right; done].
    split; [done|]. destruct (err nd) eqn:E; [|done].
    rewrite I3 in Hs by done. done.
Qed.

Lemma result_without_timeout_is_final_witness :
  ∃ nd, nodes Scenarios.chain_state !! 1%nat = Some nd
        ∧ Status (default (getResult 0 newRuntimeNode)
                    (Scenarios.chain_results !! 1%nat)) = status nd
        ∧ Err (default (getResult 0 newRuntimeNode)
                 (Scenarios.chain_results !! 1%nat)) = err nd
        ∧ Attempts (default (getResult 0 newRuntimeNode)
                      (Scenarios.chain_results !! 1%nat)) = attempts nd
        ∧ ((Status (default (getResult 0 newRuntimeNode)
                      (Scenarios.chain_results !! 1%nat)) = Waiting
            ∧ Err (default (getResult 0 newRuntimeNode)
                     (Scenarios.chain_results !! 1%nat)) = None
            ∧ Attempts (default (getResult 0 newRuntimeNode)
                          (Scenarios.chain_results !! 1%nat)) = 0)
           ∨ (Status (default (getResult 0 newRuntimeNode)
                        (Scenarios.chain_results !! 1%nat)) = Succeeded
              ∧ Err (default (getResult 0 newRuntimeNode)
                       (Scenarios.chain_results !! 1%nat)) = None)
           ∨ (Status (default (getResult 0 newRuntimeNode)
                        (Scenarios.chain_results !! 1%nat)) = Failed
              ∧ Err (default (getResult 0 newRuntimeNode)
                       (Scenarios.chain_results !! 1%nat)) ≠ None)).
Proof.
  apply (result_without_timeout_is_final Scenarios.chain_dag Scenarios.chain_state
           Scenarios.chain_results 1%nat _
           (default (newNodeMetadata emptyNode)
                    (dag_metaNodes Scenarios.chain_dag !! 1%nat))).
  - apply wf_dagb_ok. vm_compute. reflexivity.
  - exists Go.unixEpoch, Scenarios.chain_trace. vm_compute. reflexivity.
  - vm_compute. reflexivity.
  - vm_compute. reflexivity.
  - split; vm_compute; discriminate.
  - vm_compute. reflexivity.
Defined.



(** ** The deadline *)

Lemma ddl_exec d s k p l sp m nd hs g :
  exec d s k p l = Some sp →
  dag_metaNodes d !! k = Some m → nodes s !! k = Some nd →
  hist s !! k = Some hs → gor s !! k = Some g →
  (∀ e kont, p = FailErr e kont →
     kont = Notify ∨ kont = TimeoutUnlock ∨ kont = InnerReturned) →
  (∀ c kont, p = StartCas c kont →
     (∃ rest, kont = Strong rest) ∨ (∃ rest, kont = Weak rest)
     ∨ ∃ rest, kont = MRoots rest) →
  ∃ nd' hs' g',
    nodes sp.1 !! k = Some nd' ∧ hist sp.1 !! k = Some hs'
    ∧ gor sp.1 !! k = Some g'
    ∧ now sp.1 = now s ∧ t0 sp.1 = t0 s
    ∧ ((started nd' = started nd ∧ begin nd' = begin nd ∧ ddl nd' = ddl nd)
       ∨ (p = Run ∧ ddl nd' = ddl nd
          ∧ (started nd' = false ∨ started nd' = started nd))
       ∨ (p = InnerBegin ∧ started nd' = true ∧ begin nd' = now s
          ∧ ddl nd' = Go.Add (now s) (effective_timeout m (t0 s) (now s))))
    ∧ (timedOut hs' = true → timedOut hs = true ∨ p = TimeoutFail)
    ∧ (runs g' = runs g ∨ runs g' = runs g ++ [Run])
    ∧ (inners g' = inners g
       ∨ (p = Run ∧ inners g' = inners g ++ [InnerBegin] ∧ started nd' = false))
    ∧ sp.2 ≠ Run ∧ sp.2 ≠ InnerBegin
    ∧ (sp.2 = Select → p = WaitStarted ∧ started nd = true)
    ∧ (sp.2 = TimeoutLock → p = Select ∧ ddl nd ≤ now s)
    ∧ (sp.2 = TimeoutFail → p = TimeoutLock).
Proof.
  intros Hex Hm Hn Hh Hg Hfail Hstart.
  destruct p; try (destruct (Hfail _ _ eq_refl) as [->|[->| ->]]);
    try (destruct (Hstart _ _ eq_refl) as [[? ->]|[[? ->]|[? ->]]]);
    clear Hfail Hstart; exec_inv Hex; simpl in *.
  all: repeat first
       [ rewrite list_lookup_alter_eq
       | rewrite list_lookup_alter_ne by done
       | match goal with
         | |- context [alter _ ?c _ !! ?kk] => destruct (decide (c = kk)) as [->|]
         end ].
  all: rewrite ?Hn, ?Hh, ?Hg; simpl.
  all: eexists _, _, _; split_and!; try reflexivity; simpl.
  all: try done.
  all: try (by auto).
  all: try (left; done).
  all: try (by destruct w).
  all: try (intros; split; [done|lia]).
  all: try (right; left; auto; fail).
  all: try (right; right; auto; fail).
  all: try (right; split_and!; done).
Qed.

Lemma step_now d s l s' :
  step d s l = Some s' → now s ≤ now s' ∧ t0 s' = t0 s.
Proof.
  intros Hst.
  assert (Hcase : ∀ g0 p sp, exec d s (gid_node g0) p l = Some sp →
            now (set_pc g0 sp.2 sp.1) = now s ∧ t0 (set_pc g0 sp.2 sp.1) = t0 s).
  { intros g0 p sp Hex.
    assert (Hset : ∀ q s1, now (set_pc g0 q s1) = now s1
                           ∧ t0 (set_pc g0 q s1) = t0 s1) by (by destruct g0).
    destruct (Hset sp.2 sp.1) as [-> ->]. clear Hset.
    revert Hex. generalize (gid_node g0) as k0. intros k0 Hex.
    destruct p; exec_inv Hex; simpl; done. }
  destruct l as [dt|n|g0|g0 o|g0]; simpl in Hst.
  - destruct (0 <? dt) eqn:E; simplify_eq/=. bool2prop. split; [lia|done].
  - destruct (decide _); simplify_eq/=. done.
  - destruct (get_pc s g0) as [p|] eqn:Hp; [|done]. simpl in Hst.
    destruct (exec d s (gid_node g0) p _) as [sp|] eqn:Hex; [|done]. simplify_eq/=.
    destruct (Hcase g0 p sp Hex) as [-> ->]. done.
  - destruct (get_pc s g0) as [p|] eqn:Hp; [|done]. simpl in Hst.
    destruct (exec d s (gid_node g0) p _) as [sp|] eqn:Hex; [|done]. simplify_eq/=.
    destruct (Hcase g0 p sp Hex) as [-> ->]. done.
  - destruct (get_pc s g0) as [p|] eqn:Hp; [|done]. simpl in Hst.
    destruct (exec d s (gid_node g0) p _) as [sp|] eqn:Hex; [|done]. simplify_eq/=.
    destruct (Hcase g0 p sp Hex) as [-> ->]. done.
Qed.

Lemma ddl_pc_mono s s' nd nd' p :
  ddl_pc s nd p → now s ≤ now s' → started nd' = started nd → ddl nd' = ddl nd →
  ddl_pc s' nd' p.
Proof.
  intros H Hnow Hs Hd. destruct p; simpl in *; rewrite ?Hs, ?Hd; try done.
  all: destruct H; split; [done|lia].
Qed.

Lemma ddl_step d s l s' :
  wf_dag d → inv d s → plain_ok d s → ddl_ok d s → step d s l = Some s' →
  ddl_ok d s'.
Proof.
  intros Hwf Hinv Hpl Hok Hst k m nd' hs' g' Hm Hn' Hh' Hg'.
  pose proof (inv_step d s l s' Hwf Hinv Hst) as Hinv'.
  destruct (step_now d s l s' Hst) as [Hnow Ht0].
  assert (Hk : (k < length (dag_metaNodes d))%nat) by by eapply lookup_lt_Some.
  destruct (inv_lookups d s k Hinv Hk) as (m0 & nd & hs & g & Hm0 & Hn & Hh & Hg & Hni).
  rewrite Hm in Hm0. injection Hm0 as <-.
  destruct (Hok k m nd hs g Hm Hn Hh Hg) as (C1 & C5 & C2 & C3 & C4 & C6).
  pose proof (inv_node d s' Hinv' k m nd' hs' g' Hm Hn' Hh' Hg') as Hni'.
  assert (Hruns' : runs g' = [] ∨ ∃ q, runs g' = [q]).
  { destruct Hni' as (I1 & _). unfold runs_inv in I1.
    destruct (runs g') as [|q [|]]; try done; eauto. }
  assert (Hinn' : inners g' = [] ∨ ∃ q, inners g' = [q]).
  { destruct Hni' as (_ & I2 & _). unfold inners_inv in I2.
    destruct (inners g') as [|q [|]]; try done; eauto. }
  assert (Hrun0 : runs g = [] → inners g = []).
  { intros E. destruct Hni as (I1 & _). unfold runs_inv in I1. rewrite E in I1.
    by destruct I1 as (_ & _ & ?). }
  assert (HrunR : runs g = [Run] → inners g = []).
  { intros E. destruct Hni as (I1 & _). unfold runs_inv in I1. rewrite E in I1.
    destruct I1 as [_ I1]. simpl in I1. by destruct I1 as (_ & _ & ?). }
  (* steps of other nodes, of the caller, and the passing of time *)
  assert (Helse : (∀ g0, label_gid l = Some g0 → g0 = GMain ∨ gid_node g0 ≠ k) →
                  ddl_inv s' m nd' hs' g').
  { intros Hl.
    destruct (step_elsewhere d s l s' k nd hs g (inv_main d s Hinv) Hst Hl Hn Hh Hg)
      as (nd2 & g2 & ? & ? & ? & Hcore & Hin2 & Hus & Hrun2).
    simplify_eq.
    destruct Hcore as (_ & Est & _ & _ & _ & Eb & Ed & _).
    unfold ddl_inv. rewrite Est, Eb, Ed, Hin2, Ht0.
    assert (Hr : runs g' = runs g ∨ (runs g = [] ∧ runs g' = [Run])).
    { destruct Hrun2 as [[_ Er]|(Ew & _ & Er)]; [by left|right].
      destruct Hni as (I1 & _). unfold runs_inv in I1.
      destruct (runs g) as [|q [|]]; try done. by destruct I1. }
    split_and!.
    - destruct Hr as [->|[E0 ->]]; [done|]. intros _. apply C1. by left.
    - done.
    - done.
    - intros p Hp. destruct Hr as [Er|[E0 Er]]; rewrite Er in Hp.
      + apply (ddl_pc_mono s s' nd nd' p); auto.
      + injection Hp as <-. done.
    - intros Ht. destruct (C4 Ht). split; [done|lia].
    - done. }
  (* steps of the goroutines of the node *)
  assert (Hown : ∀ g0 p sp,
            g0 ≠ GMain → gid_node g0 = k → get_pc s g0 = Some p →
            exec d s k p l = Some sp → s' = set_pc g0 sp.2 sp.1 →
            ddl_inv s' m nd' hs' g').
  { intros g0 p sp Hnm Hk0 Hp Hex Es'.
    assert (Hin : p ∈ runs g ++ inners g ++ users g).
    { destruct g0 as [|k0 i|k0 i|k0 i]; simpl in *; try done; subst k0;
        rewrite Hg in Hp; simpl in Hp; apply list_elem_of_lookup_2 in Hp;
        rewrite !elem_of_app; auto. }
    destruct (pc_returns d s k m nd hs g p Hni Hin) as [Hfail _].
    assert (Hstart : ∀ c kont, p = StartCas c kont →
              (∃ rest, kont = Strong rest) ∨ (∃ rest, kont = Weak rest)
              ∨ ∃ rest, kont = MRoots rest).
    { intros c kont ->.
      destruct Hni as (I1 & I2 & _ & _ & _ & _ & _ & I8).
      apply elem_of_app in Hin as [Hi|Hi]; [|apply elem_of_app in Hi as [Hi|Hi]].
      - unfold runs_inv in I1. destruct (runs g) as [|q [|]]; try done.
        + by apply elem_of_nil in Hi.
        + apply list_elem_of_singleton in Hi as <-. destruct I1 as [_ [I1 _]].
          destruct kont; simpl in I1; try done; eauto.
      - unfold inners_inv in I2. destruct (inners g) as [|q [|]]; try done.
        + by apply elem_of_nil in Hi.
        + apply list_elem_of_singleton in Hi as <-. done.
      - rewrite Forall_forall in I8. by specialize (I8 _ Hi). }
    destruct (ddl_exec d s k p l sp m nd hs g Hex Hm Hn Hh Hg Hfail Hstart)
      as (nd1 & hs1 & g1 & Hn1 & Hh1 & Hg1 & Enow & Et0 & Hchg & Hto & Hr1 & Hi1
          & HnR & HnI & HSel & HTL & HTF).
    assert (Hsame : nodes s' = nodes sp.1 ∧ hist s' = hist sp.1
                    ∧ now s' = now sp.1 ∧ t0 s' = t0 sp.1).
    { subst s'. by destruct g0. }
    destruct Hsame as (En & Eh & En' & Et').
    rewrite En, Hn1 in Hn'. injection Hn' as <-.
    rewrite Eh, Hh1 in Hh'. injection Hh' as <-.
    unfold ddl_inv. rewrite En', Et', Enow, Et0.
    destruct g0 as [|k0 i|k0 i|k0 i]; simpl in *; try done; subst k0;
      rewrite Hg in Hp; simpl in Hp; subst s'; simpl in Hg';
      rewrite list_lookup_alter_eq, Hg1 in Hg'; simpl in Hg';
      injection Hg' as <-; simpl in *.
    - (* run *)
      destruct Hni as (I1 & _). unfold runs_inv in I1.
      destruct (runs g) as [|q [|]] eqn:Er; try done.
      destruct i; [|done]. simpl in Hp. injection Hp as ->.
      assert (Er1 : <[0%nat:=sp.2]> (runs g1) = [sp.2]).
      { destruct Hruns' as [E|[q E]].
        - destruct Hr1 as [E1|E1]; rewrite E1 in E; done.
        - destruct Hr1 as [E1|E1]; rewrite E1 in E |- *; simpl in *; done. }
      rewrite Er1.
      assert (Hp3 : ddl_pc s nd p) by by apply C3.
      assert (HpI : p ≠ InnerBegin).
      { intros ->. destruct I1 as [_ I1]. simpl in I1. by destruct I1 as [? _]. }
      split_and!.
      + intros [E|E]; [done|]. injection E as E. done.
      + destruct Hi1 as [->|(-> & Ei & Es)]; [|done].
        intros Ei. destruct Hchg as [(Es & _)|[(-> & _ & [Es|Es])|(-> & _)]].
        * rewrite Es. by apply C5.
        * done.
        * rewrite Es. by apply C5.
        * done.
      + intros Hs1. destruct Hchg as [(Es & Eb & Ed)|[(-> & Ed & [Es|Es])|(-> & _)]].
        * rewrite Eb, Ed. apply C2. by rewrite <- Es.
        * congruence.
        * rewrite Es in Hs1. rewrite C1 in Hs1 by auto. done.
        * done.
      + intros q [= <-].
        assert (Hkeep : p ≠ Run → started nd1 = started nd ∧ ddl nd1 = ddl nd).
        { intros Hne. destruct Hchg as [(? & _ & ?)|[(-> & _)|(-> & _)]]; done. }
        destruct sp.2 eqn:E2; simpl; rewrite ?Enow; try done.
        * destruct (HSel eq_refl) as [-> Hs]. destruct Hkeep as [-> _]; done.
        * destruct (HTL eq_refl) as [-> Hd]. simpl in Hp3.
          destruct Hkeep as [-> ->]; [done|by split].
        * rewrite (HTF eq_refl) in *. simpl in Hp3.
          destruct Hkeep as [-> ->]; done.
      + intros Ht.
        assert (Hkeep : p ≠ Run → started nd1 = started nd ∧ ddl nd1 = ddl nd).
        { intros Hne. destruct Hchg as [(? & _ & ?)|[(-> & _)|(-> & _)]]; done. }
        destruct (Hto Ht) as [Ht0'| ->].
        * destruct (C4 Ht0') as [Hs Hd].
          assert (p ≠ Run).
          { intros ->. rewrite C1 in Hs by auto. done. }
          destruct Hkeep as [-> ->]; done.
        * simpl in Hp3. destruct Hkeep as [-> ->]; done.
      + intros Ht. destruct (Hto Ht) as [Ht0'| ->]; [by apply C6|].
        intros Hnt. destruct (Hpl k m nd hs g Hm Hn Hh Hg Hnt) as [_ Hrp].
        rewrite Er in Hrp. by specialize (Hrp _ eq_refl).
    - (* processWithTimeout *)
      destruct Hni as (I1 & I2 & _). unfold inners_inv in I2.
      destruct (inners g) as [|q [|]] eqn:Ei; try done.
      destruct i; [|done]. simpl in Hp. injection Hp as ->.
      assert (Hrg : runs g1 = runs g).
      { destruct Hr1 as [E|E]; [done|]. exfalso.
        destruct Hruns' as [E'|[q E']]; rewrite E in E'.
        - by destruct (runs g).
        - destruct (runs g) as [|q0 [|]] eqn:Erg; try done.
          specialize (Hrun0 eq_refl). done. }
      assert (Hpi : p = InnerBegin → started nd = false) by (intros ->; by apply C5).
      assert (HpR : p ≠ Run) by (intros ->; done).
      assert (Hnot : started nd = true → p ≠ InnerBegin).
      { intros Hs ->. rewrite Hpi in Hs; done. }
      assert (Hkeep : p ≠ InnerBegin →
                started nd1 = started nd ∧ begin nd1 = begin nd ∧ ddl nd1 = ddl nd).
      { intros Hne. destruct Hchg as [?|[(-> & _)|(-> & _)]]; done. }
      rewrite Hrg. split_and!.
      + intros Hr. specialize (C1 Hr).
        destruct Hr as [Hr|Hr]; [by specialize (Hrun0 Hr)|by specialize (HrunR Hr)].
      + destruct Hi1 as [E|(-> & _)]; [|done]. rewrite E. simpl.
        intros [= E2]. done.
      + intros Hs1. destruct Hchg as [(Es & Eb & Ed)|[(-> & _)|(-> & _ & Eb & Ed)]].
        * rewrite Eb, Ed. apply C2. by rewrite <- Es.
        * done.
        * by rewrite Eb, Ed.
      + intros q Hq. specialize (C3 q Hq).
        assert (Hq3 : (q = Select ∨ q = TimeoutLock ∨ q = TimeoutFail) →
                  started nd = true).
        { intros [->|[->| ->]]; simpl in C3; tauto. }
        destruct q; simpl in *; rewrite ?Enow; try done.
        * destruct Hkeep as (-> & _); [apply Hnot; auto|done].
        * destruct Hkeep as (-> & _ & ->); [apply Hnot; auto|done].
        * destruct Hkeep as (-> & _ & ->); [apply Hnot; auto|done].
      + intros Ht. destruct (Hto Ht) as [Ht0'| ->]; [|done].
        destruct (C4 Ht0') as [Hs Hd].
        destruct Hkeep as (-> & _ & ->); [by apply Hnot|done].
      + intros Ht. destruct (Hto Ht) as [Ht0'| ->]; [by apply C6|done].
    - (* DoIfRunning *)
      destruct Hni as (_ & _ & _ & _ & _ & _ & _ & I8).
      pose proof (Forall_lookup_1 _ _ _ _ I8 Hp) as Hu.
      assert (Hkeep : started nd1 = started nd ∧ begin nd1 = begin nd
                      ∧ ddl nd1 = ddl nd).
      { destruct Hchg as [?|[(-> & _)|(-> & _)]]; done. }
      destruct Hkeep as (Es & Eb & Ed).
      assert (Hrg : runs g1 = runs g).
      { destruct (user_step_same d s k p l sp Hu Hex) as (Eg & _).
        rewrite Eg, Hg in Hg1. by injection Hg1 as <-. }
      assert (Hig : inners g1 = inners g).
      { destruct Hi1 as [?|(-> & _)]; done. }
      rewrite Hrg, Hig, Es, Eb, Ed. split_and!; try done.
      + intros q Hq. eapply (ddl_pc_mono s); [by apply C3|simpl; lia|done|done].
      + intros Ht. destruct (Hto Ht) as [Ht0'| ->]; [|done]. by apply C4.
      + intros Ht. destruct (Hto Ht) as [Ht0'| ->]; [by apply C6|done]. }
  assert (Hdisp : ∀ g0, label_gid l = Some g0 → ddl_inv s' m nd' hs' g').
  { intros g0 Hl0.
    assert (Hd : (g0 = GMain ∨ gid_node g0 ≠ k) ∨ (g0 ≠ GMain ∧ gid_node g0 = k)).
    { destruct g0 as [|k0 j|k0 j|k0 j]; simpl; [by left; left|..];
        (destruct (decide (k0 = k)); [right|left; right]; done). }
    destruct Hd as [Hd|[Hnm Hk0]].
    { apply Helse. intros ? E. rewrite Hl0 in E. injection E as <-. done. }
    destruct l as [dt|n|g1|g1 o|g1]; simpl in Hl0; try done;
      injection Hl0 as ->; simpl in Hst;
      (destruct (get_pc s g0) as [p|] eqn:Hp; [|done]); simpl in Hst;
      rewrite Hk0 in Hst;
      (destruct (exec d s k p _) as [sp|] eqn:Hex; [|done]);
      injection Hst as <-; by eapply Hown. }
  destruct (label_gid l) as [g0|] eqn:El; [by eapply Hdisp|].
  apply Helse. intros ? ?. done.
Qed.

Lemma ddl_init d t : ddl_ok d (init d t).
Proof.
  intros k m nd hs g Hm Hn Hh Hg. simpl in *.
  apply lookup_replicate in Hn as [-> _].
  apply lookup_replicate in Hh as [-> _].
  apply lookup_replicate in Hg as [-> _].
  unfold ddl_inv. simpl. split_and!; done.
Qed.

Lemma ddl_run_trace d tr s s' :
  wf_dag d → inv d s → wg_ok s → plain_ok d s → final_ok d s → ddl_ok d s →
  run_trace d tr s = Some s' → ddl_ok d s'.
Proof.
  intros Hwf. revert s.
  induction tr as [|l tr IH]; intros s Hinv Hwg Hpl Hfin Hok Hrun; simpl in Hrun.
  - by simplify_eq.
  - destruct (step d s l) as [s1|] eqn:Hs; [|done].
    eapply (IH s1); [by eapply inv_step|by eapply wg_step|by eapply plain_step
                    |by eapply final_step|by eapply ddl_step|done].
Qed.

Lemma ddl_reachable d s : wf_dag d → reachable d s → ddl_ok d s.
Proof.
  intros Hwf (t & tr & Hrun).
  eapply ddl_run_trace; [done|by apply inv_init|apply wg_init|apply plain_init
                        |apply final_init|apply ddl_init|done].
Qed.

Lemma GetDDL_configured m nd : ¬ notimeout m → GetDDL m nd = (ddl nd, true).
Proof.
  intros Hnt. unfold GetDDL, notimeout in *.
  destruct (localTimeout m <=? 0) eqn:E1; [|done].
  destruct (totalTimeout m <=? 0) eqn:E2; [|done].
  bool2prop. exfalso. auto.
Qed.

(** The deadline branch of [processWithTimeout] never fails a node
    early: when it has made a node fail, a timeout is configured,
    [GetDDL] returns the deadline that the closure computed from the
    begin of the node, and that deadline has passed. *)
Theorem timeout_not_before_deadline d s k m nd hs :
  wf_dag d → reachable d s →
  dag_metaNodes d !! k = Some m → nodes s !! k = Some nd →
  hist s !! k = Some hs → timedOut hs = true →
  status nd = Failed
  ∧ GetDDL m nd
    = (Go.Add (begin nd) (effective_timeout m (t0 s) (begin nd)), true)
  ∧ ddl nd ≤ now s.
Proof.
  intros Hwf Hreach Hm Hn Hh Ht.
  pose proof (inv_reachable d s Hwf Hreach) as Hinv.
  assert (Hk : (k < length (dag_metaNodes d))%nat) by by eapply lookup_lt_Some.
  destruct (inv_lookups d s k Hinv Hk) as (m0 & nd0 & hs0 & g & Hm0 & Hn0 & Hh0 & Hg & Hni).
  simplify_eq.
  destruct (ddl_reachable d s Hwf Hreach k m nd hs g Hm Hn Hh Hg)
    as (_ & _ & C2 & _ & C4 & C6).
  destruct (C4 Ht) as [Hs Hd].
  destruct Hni as (_ & _ & (_ & _ & I3 & _) & _).
  split_and!; [by apply I3| |done].
  rewrite (GetDDL_configured m nd (C6 Ht)). by rewrite (C2 Hs).
Qed.

Lemma timeout_not_before_deadline_witness :
  status (default newRuntimeNode (nodes Scenarios.timeout_state !! 0%nat)) = Failed
  ∧ GetDDL (default (newNodeMetadata emptyNode)
              (dag_metaNodes Scenarios.single_dag !! 0%nat))
           (default newRuntimeNode (nodes Scenarios.timeout_state !! 0%nat))
    = (Go.Add (begin (default newRuntimeNode
                        (nodes Scenarios.timeout_state !! 0%nat)))
              (effective_timeout
                 (default (newNodeMetadata emptyNode)
                    (dag_metaNodes Scenarios.single_dag !! 0%nat))
                 (t0 Scenarios.timeout_state)
                 (begin (default newRuntimeNode
                           (nodes Scenarios.timeout_state !! 0%nat)))), true)
  ∧ ddl (default newRuntimeNode (nodes Scenarios.timeout_state !! 0%nat))
    ≤ now Scenarios.timeout_state.
Proof.
  apply (timeout_not_before_deadline Scenarios.single_dag Scenarios.timeout_state
           0%nat _ _
           (default newHistory (hist Scenarios.timeout_state !! 0%nat))).
  - apply wf_dagb_ok. vm_compute. reflexivity.
  - exists Go.unixEpoch, Scenarios.timeout_trace. vm_compute. reflexivity.
  - vm_compute. reflexivity.
  - vm_compute. reflexivity.
  - vm_compute. reflexivity.
  - vm_compute. reflexivity.
Defined.

Lemma effective_timeout_le m t b :
  (0 < localTimeout m → effective_timeout m t b ≤ localTimeout m)
  ∧ (0 < totalTimeout m →
     effective_timeout m t b ≤ Go.Sub (Go.Add t (totalTimeout m)) b).
Proof.
  unfold effective_timeout, minDuration.
  repeat case_match; bool2prop; split; intros; try lia.
Qed.

(** The deadline of a node respects both timeouts: once the closure of
    [processWithTimeout] has closed [started], the deadline is at most
    [localTimeout] after the begin of the node when a local timeout is
    configured, and at most [totalTimeout] after the begin of the run
    when a total timeout is configured. *)
Theorem deadline_within_timeouts d s k m nd :
  wf_dag d → reachable d s →
  dag_metaNodes d !! k = Some m → nodes s !! k = Some nd →
  started nd = true →
  (0 < localTimeout m → ddl nd ≤ begin nd + localTimeout m)
  ∧ (0 < totalTimeout m → Go.MinInt64 ≤ t0 s + totalTimeout m - begin nd →
     ddl nd ≤ t0 s + totalTimeout m).
Proof.
  intros Hwf Hreach Hm Hn Hs.
  pose proof (inv_reachable d s Hwf Hreach) as Hinv.
  assert (Hk : (k < length (dag_metaNodes d))%nat) by by eapply lookup_lt_Some.
  destruct (inv_lookups d s k Hinv Hk) as (m0 & nd0 & hs & g & Hm0 & Hn0 & Hh & Hg & Hni).
  simplify_eq.
  destruct (ddl_reachable d s Hwf Hreach k m nd hs g Hm Hn Hh Hg)
    as (_ & _ & C2 & _).
  rewrite (C2 Hs). unfold Go.Add.
  destruct (effective_timeout_le m (t0 s) (begin nd)) as [E1 E2].
  split.
  - intros Hl. specialize (E1 Hl). lia.
  - intros Ht Hmin. specialize (E2 Ht). unfold Go.Sub, Go.Add in E2. lia.
Qed.

Lemma deadline_within_timeouts_witness :
  (0 < localTimeout (default (newNodeMetadata emptyNode)
                       (dag_metaNodes Scenarios.single_dag !! 0%nat)) →
   ddl (default newRuntimeNode (nodes Scenarios.timeout_state !! 0%nat))
   ≤ begin (default newRuntimeNode (nodes Scenarios.timeout_state !! 0%nat))
     + localTimeout (default (newNodeMetadata emptyNode)
                       (dag_metaNodes Scenarios.single_dag !! 0%nat)))
  ∧ (0 < totalTimeout (default (newNodeMetadata emptyNode)
                         (dag_metaNodes Scenarios.single_dag !! 0%nat)) →
     Go.MinInt64 ≤ t0 Scenarios.timeout_state
                   + totalTimeout (default (newNodeMetadata emptyNode)
                                     (dag_metaNodes Scenarios.single_dag !! 0%nat))
                   - begin (default newRuntimeNode
                              (nodes Scenarios.timeout_state !! 0%nat)) →
     ddl (default newRuntimeNode (nodes Scenarios.timeout_state !! 0%nat))
     ≤ t0 Scenarios.timeout_state
       + totalTimeout (default (newNodeMetadata emptyNode)
                         (dag_metaNodes Scenarios.single_dag !! 0%nat))).
Proof.
  apply (deadline_within_timeouts Scenarios.single_dag Scenarios.timeout_state 0%nat).
  - apply wf_dagb_ok. vm_compute. reflexivity.
  - exists Go.unixEpoch, Scenarios.timeout_trace. vm_compute. reflexivity.
  - vm_compute. reflexivity.
  - vm_compute. reflexivity.
  - vm_compute. reflexivity.
Defined.

(** ** Schedules on which the results differ from the specification *)

(** C3: on the graph of one node with a local timeout, the goroutine
    that [processWithTimeout] started closes [done] before it calls
    [success]; [run] returns on the closed channel, [RunWithPool] passes
    the wait group and collects the results while the status is still
    Running: the result vector holds the status Running (1). *)
Theorem result_status_running :
  ∃ s r,
    run_trace Scenarios.single_dag Scenarios.early_collect_trace
              (init Scenarios.single_dag Go.unixEpoch) = Some s
    ∧ main s = MDone [r] ∧ Status r = Running.
Proof. eexists _, _. vm_compute. split_and!; reflexivity. Qed.

(** C10: on the same graph with a processor that returns an error, the
    goroutine that [processWithTimeout] started has closed [done] and won
    the compare-and-swap of [fail], and has not yet assigned [node.err],
    when the results are collected: the result has the status Failed (3)
    and a nil error. *)
Theorem result_failed_without_error :
  ∃ s r,
    run_trace Scenarios.single_dag Scenarios.early_collect_failed_trace
              (init Scenarios.single_dag Go.unixEpoch) = Some s
    ∧ main s = MDone [r] ∧ Status r = Failed ∧ Err r = None.
Proof. eexists _, _. vm_compute. split_and!; reflexivity. Qed.

(** C6: the node [n2] (index 0) is marked Failed with the timeout error
    at the entry of [run], its begin timestamp is the zero time and its
    [done] channel is never closed; the cost in its result is
    [time.Since] of the zero time, which is the maximum duration
    9223372036854775807ns (about 292 years), not a value close to 0. *)
Theorem result_cost_of_expired_node :
  ∃ s r0 r1,
    run_trace Scenarios.chain_dag Scenarios.chain_trace
              (init Scenarios.chain_dag Go.unixEpoch) = Some s
    ∧ main s = MDone [r0; r1]
    ∧ Status r0 = Failed ∧ Err r0 = Some TimeoutErr ∧ Attempts r0 = 0
    ∧ Begin r0 = 0 ∧ Cost r0 = 9223372036854775807.
Proof. eexists _, _, _. vm_compute. split_and!; reflexivity. Qed.

End RuntimeFacts.

(** * Facts about the pool *)

Module PoolFacts.
Import Pool.

(** C8: with one worker, the thunk 1 is dispatched and the thunk 2 is
    queued; when thunk 1 returns, the worker takes the function of the
    task at the head of the queue, which is the task allocated by
    [NewPool] and holds the nil function, and calls it: the program
    panics, and the queued thunk 2 is never executed. *)
Theorem queued_thunk_not_executed :
  ∃ s,
    steps (start 1) [ESubmit (Some 1%nat); ESubmit (Some 2%nat); EReturn 0] = Some s
    ∧ panicked s = true ∧ log s = [1%nat] ∧ len (pool s) = 0.
Proof. eexists. vm_compute. split_and!; reflexivity. Qed.

End PoolFacts.

(** * Further facts about the pool *)

Module PoolInvariants.
Import Pool PoolSpec.

#[local] Arguments Go.wrapInt : simpl never.

Lemma wrapInt_small x : Go.MinInt64 ≤ x ≤ Go.MaxInt64 → Go.wrapInt x = x.
Proof.
  unfold Go.wrapInt, Go.MinInt64, Go.MaxInt64. intros H.
  rewrite Z.mod_small; lia.
Qed.

Lemma pool_inv_start m : pool_inv m (start m).
Proof.
  unfold pool_inv, start. simpl. split_and!; try done; try lia.
  intros _. split_and!; try done; eauto.
Qed.

Lemma pool_inv_step m s e s' :
  m ≤ Go.MaxInt64 → Z.of_nat (length (store (pool s))) ≤ Go.MaxInt64 →
  pool_inv m s → step s e = Some s' → pool_inv m s'.
Proof.
  intros Hm Hst (Hmax & Hw & Hnp) Hstep. unfold step in Hstep.
  destruct (panicked s) eqn:Hp; [done|].
  destruct (Hnp eq_refl) as (Hw' & Hh & (nx & H0) & [t Ht] & Hlen).
  destruct e as [g|w].
  - unfold Submit in Hstep. destruct g as [g|]; [|by simplify_eq].
    destruct (workers (pool s) <? maxWorkers (pool s)) eqn:Hlt; RuntimeFacts.bool2prop.
    + simplify_eq. unfold pool_inv. simpl.
      rewrite wrapInt_small by (unfold Go.MinInt64, Go.MaxInt64 in *; lia).
      rewrite length_app. simpl.
      split_and!; try done; try lia.
      intros _. split_and!; eauto; lia.
    + rewrite Ht in Hstep. simplify_eq. unfold pool_inv. simpl.
      split_and!; try done; try lia.
      intros _.
      rewrite wrapInt_small by (unfold Go.MinInt64, Go.MaxInt64 in *; lia).
      rewrite length_alter, length_app. simpl.
      split_and!; try done; try lia; eauto.
      destruct (decide (t = 0%nat)) as [->|Hne].
      * rewrite list_lookup_alter_eq, lookup_app_l, H0; [simpl; eauto|].
        apply lookup_lt_Some in H0. done.
      * rewrite list_lookup_alter_ne by done.
        rewrite lookup_app_l, H0; [eauto|]. by apply lookup_lt_Some in H0.
  - destruct (running s !! w) as [g|] eqn:Hr; [|done].
    assert (Hlw : (w < length (running s))%nat) by by apply lookup_lt_Some in Hr.
    unfold work_fetch in Hstep.
    destruct (0 <? len (pool s)) eqn:Hl; RuntimeFacts.bool2prop.
    + assert (E : head (pool s) ≫= (λ a, store (pool s) !! a)
                  = Some (mkTask None nx)) by (rewrite Hh; exact H0).
      rewrite E in Hstep. simplify_eq/=.
      unfold pool_inv. simpl. rewrite length_delete by eauto.
      split_and!; try done; lia.
    + simplify_eq/=. unfold pool_inv. simpl. rewrite length_delete by eauto.
      rewrite wrapInt_small by (unfold Go.MinInt64, Go.MaxInt64 in *; lia).
      split_and!; try done; try lia.
      intros _. split_and!; eauto; lia.
Qed.

Lemma store_step s e s' :
  step s e = Some s' →
  (length (store (pool s')) ≤ S (length (store (pool s))))%nat.
Proof.
  unfold step, Submit, work_fetch. intros H.
  repeat (case_match; simplify_eq/=); rewrite ?length_alter, ?length_app; simpl; lia.
Qed.

Lemma pool_inv_steps m es s s' :
  m ≤ Go.MaxInt64 →
  Z.of_nat (length (store (pool s)) + length es) ≤ Go.MaxInt64 →
  pool_inv m s → steps s es = Some s' → pool_inv m s'.
Proof.
  intros Hm. revert s. induction es as [|e es IH]; intros s Hb Hinv Hs; simpl in Hs.
  - by simplify_eq.
  - destruct (step s e) as [s1|] eqn:E; [|done].
    pose proof (store_step s e s1 E). simpl in Hb.
    apply (IH s1); [lia| |done].
    eapply pool_inv_step; [done| |done..]. lia.
Qed.

(** [Submit] and [work]: for a pool created by [NewPool(m)] and every
    sequence of submissions and thunk returns, the worker count never
    exceeds [max(0, m)], is at least the number of live workers, and is
    equal to it as long as no goroutine has panicked. *)
Theorem workers_within_bound m es s :
  m ≤ Go.MaxInt64 → Z.of_nat (length es) < Go.MaxInt64 →
  steps (start m) es = Some s →
  Z.of_nat (length (running s)) ≤ workers (pool s) ≤ Z.max 0 m
  ∧ (panicked s = false → workers (pool s) = Z.of_nat (length (running s))).
Proof.
  intros Hm Hb Hs.
  destruct (pool_inv_steps m es (start m) s Hm) as (_ & Hw & Hnp); try done.
  - simpl. lia.
  - apply pool_inv_start.
  - split; [done|]. intros Hp. by destruct (Hnp Hp).
Qed.

Lemma workers_within_bound_witness :
  ∃ s, steps (start 2) [ESubmit (Some 1%nat); ESubmit (Some 2%nat);
                        ESubmit (Some 3%nat); EReturn 0]
       = Some s ∧ workers (pool s) ≤ 2.
Proof.
  eexists. split; [vm_compute; reflexivity|].
  refine (proj2 (proj1 (workers_within_bound 2
            [ESubmit (Some 1%nat); ESubmit (Some 2%nat); ESubmit (Some 3%nat); EReturn 0]
            _ _ _ _))).
  - vm_compute. discriminate.
  - vm_compute. reflexivity.
  - vm_compute. reflexivity.
Defined.

(** [work]: as long as no goroutine has panicked, the head of the queue
    is the task that [NewPool] allocated and [len] counts the thunks
    queued behind it, none of which has been executed; a worker whose
    thunk returns while the queue is not empty takes the nil function of
    that task and panics, without having executed any queued thunk. *)
Theorem return_with_queued_thunks_panics m es s w :
  m ≤ Go.MaxInt64 → Z.of_nat (length es) < Go.MaxInt64 →
  steps (start m) es = Some s → panicked s = false →
  Z.of_nat (length (store (pool s))) = len (pool s) + 1
  ∧ (is_Some (running s !! w) → 0 < len (pool s) →
     ∃ s', step s (EReturn w) = Some s'
           ∧ panicked s' = true ∧ log s' = log s).
Proof.
  intros Hm Hb Hs Hp.
  destruct (pool_inv_steps m es (start m) s Hm) as (_ & _ & Hnp); try done.
  - simpl. lia.
  - apply pool_inv_start.
  - destruct (Hnp Hp) as (_ & Hh & (nx & H0) & _ & Hlen).
    split; [done|]. intros [g Hr] Hl.
    assert (E : head (pool s) ≫= (λ a, store (pool s) !! a)
                = Some (mkTask None nx)) by (rewrite Hh; exact H0).
    unfold step, work_fetch. rewrite Hp, Hr.
    apply Z.ltb_lt in Hl. rewrite Hl, E. simpl.
    eexists. split_and!; done.
Qed.

Lemma return_with_queued_thunks_panics_witness :
  ∃ s', step (default (start 1)
                (steps (start 1) [ESubmit (Some 1%nat); ESubmit (Some 2%nat)]))
             (EReturn 0) = Some s' ∧ panicked s' = true.
Proof.
  destruct (return_with_queued_thunks_panics 1
              [ESubmit (Some 1%nat); ESubmit (Some 2%nat)]
              (default (start 1)
                 (steps (start 1) [ESubmit (Some 1%nat); ESubmit (Some 2%nat)]))
              0%nat) as [_ H].
  - vm_compute. discriminate.
  - vm_compute. reflexivity.
  - vm_compute. reflexivity.
  - vm_compute. reflexivity.
  - destruct H as (s' & Hs' & Hp & _).
    + vm_compute. eauto.
    + vm_compute. reflexivity.
    + exists s'. split; assumption.
Defined.

(** [Submit] with a bound that is not positive: a pool created by
    [NewPool(m)] with [m ≤ 0] never starts a worker, so no submitted thunk
    is ever executed; every non-nil thunk is appended to the queue. *)
Theorem no_worker_without_capacity m es s :
  m ≤ 0 → steps (start m) es = Some s →
  running s = [] ∧ log s = [] ∧ panicked s = false.
Proof.
  intros Hm Hs.
  assert (Hgen : ∀ s0, running s0 = [] → log s0 = [] → panicked s0 = false →
            workers (pool s0) = 0 → maxWorkers (pool s0) ≤ 0 →
            is_Some (tail (pool s0)) →
            steps s0 es = Some s →
            running s = [] ∧ log s = [] ∧ panicked s = false).
  { clear Hs. induction es as [|e es IH]; intros s0 Hr Hlg Hp Hw Hmx Ht Hs0;
      simpl in Hs0.
    - by simplify_eq.
    - destruct (step s0 e) as [s1|] eqn:E; [|done].
      unfold step in E. rewrite Hp in E. destruct e as [g|w].
      + unfold Submit in E. destruct g as [g|].
        * assert ((workers (pool s0) <? maxWorkers (pool s0)) = false) as Hlt.
          { apply Z.ltb_ge. lia. }
          rewrite Hlt in E. destruct Ht as [t Ht]. rewrite Ht in E.
          injection E as <-. apply IH in Hs0; simpl; try done; by eexists.
        * injection E as <-. apply IH in Hs0; try done.
      + rewrite Hr in E. done. }
  apply (Hgen (start m)); try done; by eexists.
Qed.

Lemma no_worker_without_capacity_witness :
  ∃ s, steps (start 0) [ESubmit (Some 1%nat); ESubmit None] = Some s ∧ log s = [].
Proof.
  eexists. split; [vm_compute; reflexivity|].
  refine (proj1 (proj2 (no_worker_without_capacity 0
            [ESubmit (Some 1%nat); ESubmit None] _ _ _))).
  - lia.
  - vm_compute. reflexivity.
Defined.

End PoolInvariants.

(** * Facts about the Mermaid output *)

Module MermaidFacts.
Import MermaidSpec.

Lemma append_assoc (a b c : string) : a +:+ (b +:+ c) = (a +:+ b) +:+ c.
Proof.
  induction a as [|x a IH]; [done|].
  change (String x (a +:+ (b +:+ c)) = String x ((a +:+ b) +:+ c)).
  by rewrite IH.
Qed.

Lemma append_nil_r (a : string) : a +:+ "" = a.
Proof.
  induction a as [|x a IH]; [done|].
  change (String x (a +:+ "") = String x a). by rewrite IH.
Qed.

Lemma write_all_app {W} (wr : StringWriter W) l1 l2 w :
  write_all wr (l1 ++ l2) w
  = match write_all wr l1 w with
    | (w1, Some e) => (w1, Some e)
    | (w1, None) => write_all wr l2 w1
    end.
Proof.
  revert w. induction l1 as [|x l1 IH]; intros w; simpl; [done|].
  destruct (WriteString wr w x) as [w' [e|]]; [done|apply IH].
Qed.

Lemma WriteAsMermaid_lines {W} (wr : StringWriter W) dag w :
  WriteAsMermaid wr dag w = write_all wr (mermaid_lines dag) w.
Proof.
  unfold WriteAsMermaid, mermaid_lines. simpl.
  destruct (WriteString wr w _) as [w1 [e|]]; [done|].
  by rewrite write_all_app.
Qed.

Lemma write_all_Builder lines w :
  write_all Builder lines w = (w +:+ foldr String.append "" lines, None).
Proof.
  revert w. induction lines as [|x lines IH]; intros w; simpl.
  - by rewrite append_nil_r.
  - by rewrite IH, append_assoc.
Qed.

(** [ToMermaid]: for every graph the text is the header [graph TB], then
    the line [i(name)] of every metadata node in index order, then, node
    by node in index order, the lines [i --> c] of its strong children
    followed by the lines [i -.-> c] of its weak children, each in the
    order of the adjacency list; every line ends with a line feed and is
    indented by four spaces. *)
Theorem ToMermaid_text dag :
  ToMermaid dag
  = "graph TB" +:+ Go.nl
    +:+ foldr String.append ""
          (imap (λ i node, "    " +:+ Go.fmt_d (Z.of_nat i) +:+ "(" +:+ name node
                           +:+ ")" +:+ Go.nl) (dag_metaNodes dag))
    +:+ foldr String.append ""
          (concat (imap (λ i node,
             map (λ c, "    " +:+ Go.fmt_d (Z.of_nat i) +:+ " --> "
                       +:+ Go.fmt_d (Z.of_nat c) +:+ Go.nl) (children node)
             ++ map (λ c, "    " +:+ Go.fmt_d (Z.of_nat i) +:+ " -.-> "
                          +:+ Go.fmt_d (Z.of_nat c) +:+ Go.nl) (weakChildren node))
             (dag_metaNodes dag))).
Proof.
  unfold ToMermaid. rewrite WriteAsMermaid_lines, write_all_Builder.
  unfold mermaid_lines. simpl.
  rewrite foldr_app.
  assert (Happ : ∀ l1 s, foldr String.append s l1 = foldr String.append "" l1 +:+ s).
  { induction l1 as [|x l1 IH]; intros s; simpl; [done|].
    by rewrite IH, append_assoc. }
  rewrite Happ. rewrite <- !append_assoc. done.
Qed.

(** [WriteAsMermaid] on any writer: the strings are written in the order
    of the text, and the first write that fails ends the call, which
    returns the error of that write; the strings after it are not
    written. *)
Theorem WriteAsMermaid_stops_at_first_error {W} (wr : StringWriter W)
    dag w l1 x l2 w1 w2 e :
  mermaid_lines dag = l1 ++ x :: l2 →
  write_all wr l1 w = (w1, None) →
  WriteString wr w1 x = (w2, Some e) →
  WriteAsMermaid wr dag w = (w2, Some e).
Proof.
  intros Hl H1 Hx. rewrite WriteAsMermaid_lines, Hl, write_all_app, H1.
  simpl. by rewrite Hx.
Qed.

Lemma WriteAsMermaid_stops_at_first_error_witness :
  WriteAsMermaid limited (Scenarios.dag_of Examples.example_heap [Some 2%nat])
                 (2%nat, "")
  = ((0%nat, "graph TB" +:+ Go.nl +:+ "    0(node3)" +:+ Go.nl), Some "short write").
Proof.
  apply (WriteAsMermaid_stops_at_first_error limited _ _
           (take 2 (mermaid_lines (Scenarios.dag_of Examples.example_heap [Some 2%nat])))
           ("    1(node2)" +:+ Go.nl)
           (drop 3 (mermaid_lines (Scenarios.dag_of Examples.example_heap [Some 2%nat])))
           (0%nat, "graph TB" +:+ Go.nl +:+ "    0(node3)" +:+ Go.nl)).
  - vm_compute. reflexivity.
  - vm_compute. reflexivity.
  - vm_compute. reflexivity.
Defined.

(** [WriteAsMermaid] on a writer whose writes all succeed returns the
    nil error after having written every string of the text. *)
Theorem WriteAsMermaid_no_error {W} (wr : StringWriter W) dag w :
  (∀ w' s, (WriteString wr w' s).2 = None) →
  (WriteAsMermaid wr dag w).2 = None
  ∧ (WriteAsMermaid wr dag w).1
    = foldl (λ w' s, (WriteString wr w' s).1) w (mermaid_lines dag).
Proof.
  intros Hok. rewrite WriteAsMermaid_lines.
  generalize (mermaid_lines dag) as lines. intros lines. revert w.
  induction lines as [|x lines IH]; intros w; simpl; [done|].
  specialize (Hok w x). destruct (WriteString wr w x) as [w' [e|]]; [done|].
  apply IH.
Qed.

Lemma WriteAsMermaid_no_error_witness :
  (WriteAsMermaid Builder (Scenarios.dag_of Examples.example_heap [Some 2%nat]) "").2
  = None.
Proof.
  refine (proj1 (WriteAsMermaid_no_error Builder _ "" _)).
  intros w' s. reflexivity.
Defined.

End MermaidFacts.

(** * Facts about the builder *)

Module BuilderFacts.
Import Runtime BuilderSpec.

Lemma heap_okb_ok h : heap_okb h = true → heap_ok h.
Proof.
  unfold heap_okb. rewrite forallb_forall. intros H p nd Hp.
  apply list_elem_of_lookup_2, list_elem_of_In in Hp. specialize (H nd Hp).
  rewrite forallb_forall in H. apply Forall_forall. intros o Ho.
  apply list_elem_of_In, H in Ho. destruct o as [q|]; simpl in *; [|done].
  by apply Nat.ltb_lt.
Qed.

Lemma occ_snoc c l x : occ c (l ++ [x]) = (occ c l + b2n (x =? c)%nat)%nat.
Proof. rewrite RuntimeFacts.occ_app. simpl. lia. Qed.

Lemma sum_list_with_alter {A} (f : A → nat) (g : A → A) (l : list A) j x :
  l !! j = Some x →
  (sum_list_with f (alter g j l) + f x = sum_list_with f l + f (g x))%nat.
Proof.
  revert j. induction l as [|a l IH]; intros [|j] H; simplify_eq/=; [lia|].
  specialize (IH j H). lia.
Qed.

Lemma sum_list_with_alter_same {A} (f : A → nat) (g : A → A) (l : list A) j :
  (∀ x, f (g x) = f x) → sum_list_with f (alter g j l) = sum_list_with f l.
Proof.
  intros Hf. revert j. induction l as [|a l IH]; intros [|j]; simpl; auto.
  f_equal. apply IH.
Qed.

Lemma indeg_push ms m c :
  children m = [] → weakChildren m = [] → indeg (ms ++ [m]) c = indeg ms c.
Proof.
  intros H1 H2. unfold indeg. rewrite sum_list_with_app. simpl.
  unfold edges_into. rewrite H1, H2. simpl. lia.
Qed.

Lemma indeg_link ms weak idx dep c :
  (dep < length ms)%nat →
  indeg (alter incr_depCnt idx
           (alter (if weak : bool then add_weakChild idx else add_child idx) dep ms)) c
  = (indeg ms c + b2n (idx =? c)%nat)%nat.
Proof.
  intros Hd. unfold indeg.
  rewrite sum_list_with_alter_same by (by intros []).
  destruct (lookup_lt_is_Some_2 ms dep Hd) as [m Hm].
  pose proof (sum_list_with_alter (edges_into c)
                (if weak then add_weakChild idx else add_child idx) ms dep m Hm) as E.
  assert (edges_into c ((if weak then add_weakChild idx else add_child idx) m)
          = (edges_into c m + b2n (idx =? c)%nat)%nat) as E2.
  { unfold edges_into. destruct weak; simpl; rewrite occ_snoc; lia. }
  lia.
Qed.

Lemma newNodeMetadata_fresh node :
  children (newNodeMetadata node) = [] ∧ weakChildren (newNodeMetadata node) = []
  ∧ depCnt (newNodeMetadata node) = 0 ∧ name (newNodeMetadata node) ≠ ""
  ∧ maxAttempts (newNodeMetadata node) = MaxAttempts node.
Proof.
  unfold newNodeMetadata. simpl.
  destruct (String.eqb (Name node) "") eqn:E; simpl; split_and!; try done.
  apply String.eqb_neq in E. done.
Qed.

Lemma meta_ok_push ms node : meta_ok ms → meta_ok (ms ++ [newNodeMetadata node]).
Proof.
  intros H k m Hk.
  destruct (newNodeMetadata_fresh node) as (C1 & C2 & C3 & C4 & _).
  rewrite indeg_push by done. rewrite length_app. simpl.
  apply lookup_app_Some in Hk as [Hk|[Hge Hk]].
  - destruct (H k m Hk) as (A1 & A2 & A3). split_and!; try done.
    eapply Forall_impl; [exact A1|]. simpl. intros; lia.
  - apply list_lookup_singleton_Some in Hk as [Hk0 <-].
    rewrite C1, C2. split_and!; try done.
    intros _. rewrite C3.
    assert (indeg ms k = 0%nat) as ->; [|done].
    unfold indeg. assert (Hall : ∀ m', m' ∈ ms → edges_into k m' = 0%nat).
    { intros m' Hin. apply list_elem_of_lookup in Hin as [j Hj].
      destruct (H j m' Hj) as (A1 & _). rewrite Forall_app in A1. destruct A1 as [B1 B2].
      unfold edges_into.
      assert (Hz : ∀ l, Forall (λ c, (c < length ms)%nat) l → occ k l = 0%nat).
      { induction 1 as [|x l Hx _ IH]; simpl; [done|].
        assert ((x =? k)%nat = false) as -> by (apply Nat.eqb_neq; lia).
        simpl. done. }
      rewrite (Hz _ B1), (Hz _ B2). done. }
    clear -Hall. induction ms as [|a ms IH]; simpl; [done|].
    rewrite Hall by apply list_elem_of_here. rewrite IH; [done|].
    intros m' Hin. apply Hall. by apply list_elem_of_further.
Qed.

Lemma meta_ok_link b weak idx dep :
  meta_ok (metaNodes b) →
  (idx < length (metaNodes b))%nat → (dep < length (metaNodes b))%nat →
  meta_ok (metaNodes (link weak idx dep b)).
Proof.
  intros H Hi Hd. unfold link. simpl. intros k m Hk.
  rewrite indeg_link by done. rewrite !length_alter.
  assert (Hpre : ∃ m0, metaNodes b !! k = Some m0
            ∧ name m = name m0
            ∧ depCnt m = (if (k =? idx)%nat then Go.wrap32 (depCnt m0 + 1)
                          else depCnt m0)
            ∧ ∃ extra, children m ++ weakChildren m ≡ₚ
                       children m0 ++ weakChildren m0 ++ extra
                       ∧ Forall (λ c, c = idx) extra).
  { assert (Hperm1 : ∀ m0 x, children ((if weak then add_weakChild x else add_child x) m0)
                             ++ weakChildren ((if weak then add_weakChild x
                                               else add_child x) m0)
                             ≡ₚ children m0 ++ weakChildren m0 ++ [x]).
    { intros m0 x. destruct weak; simpl.
      - by rewrite app_assoc.
      - rewrite <- !app_assoc. apply Permutation_app_head.
        simpl. apply Permutation_cons_append. }
    destruct (decide (k = idx)) as [->|Hne1].
    - rewrite list_lookup_alter_eq in Hk.
      destruct (decide (idx = dep)) as [->|Hne2].
      + rewrite list_lookup_alter_eq in Hk.
        destruct (metaNodes b !! dep) as [m0|] eqn:E; simplify_eq/=.
        exists m0. split; [done|]. split; [by destruct weak|].
        split; [rewrite Nat.eqb_refl; by destruct weak|].
        exists [dep]. split; [apply Hperm1|by constructor].
      + rewrite list_lookup_alter_ne in Hk by done.
        destruct (metaNodes b !! idx) as [m0|] eqn:E; simplify_eq/=.
        exists m0. split; [done|]. split; [done|].
        split; [by rewrite Nat.eqb_refl|].
        exists []. rewrite !app_nil_r. done.
    - rewrite list_lookup_alter_ne in Hk by done.
      destruct (decide (k = dep)) as [->|Hne2].
      + rewrite list_lookup_alter_eq in Hk.
        destruct (metaNodes b !! dep) as [m0|] eqn:E; simplify_eq/=.
        exists m0. split; [done|]. split; [by destruct weak|].
        split; [rewrite (proj2 (Nat.eqb_neq _ _)) by done; by destruct weak|].
        exists [idx]. split; [apply Hperm1|by constructor].
      + rewrite list_lookup_alter_ne in Hk by done.
        exists m. split; [done|]. split; [done|].
        split; [by rewrite (proj2 (Nat.eqb_neq _ _)) by done|].
        exists []. rewrite !app_nil_r. done. }
  destruct Hpre as (m0 & Hm0 & En & Ed & extra & Hperm & Hex).
  destruct (H k m0 Hm0) as (A1 & A2 & A3).
  split_and!.
  - rewrite Hperm. rewrite app_assoc. apply Forall_app. split; [done|].
    eapply Forall_impl; [exact Hex|]. simpl. intros ? ->. done.
  - intros Hlt. rewrite Ed. destruct (decide (k = idx)) as [->|Hne].
    + rewrite Nat.eqb_refl in *. simpl in *.
      rewrite A2 by lia. rewrite RuntimeFacts.wrap32_small by lia. lia.
    + assert ((idx =? k)%nat = false) as E by (apply Nat.eqb_neq; done).
      assert ((k =? idx)%nat = false) as E' by (apply Nat.eqb_neq; done).
      rewrite E, E' in *. simpl in *. rewrite Nat.add_0_r in *. auto.
  - by rewrite En.
Qed.

Lemma extends_refl b : extends b b.
Proof. by unfold extends. Qed.

Lemma extends_trans b1 b2 b3 : extends b1 b2 → extends b2 b3 → extends b1 b3.
Proof.
  intros (A1 & A2 & A3 & A4 & A5 & A6) (B1 & B2 & B3 & B4 & B5 & B6).
  unfold extends.
  split_and!; [lia|by etrans|congruence|congruence|auto|auto].
Qed.

Lemma children_out_of_range (ms : list nodeMetadata) j :
  (length ms ≤ j)%nat →
  children (ms !!! j) = [] ∧ weakChildren (ms !!! j) = [].
Proof.
  intros Hj. rewrite list_lookup_total_alt, (lookup_ge_None_2 ms j Hj). done.
Qed.

Lemma index_size_bound h b : builder_ok h b → (size (index b) ≤ length h)%nat.
Proof.
  intros (_ & H & _). rewrite <- size_dom.
  rewrite <- (size_set_seq (C:=gset nat) 0 (length h)).
  apply subseteq_size. intros p Hp. apply elem_of_dom in Hp as [i Hi].
  apply elem_of_set_seq. split; [lia|]. simpl. by destruct (H p i Hi).
Qed.

Lemma link_lookup b weak idx dep i m :
  metaNodes (link weak idx dep b) !! i = Some m →
  ∃ m0, metaNodes b !! i = Some m0
    ∧ children m
      = children m0 ++ (if decide (i = dep ∧ weak = false) then [idx] else [])
    ∧ weakChildren m
      = weakChildren m0 ++ (if decide (i = dep ∧ weak = true) then [idx] else []).
Proof.
  unfold link. simpl.
  destruct (decide (idx = i)) as [->|N1]; destruct (decide (dep = i)) as [->|N2];
    rewrite ?list_lookup_alter_eq, ?list_lookup_alter_ne by done;
    rewrite ?list_lookup_alter_eq, ?list_lookup_alter_ne by done;
    destruct (metaNodes b !! i) as [m0|] eqn:E; simpl; intros [= <-];
    exists m0; (split; [done|]); destruct weak; simpl;
    repeat case_decide; destruct_and?; try done; simpl;
    rewrite ?app_nil_r; try done; exfalso; naive_solver.
Qed.

Lemma builder_ok_link h b (weak : bool) idx dep node dq :
  builder_ok h b →
  (idx < length (metaNodes b))%nat → (dep < length (metaNodes b))%nat →
  index b !! node = Some idx → index b !! dq = Some dep →
  Some dq ∈ (if weak then WeakDependencies (h !!! node)
             else Dependencies (h !!! node)) →
  builder_ok h (link weak idx dep b) ∧ extends b (link weak idx dep b).
Proof.
  intros (Hm & Hi & I1 & I2 & I3 & I4 & I5) H1 H2 Hnode Hdq Hin.
  assert (Hmono : ∀ j m0, metaNodes b !! j = Some m0 →
            ∃ m, metaNodes (link weak idx dep b) !! j = Some m
              ∧ children m = children m0
                  ++ (if decide (j = dep ∧ weak = false) then [idx] else [])
              ∧ weakChildren m = weakChildren m0
                  ++ (if decide (j = dep ∧ weak = true) then [idx] else [])).
  { intros j m0 Hj.
    destruct (metaNodes (link weak idx dep b) !! j) as [m|] eqn:E.
    - destruct (link_lookup _ _ _ _ _ _ E) as (m0' & Hj' & ? & ?).
      exists m. by simplify_eq.
    - apply lookup_ge_None in E. apply lookup_lt_Some in Hj.
      unfold link in E. simpl in E. rewrite !length_alter in E. lia. }
  split; [unfold builder_ok, interned; split_and!|].
  - by apply meta_ok_link.
  - unfold link. simpl. rewrite !length_alter. exact Hi.
  - unfold link. simpl. intros p i Hp. destruct (I1 p i Hp) as (m & Hmi & Hsf).
    assert (Hk : ∀ (f : nodeMetadata → nodeMetadata) (j : nat)
                   (l : list nodeMetadata) m0,
              (∀ x, same_fields (f x) x) → l !! i = Some m0 →
              ∃ m1, alter f j l !! i = Some m1 ∧ same_fields m1 m0).
    { intros f j l m0 Hf Hl. destruct (decide (j = i)) as [->|Hne].
      - rewrite list_lookup_alter_eq, Hl. simpl. eauto.
      - rewrite list_lookup_alter_ne by done. exists m0. split; [done|].
        by unfold same_fields. }
    destruct (Hk (if weak then add_weakChild idx else add_child idx) dep
                 (metaNodes b) m)
      as (m1 & Hm1 & Hs1); [by destruct weak|done|].
    destruct (Hk incr_depCnt idx _ m1 ltac:(done) Hm1) as (m2 & Hm2 & Hs2).
    exists m2. split; [done|].
    unfold same_fields in *. destruct_and?. split_and!; congruence.
  - exact I2.
  - unfold link. simpl. rewrite !length_alter. exact I3.
  - intros i m c Hl. apply link_lookup in Hl as (m0 & Hl & -> & ->).
    destruct (I4 i m0 c Hl) as [E1 E2].
    split; intros Hc; apply (elem_of_app (A:=nat)) in Hc as [Hc|Hc]; auto;
      case_decide as Hd; try (by apply elem_of_nil in Hc);
      apply list_elem_of_singleton in Hc as ->;
      destruct Hd as [-> ->]; by exists node, dq.
  - unfold link. simpl. rewrite !length_alter. exact I5.
  - unfold extends. split_and!.
    + unfold link. simpl. by rewrite !length_alter.
    + done.
    + done.
    + done.
    + intros j c Hc. destruct (metaNodes b !! j) as [m0|] eqn:E.
      * destruct (Hmono j m0 E) as (m & Hl & Hch & _).
        rewrite (list_lookup_total_correct _ _ _ E) in Hc.
        rewrite (list_lookup_total_correct _ _ _ Hl), Hch.
        apply elem_of_app. by left.
      * apply lookup_ge_None in E.
        destruct (children_out_of_range _ _ E) as [Hn _]. rewrite Hn in Hc.
        by apply elem_of_nil in Hc.
    + intros j c Hc. destruct (metaNodes b !! j) as [m0|] eqn:E.
      * destruct (Hmono j m0 E) as (m & Hl & _ & Hch).
        rewrite (list_lookup_total_correct _ _ _ E) in Hc.
        rewrite (list_lookup_total_correct _ _ _ Hl), Hch.
        apply elem_of_app. by left.
      * apply lookup_ge_None in E.
        destruct (children_out_of_range _ _ E) as [_ Hn]. rewrite Hn in Hc.
        by apply elem_of_nil in Hc.
Qed.

(** The edge that [link] adds. *)
Lemma link_edge b (weak : bool) idx dep :
  (dep < length (metaNodes b))%nat →
  idx ∈ (if weak then weakChildren (metaNodes (link weak idx dep b) !!! dep)
         else children (metaNodes (link weak idx dep b) !!! dep)).
Proof.
  intros Hd. destruct (lookup_lt_is_Some_2 _ _ Hd) as [m0 E].
  destruct (metaNodes (link weak idx dep b) !! dep) as [m|] eqn:El.
  - destruct (link_lookup _ _ _ _ _ _ El) as (m0' & Hj' & Hc & Hw).
    rewrite (list_lookup_total_correct _ _ _ El).
    destruct weak; [rewrite Hw|rewrite Hc]; rewrite decide_True by done;
      apply elem_of_app; right; by apply list_elem_of_singleton.
  - apply lookup_ge_None in El. unfold link in El. simpl in El.
    rewrite !length_alter in El. lia.
Qed.

Lemma complete_extends h b b' O :
  index b' = index b → extends b b' → complete h b O → complete h b' O.
Proof.
  intros Hi (_ & _ & _ & _ & M1 & M2) Hc p i q Hp HO.
  rewrite Hi in *. destruct (Hc p i q Hp HO) as [C1 C2].
  split; intros Hq; [destruct (C1 Hq) as (j & ? & ?)|destruct (C2 Hq) as (j & ? & ?)];
    exists j; auto.
Qed.


Lemma add_loop_spec h rec n (weak : bool) idx node deps b :
  interns h rec n →
  Forall (λ o, ptr_ok h o
               ∧ o ∈ (if weak then WeakDependencies (h !!! node)
                      else Dependencies (h !!! node))) deps →
  builder_ok h b → (idx < length (metaNodes b))%nat → (n ≤ size (index b))%nat →
  index b !! node = Some idx →
  ∀ O, complete h b O →
  ∃ b', add_loop rec weak idx deps b = Some b' ∧ builder_ok h b' ∧ extends b b'
    ∧ complete h b' O
    ∧ ∀ q, Some q ∈ deps →
        ∃ j, index b' !! q = Some j
          ∧ idx ∈ (if weak then weakChildren (metaNodes b' !!! j)
                   else children (metaNodes b' !!! j)).
Proof.
  intros Hrec Hdeps. revert b.
  induction Hdeps as [|o deps [Ho Hin] _ IH];
    intros b Hok Hidx Hn Hnode O Hcomp; simpl.
  - exists b. split_and!; [done|done|apply extends_refl|done|].
    intros q Hq. by apply elem_of_nil in Hq.
  - destruct o as [dep|]; cycle 1.
    { destruct (IH b Hok Hidx Hn Hnode O Hcomp) as (b' & E & ? & ? & ? & Hq).
      exists b'. split_and!; [exact E|done|done|done|].
      intros q Hq'. apply elem_of_cons in Hq' as [?|Hq']; [done|]. auto. }
    destruct (Hrec dep b O Ho Hok Hcomp Hn)
      as ([b1 depIdx] & -> & Hok1 & Hext1 & Hdep & Hcomp1).
    simpl in *.
    assert (Hd : (depIdx < length (metaNodes b1))%nat).
    { destruct Hok1 as (_ & Hi & _). by destruct (Hi dep depIdx Hdep). }
    assert (Hidx1 : (idx < length (metaNodes b1))%nat).
    { destruct Hext1 as (? & _). lia. }
    assert (Hnode1 : index b1 !! node = Some idx).
    { destruct Hext1 as (_ & Hsub & _). by eapply lookup_weaken. }
    destruct (builder_ok_link h b1 weak idx depIdx node dep Hok1 Hidx1 Hd
                Hnode1 Hdep Hin) as [Hok2 Hext2].
    destruct (IH (link weak idx depIdx b1)) with (O := O)
      as (b' & E & Hok' & Hext' & Hcomp' & Hq); try done.
    { unfold link. simpl. by rewrite !length_alter. }
    { destruct Hext1 as (_ & Hsub & _). apply map_subseteq_size in Hsub.
      unfold link. simpl. lia. }
    { exact (complete_extends h b1 (link weak idx depIdx b1) O eq_refl
               Hext2 Hcomp1). }
    exists b'. split_and!; try done.
    { eapply extends_trans; [exact Hext1|].
      eapply extends_trans; [exact Hext2|done]. }
    intros q Hq'. apply elem_of_cons in Hq' as [[= ->]|Hq']; [|auto].
    exists depIdx. destruct Hext' as (_ & Hsub & _ & _ & M1 & M2). split.
    { eapply lookup_weaken; [|exact Hsub]. done. }
    pose proof (link_edge b1 weak idx depIdx Hd) as He.
    destruct weak; auto.
Qed.

(** [add] with fuel [fuel] returns whenever the index already holds more
    than [length h - fuel] definitions. *)
Lemma add_interns h fuel :
  heap_ok h → interns h (add fuel h) (S (length h) - fuel).
Proof.
  intros Hh. induction fuel as [|fuel IH]; intros node b O Hnode Hok Hcomp Hn.
  - pose proof (index_size_bound h b Hok) as Hsz. lia.
  - assert (Hunf : ∀ o, o = index b !! node →
              add (S fuel) h node b
              = match o with
                | Some idx => Some (b, idx)
                | None =>
                    let idx := length (metaNodes b) in
                    let b1 := mkBuilder (metaNodes b ++ [newNodeMetadata (h !!! node)])
                                (<[node := idx]> (index b)) (visited b) (next b) in
                    match add_loop (add fuel h) false idx
                            (Dependencies (h !!! node)) b1 with
                    | None => None
                    | Some b2 =>
                        match add_loop (add fuel h) true idx
                                (WeakDependencies (h !!! node)) b2 with
                        | None => None
                        | Some b3 => Some (b3, idx)
                        end
                    end
                end).
    { intros o ->. reflexivity. }
    destruct (index b !! node) as [idx|] eqn:E.
    + exists (b, idx). rewrite (Hunf (Some idx)) by done.
      split_and!; try done; apply extends_refl.
    + specialize (Hunf None eq_refl). cbv zeta in Hunf.
      pose (idx := length (metaNodes b)).
      pose (b1 := mkBuilder (metaNodes b ++ [newNodeMetadata (h !!! node)])
                            (<[node := idx]> (index b)) (visited b) (next b)).
      assert (Hok1 : builder_ok h b1).
      { destruct Hok as (Hm & Hi & I1 & I2 & I3 & I4 & I5).
        unfold builder_ok, interned. split_and!.
        - by apply meta_ok_push.
        - intros p i Hp. simpl in *. rewrite length_app. simpl.
          apply lookup_insert_Some in Hp as [[<- <-]|[_ Hp]];
            [split; [subst idx; lia|done]|].
          destruct (Hi p i Hp). split; [lia|done].
        - intros p i Hp. simpl in *.
          apply lookup_insert_Some in Hp as [[<- <-]|[_ Hp]].
          + exists (newNodeMetadata (h !!! node)).
            split; [|by unfold same_fields].
            subst idx. by rewrite lookup_app_r, Nat.sub_diag by lia.
          + destruct (I1 p i Hp) as (m & Hmi & Hsf). exists m. split; [|done].
            by apply lookup_app_l_Some.
        - intros p q i Hp Hq. simpl in *.
          apply lookup_insert_Some in Hp as [[<- <-]|[Hnp Hp]];
            apply lookup_insert_Some in Hq as [[<- Hq]|[Hnq Hq]]; try done.
          + destruct (Hi q _ Hq). subst idx. lia.
          + destruct (Hi p _ Hp). subst idx. lia.
          + by eapply I2.
        - simpl. rewrite map_size_insert_None by done.
          rewrite length_app. simpl. lia.
        - intros i m c Hl. simpl in Hl |- *.
          apply lookup_app_Some in Hl as [Hl|[_ Hl]].
          + destruct (I4 i m c Hl) as [E1 E2].
            split; intros Hc; [destruct (E1 Hc) as (p & q & Hq & Hp & Hd)
                              |destruct (E2 Hc) as (p & q & Hq & Hp & Hd)];
              exists p, q; (split_and!; [| |done]);
              (rewrite lookup_insert_ne; [done|]); intros <-;
              first [pose proof (eq_trans (eq_sym E) Hq)
                    |pose proof (eq_trans (eq_sym E) Hp)]; done.
          + apply list_lookup_singleton_Some in Hl as [_ <-].
            destruct (newNodeMetadata_fresh (h !!! node)) as (-> & -> & _).
            split; intros Hc; by apply elem_of_nil in Hc.
        - intros i Hlt. simpl in Hlt |- *. rewrite length_app in Hlt.
          simpl in Hlt. destruct (decide (i = idx)) as [->|Hne].
          + exists node. apply lookup_insert_eq.
          + destruct (I5 i) as [p Hp]; [subst idx; lia|]. exists p.
            rewrite lookup_insert_ne; [done|].
            intros <-. pose proof (eq_trans (eq_sym E) Hp). done. }
      assert (Hpush : ∀ j, (j < length (metaNodes b))%nat →
                metaNodes b1 !!! j = metaNodes b !!! j).
      { intros j Hj. simpl. by apply lookup_total_app_l. }
      assert (Hext1 : extends b b1).
      { unfold extends. split_and!.
        - simpl. rewrite length_app. simpl. lia.
        - simpl. by apply insert_subseteq.
        - done.
        - done.
        - intros j c Hc. destruct (decide (j < length (metaNodes b))%nat).
          + by rewrite Hpush.
          + destruct (children_out_of_range (metaNodes b) j) as [Hn' _]; [lia|].
            rewrite Hn' in Hc. by apply elem_of_nil in Hc.
        - intros j c Hc. destruct (decide (j < length (metaNodes b))%nat).
          + by rewrite Hpush.
          + destruct (children_out_of_range (metaNodes b) j) as [_ Hn']; [lia|].
            rewrite Hn' in Hc. by apply elem_of_nil in Hc. }
      assert (Hcomp1 : complete h b1 (λ p, O p ∨ p = node)).
      { intros p i q Hp HO. simpl in Hp.
        apply lookup_insert_Some in Hp as [[<- _]|[Hnp Hp]]; [tauto|].
        destruct (Hcomp p i q Hp) as [C1 C2]; [tauto|].
        destruct Hext1 as (_ & Hsub & _ & _ & M1 & M2).
        split; intros Hq;
          [destruct (C1 Hq) as (j & Hj & Hc)|destruct (C2 Hq) as (j & Hj & Hc)];
          exists j; (split; [eapply lookup_weaken; [exact Hj|exact Hsub]|auto]). }
      assert (Hsz1 : (S (length h) - fuel ≤ size (index b1))%nat).
      { simpl. rewrite map_size_insert_None by done. lia. }
      assert (Hidx1 : (idx < length (metaNodes b1))%nat).
      { simpl. rewrite length_app. simpl. subst idx. lia. }
      assert (Hnd : h !! node = Some (h !!! node)).
      { by apply list_lookup_lookup_total_lt. }
      pose proof (Hh node _ Hnd) as Hdeps. apply Forall_app in Hdeps as [Hd1 Hd2].
      assert (Hself : ∀ l : list (option ptr), Forall (λ o, o ∈ l) l).
      { intros l. by apply Forall_forall. }
      assert (Hnode1 : index b1 !! node = Some idx).
      { simpl. apply lookup_insert_eq. }
      destruct (add_loop_spec h (add fuel h) _ false idx node _ b1 IH
                  (proj2 (Forall_and _ _) (conj Hd1 (Hself _)))
                  Hok1 Hidx1 Hsz1 Hnode1 _ Hcomp1)
        as (b2 & E2 & Hok2 & Hext2 & Hcomp2 & Hs2).
      assert (Hnode2 : index b2 !! node = Some idx).
      { destruct Hext2 as (_ & Hsub & _). by eapply lookup_weaken. }
      destruct (add_loop_spec h (add fuel h) _ true idx node _ b2 IH
                  (proj2 (Forall_and _ _) (conj Hd2 (Hself _))) Hok2)
        with (O := λ p, O p ∨ p = node)
        as (b3 & E3 & Hok3 & Hext3 & Hcomp3 & Hs3); try done.
      { destruct Hext2 as (? & _). lia. }
      { destruct Hext2 as (_ & Hsub & _). apply map_subseteq_size in Hsub. lia. }
      exists (b3, idx). split.
      { rewrite Hunf. subst b1 idx. rewrite E2, E3. done. }
      assert (Hnode3 : index b3 !! node = Some idx).
      { destruct Hext3 as (_ & Hsub & _). by eapply lookup_weaken. }
      simpl. split_and!; try done.
      * eapply extends_trans; [exact Hext1|]. by eapply extends_trans.
      * intros p i q Hp HO. destruct (decide (p = node)) as [->|Hne].
        -- pose proof (eq_trans (eq_sym Hp) Hnode3) as [= ->].
           destruct Hext3 as (_ & Hsub & _ & _ & M1 & M2).
           split; intros Hq.
           ++ destruct (Hs2 q Hq) as (j & Hj & Hc). exists j. split; [|auto].
              eapply lookup_weaken; [exact Hj|exact Hsub].
           ++ exact (Hs3 q Hq).
        -- apply (Hcomp3 p i q Hp). tauto.
Qed.

End BuilderFacts.

(** * Facts about the cycle search *)

Module CycleFacts.
Import Runtime BuilderSpec.

Lemma last_lookup_snoc (stk : list nat) j g g' x :
  (stk ++ [x]) !! j = Some g → (stk ++ [x]) !! S j = Some g' →
  (stk !! j = Some g ∧ stk !! S j = Some g')
  ∨ (last stk = Some g ∧ g' = x).
Proof.
  intros H1 H2.
  apply lookup_snoc_Some in H2 as [[Hlt H2]|[Hj <-]].
  - left. split; [|done]. rewrite lookup_app_l in H1 by lia. done.
  - right. split; [|done]. rewrite lookup_app_l in H1 by lia.
    rewrite last_lookup. rewrite <- Hj. simpl. done.
Qed.

(** The search path grows by the node [idx], which points to its child
    [c]. *)
Lemma stack_push ms nx stk idx c :
  stack_ok ms (<[idx := -1]> nx) stk →
  (idx < length ms)%nat → idx ∉ stk →
  (∀ g, last stk = Some g → <[idx := -1]> nx !!! g = Z.of_nat idx) →
  c ∈ succs ms idx →
  stack_ok ms (<[idx := Z.of_nat c]> nx) (stk ++ [idx]).
Proof.
  intros (S1 & S2 & S3 & S4 & S5) Hidx Hnin Hlast Hc.
  rewrite length_insert in S2.
  assert (Hne : ∀ i v, i ≠ idx → <[idx := v]> nx !!! i = nx !!! i).
  { intros i v Hi. by rewrite list_lookup_total_insert_ne. }
  assert (Heq : ∀ v, <[idx := v]> nx !!! idx = v).
  { intros v. rewrite list_lookup_total_insert_eq; [done|lia]. }
  assert (Hin : ∀ g, g ∈ stk → g ≠ idx) by (intros g Hg ->; done).
  unfold stack_ok. split_and!.
  - apply NoDup_app. split_and!; [done| |apply NoDup_singleton].
    intros x Hx Hx'. apply list_elem_of_singleton in Hx' as ->. done.
  - by rewrite length_insert.
  - intros i Hi. rewrite elem_of_app, list_elem_of_singleton.
    destruct (decide (i = idx)) as [->|Hi'].
    + rewrite Heq. split; [auto|]. intros _. lia.
    + rewrite Hne by done. rewrite <- (Hne i (-1)) by done.
      rewrite (S3 i Hi). tauto.
  - intros j g g' H1 H2.
    destruct (last_lookup_snoc stk j g g' idx H1 H2) as [[A1 A2]|[A1 ->]].
    + assert (g ≠ idx) by (apply Hin; by eapply list_elem_of_lookup_2).
      rewrite Hne by done. rewrite <- (Hne g (-1)) by done. by eapply S4.
    + assert (g ≠ idx).
      { apply Hin. apply last_Some in A1 as [l' ->].
        apply elem_of_app. right. apply list_elem_of_here. }
      rewrite Hne by done. rewrite <- (Hne g (-1)) by done. by apply Hlast.
  - intros g Hg. apply elem_of_app in Hg as [Hg|Hg].
    + destruct (S5 g Hg) as (A1 & c' & A2 & A3). split; [done|].
      exists c'. split; [|done].
      rewrite Hne by auto. rewrite <- (Hne g (-1)) by auto. done.
    + apply list_elem_of_singleton in Hg as ->. split; [done|].
      exists c. by rewrite Heq.
Qed.

(** The loop of [detectCycle] that collects the names walks the search
    path from the successor of [idx] back to [idx]. *)
Lemma cycle_walk_stack ms b idx fuel l2 :
  metaNodes b = ms →
  ∀ l1 g,
    stack_ok ms (next b) (l1 ++ g :: l2) →
    (∀ x, last (g :: l2) = Some x → next b !!! x = Z.of_nat idx) →
    idx ∉ l2 → (length l2 ≤ fuel)%nat →
    cycle_walk fuel b idx (next b !!! g) = Some (map (λ i, name (ms !!! i)) l2).
Proof.
  intros Hms. revert fuel.
  induction l2 as [|x l2 IH]; intros fuel l1 g Hst Hlast Hnin Hf.
  - rewrite (Hlast g) by done.
    destruct fuel; simpl; rewrite Z.eqb_refl; done.
  - destruct Hst as (S1 & S2 & S3 & S4 & S5).
    assert (Hgx : next b !!! g = Z.of_nat x).
    { apply (S4 (length l1)).
      - by rewrite lookup_app_r, Nat.sub_diag by lia.
      - rewrite lookup_app_r by lia.
        replace (S (length l1) - length l1)%nat with 1%nat by lia. done. }
    rewrite Hgx.
    assert (Hne : x ≠ idx).
    { intros ->. apply Hnin. apply list_elem_of_here. }
    destruct fuel as [|fuel]; [simpl in Hf; lia|]. simpl.
    assert ((Z.of_nat x =? Z.of_nat idx) = false) as -> by (apply Z.eqb_neq; lia).
    rewrite Nat2Z.id.
    rewrite (IH fuel (l1 ++ [g]) x).
    + by rewrite Hms.
    + rewrite <- app_assoc. simpl. done.
    + intros y Hy. apply Hlast. simpl in *. done.
    + intros Hin. apply Hnin. by apply list_elem_of_further.
    + simpl in Hf. lia.
Qed.

Lemma NoDup_bounded_length (l : list nat) n :
  NoDup l → (∀ x, x ∈ l → (x < n)%nat) → (length l ≤ n)%nat.
Proof.
  intros Hnd Hb.
  assert (l ⊆+ seq 0 n) as Hsub.
  { apply NoDup_submseteq; [done|]. intros x Hx. apply elem_of_seq.
    specialize (Hb x Hx). lia. }
  apply submseteq_length in Hsub. by rewrite length_seq in Hsub.
Qed.

(** [detectCycle] on a node of the search path: the error names the part
    of the path from that node on, closed by the node itself. *)
Lemma gray_cycle ms b idx stk :
  metaNodes b = ms → (idx < length ms)%nat →
  stack_ok ms (next b) stk →
  (∀ g, last stk = Some g → next b !!! g = Z.of_nat idx) →
  next b !!! idx ≠ -1 →
  ∃ walk path,
    cycle_walk (length ms) b idx (next b !!! idx) = Some walk
    ∧ cycle_error (reverse ([name (ms !!! idx)] ++ walk ++ [name (ms !!! idx)]))
      = cycle_text ms path
    ∧ is_walk ms path ∧ (2 ≤ length path)%nat ∧ head path = last path
    ∧ Forall (λ i, (i < length ms)%nat) path.
Proof.
  intros Hms Hidx Hst Hlast Hgray.
  pose proof Hst as (S1 & S2 & S3 & S4 & S5).
  apply (S3 idx Hidx) in Hgray.
  apply list_elem_of_split in Hgray as (l1 & l2 & ->).
  assert (Hnin : idx ∉ l2).
  { apply NoDup_app in S1 as (_ & _ & S1). by apply NoDup_cons in S1 as [? _]. }
  assert (Hlen : (length l2 ≤ length ms)%nat).
  { assert (length (l1 ++ idx :: l2) ≤ length ms)%nat.
    { apply NoDup_bounded_length; [done|]. intros x Hx. by destruct (S5 x Hx). }
    rewrite length_app in H. simpl in H. lia. }
  exists (map (λ i, name (ms !!! i)) l2), ((idx :: l2) ++ [idx]).
  split_and!.
  - apply (cycle_walk_stack ms b idx _ l2 Hms l1 idx); try done.
    intros x Hx. apply Hlast. by rewrite last_app_cons.
  - unfold cycle_text. f_equal. f_equal. rewrite map_app. simpl. done.
  - intros j a c H1 H2.
    assert (Hedge : next b !!! a = Z.of_nat c ∧ a ∈ l1 ++ idx :: l2).
    { destruct (last_lookup_snoc (idx :: l2) j a c idx H1 H2) as [[A1 A2]|[A1 ->]].
      - split.
        + apply (S4 (length l1 + j)%nat).
          * rewrite lookup_app_r by lia.
            replace (length l1 + j - length l1)%nat with j by lia. done.
          * rewrite lookup_app_r by lia.
            replace (S (length l1 + j) - length l1)%nat with (S j) by lia. done.
        + apply elem_of_app. right. by eapply list_elem_of_lookup_2.
      - split.
        + apply Hlast. by rewrite last_app_cons.
        + apply elem_of_app. right. apply last_Some in A1 as [l' ->].
          apply elem_of_app. right. apply list_elem_of_here. }
    destruct Hedge as [E Hin]. destruct (S5 a Hin) as (_ & c' & E' & Hc').
    assert (c = c') as -> by lia. done.
  - rewrite length_app. simpl. lia.
  - rewrite last_snoc. done.
  - apply Forall_app. split; [|by repeat constructor].
    apply Forall_forall. intros x Hx. apply S5.
    apply elem_of_app. right. done.
Qed.

Lemma finished_set_next ms b fin idx v :
  finished_ok ms b fin → idx ∉ fin → finished_ok ms (set_next b idx v) fin.
Proof.
  intros (F1 & F2 & F3 & F4) Hnin. unfold finished_ok. simpl.
  split_and!; try done.
  intros i Hi. destruct (F3 i Hi) as (A1 & A2 & A3). split_and!; try done.
  rewrite list_lookup_total_insert_ne; [done|]. intros ->. done.
Qed.

Lemma settled_set_next ms b fin idx c :
  settled ms b fin (Some idx) → (idx < length (next b))%nat →
  settled ms (set_next b idx (Z.of_nat c)) fin None.
Proof.
  intros Hs Hlt i Hi _ Hv Hn. simpl in *.
  destruct (decide (i = idx)) as [->|Hne].
  - rewrite list_lookup_total_insert_eq in Hn by done. lia.
  - rewrite list_lookup_total_insert_ne in Hn by done.
    apply Hs; try done. congruence.
Qed.

(** The child loops of [detectCycle] on the node [idx], whose entry of
    [next] was -1 in [nx0] when the call began. *)
Lemma detect_loop_spec ms rec idx stk nx0 cs :
  searches ms rec (S (length stk)) →
  (idx < length ms)%nat →
  stack_ok ms nx0 stk → idx ∉ stk →
  (∀ g, last stk = Some g → nx0 !!! g = Z.of_nat idx) →
  Forall (λ c, c ∈ succs ms idx ∧ (c < length ms)%nat) cs →
  ∀ b fin pre,
    metaNodes b = ms →
    <[idx := -1]> (next b) = nx0 →
    finished_ok ms b fin → idx ∉ fin → visited b !!! idx = true →
    settled ms b fin (Some idx) →
    Forall (λ c, c ∈ fin) pre →
    ∃ b' r, detect_loop rec idx cs b = Some (b', r) ∧ metaNodes b' = ms
      ∧ match r with
        | None =>
            <[idx := -1]> (next b') = nx0
            ∧ ∃ fin', finished_ok ms b' (fin ++ fin')
                      ∧ (idx ∉ fin ++ fin') ∧ visited b' !!! idx = true
                      ∧ settled ms b' (fin ++ fin') (Some idx)
                      ∧ Forall (λ c, c ∈ fin ++ fin') (pre ++ cs)
                      ∧ (∀ i, visited b !!! i = true → visited b' !!! i = true)
        | Some e =>
            ∃ path, e = cycle_text ms path ∧ is_walk ms path
                    ∧ (2 ≤ length path)%nat ∧ head path = last path
                    ∧ Forall (λ i, (i < length ms)%nat) path
        end.
Proof.
  intros Hrec Hidx Hst Hnin Hlast Hcs.
  induction Hcs as [|c cs [Hc Hclt] _ IH]; intros b fin pre Hms Hnx Hfin Hnf Hv Hset Hpre.
  - exists b, None. simpl. split_and!; try done.
    exists []. rewrite !app_nil_r. split_and!; done.
  - simpl.
    assert (Hlen : length (next b) = length ms).
    { destruct Hst as (_ & S2 & _). rewrite <- Hnx, length_insert in S2. done. }
    set (b1 := set_next b idx (Z.of_nat c)).
    destruct (Hrec c b1 (stk ++ [idx]) fin) as (b2 & r & E & Hms2 & Hr); try done.
    + rewrite length_app. simpl. lia.
    + simpl. apply stack_push; try done; rewrite Hnx; done.
    + intros g Hg. rewrite last_snoc in Hg. simplify_eq. simpl.
      rewrite list_lookup_total_insert_eq; [done|lia].
    + by apply finished_set_next.
    + apply settled_set_next; [done|lia].
    + rewrite E. destruct r as [e|].
      { exists b2, (Some e). done. }
      destruct Hr as (Hnx2 & fin' & Hfin2 & Hset2 & Hcin & Hvis).
      assert (Hnx2' : <[idx := -1]> (next b2) = nx0).
      { rewrite Hnx2. simpl. by rewrite list_insert_insert_eq. }
      assert (Hnf2 : idx ∉ fin ++ fin').
      { intros Hin. destruct Hfin2 as (_ & _ & F3 & _).
        destruct (F3 idx Hin) as (_ & _ & A3). rewrite Hnx2 in A3. simpl in A3.
        rewrite list_lookup_total_insert_eq in A3 by lia. lia. }
      destruct (IH b2 (fin ++ fin') (pre ++ [c])) as (b3 & r & E3 & Hms3 & Hr3);
        try done.
      * by apply Hvis.
      * intros i Hi Hsk. by apply Hset2.
      * apply Forall_app. split; [|by repeat constructor].
        eapply Forall_impl; [exact Hpre|]. simpl. intros x Hx.
        apply elem_of_app. by left.
      * exists b3, r. split; [done|]. split; [done|].
        destruct r as [e|]; [done|].
        destruct Hr3 as (Hnx3 & fin'' & A1 & A2 & A3 & A4 & A5 & A6).
        split; [done|]. exists (fin' ++ fin''). rewrite (app_assoc fin).
        rewrite <- (app_assoc pre) in A5. simpl in A5.
        split_and!; try done.
        intros i Hi. apply A6. by apply Hvis.
Qed.

Lemma searches_mono ms rec k k' :
  searches ms rec k → (k ≤ k')%nat → searches ms rec k'.
Proof.
  intros H Hk idx b stk fin ? ? ? ? ? ? ?. apply (H idx b stk fin); try done. lia.
Qed.

Lemma succs_bounded ms i c :
  meta_ok ms → (i < length ms)%nat → c ∈ succs ms i → (c < length ms)%nat.
Proof.
  intros Hm Hi Hc. unfold succs in Hc.
  pose proof (list_lookup_lookup_total_lt ms i Hi) as Hl.
  destruct (Hm i _ Hl) as (A & _). rewrite Forall_forall in A. by apply A.
Qed.

(** [detectCycle] with fuel [fuel] returns on every search path of more
    than [length ms - fuel] nodes. *)
Lemma detectCycle_searches ms fuel :
  meta_ok ms → searches ms (detectCycle fuel) (S (length ms) - fuel).
Proof.
  intros Hmeta. induction fuel as [|fuel IH];
    intros idx b stk fin Hms Hidx Hk Hst Hlast Hfin Hset.
  { exfalso. pose proof Hst as (S1 & _ & _ & _ & S5).
    assert (length stk ≤ length ms)%nat; [|lia].
    apply NoDup_bounded_length; [done|]. intros x Hx. by destruct (S5 x Hx). }
  assert (Hlen : length (next b) = length ms) by by destruct Hst as (_ & ? & _).
  assert (Hvlen : length (visited b) = length ms) by by destruct Hfin as (_ & ? & _).
  simpl. destruct (next b !!! idx =? -1) eqn:Eg; simpl.
  2:{ apply Z.eqb_neq in Eg.
      destruct (gray_cycle ms b idx stk Hms Hidx Hst Hlast Eg)
        as (walk & path & Ew & Et & P1 & P2 & P3 & P4).
      rewrite Hms, Ew. eexists b, (Some _). split; [done|]. split; [done|].
      exists path. split_and!; try done. }
  apply Z.eqb_eq in Eg.
  destruct (visited b !!! idx) eqn:Ev.
  { exists b, None. split_and!; try done.
    exists []. rewrite !app_nil_r. split_and!; try done.
    by apply Hset. }
  assert (Hnstk : idx ∉ stk).
  { destruct Hst as (_ & _ & S3 & _). intros Hin. apply (S3 idx Hidx) in Hin. done. }
  assert (Hnfin : idx ∉ fin).
  { intros Hin. destruct Hfin as (_ & _ & F3 & _).
    destruct (F3 idx Hin) as (_ & A & _). congruence. }
  assert (Hsucc : ∀ l, (∀ c, c ∈ l → c ∈ succs ms idx) →
            Forall (λ c, c ∈ succs ms idx ∧ (c < length ms)%nat) l).
  { intros l Hl. apply Forall_forall. intros c Hc. split; [by apply Hl|].
    eapply succs_bounded; [done..|]. by apply Hl. }
  assert (Hrec : searches ms (detectCycle fuel) (S (length stk))).
  { eapply searches_mono; [exact IH|]. lia. }
  set (b1 := set_visited b idx).
  assert (Hb1v : ∀ i, visited b1 !!! i = (if decide (i = idx) then true
                                          else visited b !!! i)).
  { intros i. simpl. destruct (decide (i = idx)) as [->|Hne].
    - rewrite list_lookup_total_insert_eq; [done|lia].
    - by rewrite list_lookup_total_insert_ne. }
  destruct (detect_loop_spec ms (detectCycle fuel) idx stk (next b)
              (children (ms !!! idx)) Hrec Hidx Hst Hnstk Hlast
              (Hsucc _ (λ c Hc, proj2 (elem_of_app _ _ _) (or_introl Hc)))
              b1 fin [])
    as (b2 & r & E2 & Hms2 & Hr2); try done.
  { simpl. apply list_insert_id. rewrite <- Eg.
    apply list_lookup_lookup_total_lt. lia. }
  { destruct Hfin as (F1 & F2 & F3 & F4). unfold finished_ok.
    split_and!; try done.
    - simpl. by rewrite length_insert.
    - intros i Hi. destruct (F3 i Hi) as (A1 & A2 & A3). split_and!; try done.
      rewrite Hb1v. by case_decide. }
  { rewrite Hb1v. by rewrite decide_True. }
  { intros i Hi Hsk Hv Hn. rewrite Hb1v in Hv.
    rewrite decide_False in Hv by congruence. by apply Hset. }
  simpl. rewrite Hms. rewrite E2.
  destruct r as [e|].
  { exists b2, (Some e). done. }
  destruct Hr2 as (Hnx2 & fin' & A1 & A2 & A3 & A4 & A5 & A6).
  rewrite Hms2.
  destruct (detect_loop_spec ms (detectCycle fuel) idx stk (next b)
              (weakChildren (ms !!! idx)) Hrec Hidx Hst Hnstk Hlast
              (Hsucc _ (λ c Hc, proj2 (elem_of_app _ _ _) (or_intror Hc)))
              b2 (fin ++ fin') (children (ms !!! idx)))
    as (b3 & r & E3 & Hms3 & Hr3); try done.
  rewrite E3. destruct r as [e|].
  { exists b3, (Some e). done. }
  destruct Hr3 as (Hnx3 & fin'' & B1 & B2 & B3 & B4 & B5 & B6).
  eexists (set_next b3 idx (-1)), None. split; [done|]. split; [done|].
  split; [done|]. simpl.
  exists (fin' ++ fin'' ++ [idx]). rewrite !app_assoc.
  rewrite <- !app_assoc in B1, B2, B4, B5.
  set (F := fin ++ fin' ++ fin'') in *.
  replace (((fin ++ fin') ++ fin'') ++ [idx]) with (F ++ [idx])
    by (subst F; by rewrite !app_assoc).
  assert (Hlen3 : length (next b3) = length ms).
  { rewrite <- Hlen, <- Hnx3. by rewrite length_insert. }
  assert (Hne : ∀ i, i ≠ idx → <[idx := -1]> (next b3) !!! i = next b3 !!! i).
  { intros i Hi. by rewrite list_lookup_total_insert_ne. }
  destruct B1 as (F1 & F2 & F3 & F4).
  split_and!.
  - unfold finished_ok. simpl. split_and!.
    + apply NoDup_app. split_and!; [done| |apply NoDup_singleton].
      intros x Hx Hx'. apply list_elem_of_singleton in Hx' as ->. done.
    + done.
    + intros i Hi. apply elem_of_app in Hi as [Hi|Hi].
      * destruct (F3 i Hi) as (C1 & C2 & C3). split_and!; try done.
        rewrite Hne; [done|]. intros ->. done.
      * apply list_elem_of_singleton in Hi as ->. split_and!; try done.
        rewrite list_lookup_total_insert_eq; [done|lia].
    + intros j i c Hj Hc.
      apply lookup_snoc_Some in Hj as [[Hlt Hj]|[-> <-]].
      * destruct (F4 j i c Hj Hc) as (j' & Hj' & Hl).
        exists j'. split; [done|]. rewrite lookup_app_l; [done|lia].
      * rewrite Forall_forall in B5. specialize (B5 c Hc).
        apply list_elem_of_lookup in B5 as [j' Hj'].
        exists j'. split; [by apply lookup_lt_Some in Hj'|].
        rewrite lookup_app_l; [done|]. by apply lookup_lt_Some in Hj'.
  - intros i Hi _ Hv Hn. simpl in *.
    destruct (decide (i = idx)) as [->|Hni].
    + apply elem_of_app. right. apply list_elem_of_here.
    + apply elem_of_app. left. rewrite Hne in Hn by done.
      apply B4; try done. congruence.
  - apply elem_of_app. right. apply list_elem_of_here.
  - intros i Hi. simpl. apply B6, A6. rewrite Hb1v. case_decide; done.
Qed.

End CycleFacts.

(** ** [build] ([dag_builder.go]) *)

Module BuildFacts.
Import Runtime BuilderSpec.

Lemma builder_ok_new h : builder_ok h newDagBuilder.
Proof.
  unfold builder_ok, interned, edges_sound, meta_ok, newDagBuilder. simpl.
  split_and!.
  - intros k m Hk. by rewrite lookup_nil in Hk.
  - intros p i Hp. by rewrite lookup_empty in Hp.
  - intros p i Hp. by rewrite lookup_empty in Hp.
  - intros p q i Hp. by rewrite lookup_empty in Hp.
  - done.
  - intros i m c Hl. by rewrite lookup_nil in Hl.
  - intros i Hi. lia.
Qed.

Lemma complete_new h : complete h newDagBuilder (λ _, False).
Proof.
  intros p i q Hp. change ((∅ : gmap ptr nat) !! p = Some i) in Hp.
  by rewrite lookup_empty in Hp.
Qed.

Lemma build_add_cons h node rest b :
  build_add h (Some node :: rest) b
  = match add (S (length h)) h node b with
    | None => None
    | Some (b', _) => build_add h rest b'
    end.
Proof. reflexivity. Qed.

Lemma build_detect_cons idx rest b :
  build_detect (idx :: rest) b
  = match detectCycle (S (length (metaNodes b))) idx b with
    | None => None
    | Some (b', Some err) => Some (b', Some err)
    | Some (b', None) => build_detect rest b'
    end.
Proof. reflexivity. Qed.

Lemma build_unfold h nodes :
  build h nodes
  = match build_add h nodes newDagBuilder with
    | None => None
    | Some b =>
        match build_detect (seq 0 (length (metaNodes b))) (reset_search b) with
        | None => None
        | Some (_, Some err) => Some (None, Some err)
        | Some (b', None) =>
            Some (Some (mkDAG (metaNodes b') (roots_of (metaNodes b'))), None)
        end
    end.
Proof. reflexivity. Qed.

(** The first loop of [build] returns, with every input definition
    interned and every edge of the interned definitions added. *)
Lemma build_add_spec h nodes :
  heap_ok h → Forall (ptr_ok h) nodes → ∀ b,
  builder_ok h b → complete h b (λ _, False) →
  ∃ b', build_add h nodes b = Some b' ∧ builder_ok h b'
    ∧ complete h b' (λ _, False) ∧ index b ⊆ index b'
    ∧ (∀ p, Some p ∈ nodes → is_Some (index b' !! p)).
Proof.
  intros Hh Hn. induction Hn as [|o nodes Ho _ IH]; intros b Hok Hc.
  - exists b. split_and!; try done. intros p Hp. by apply elem_of_nil in Hp.
  - destruct o as [node|]; cycle 1.
    { destruct (IH b Hok Hc) as (b' & E & ? & ? & ? & Hq).
      exists b'. split_and!; try done.
      intros p Hp. apply elem_of_cons in Hp as [?|Hp]; [done|auto]. }
    pose proof (BuilderFacts.add_interns h (S (length h)) Hh) as Hi.
    rewrite Nat.sub_diag in Hi.
    destruct (Hi node b (λ _, False) Ho Hok Hc ltac:(lia))
      as ([b1 i] & E1 & Hok1 & Hext1 & Hidx & Hc1).
    rewrite build_add_cons, E1. simpl in Hok1, Hext1, Hidx, Hc1.
    destruct (IH b1 Hok1 Hc1) as (b' & E & ? & ? & Hsub & Hq).
    exists b'. split_and!; try done.
    + destruct Hext1 as (_ & S1 & _). by etrans.
    + intros p Hp. apply elem_of_cons in Hp as [[= ->]|Hp]; [|auto].
      exists i. eapply lookup_weaken; [exact Hidx|exact Hsub].
Qed.

(** The state in which the search starts. *)
Lemma reset_search_ok b :
  stack_ok (metaNodes b) (next (reset_search b)) []
  ∧ finished_ok (metaNodes b) (reset_search b) []
  ∧ settled (metaNodes b) (reset_search b) [] None.
Proof.
  unfold stack_ok, finished_ok, settled, reset_search. simpl.
  split_and!; try apply NoDup_nil_2; try apply length_replicate.
  - intros i Hi. rewrite lookup_total_replicate_2 by done.
    split; [done|]. intros H. by apply elem_of_nil in H.
  - intros j g g' Hj. by rewrite lookup_nil in Hj.
  - intros g Hg. by apply elem_of_nil in Hg.
  - intros i Hi. by apply elem_of_nil in Hi.
  - intros j i c Hj. by rewrite lookup_nil in Hj.
  - intros i Hi _ Hv. by rewrite lookup_total_replicate_2 in Hv.
Qed.

(** The second loop of [build] returns: without an error every index it
    was given is finished, with an error the text names a closed walk. *)
Lemma build_detect_spec ms :
  meta_ok ms → ∀ idxs b fin,
  metaNodes b = ms → Forall (λ i, (i < length ms)%nat) idxs →
  stack_ok ms (next b) [] → finished_ok ms b fin → settled ms b fin None →
  ∃ b' r, build_detect idxs b = Some (b', r) ∧ metaNodes b' = ms
    ∧ match r with
      | None => ∃ fin', finished_ok ms b' fin'
                        ∧ (∀ i, i ∈ idxs → i ∈ fin')
                        ∧ (∀ i, i ∈ fin → i ∈ fin')
      | Some e => ∃ path, e = cycle_text ms path ∧ is_walk ms path
                          ∧ closed path
                          ∧ Forall (λ i, (i < length ms)%nat) path
      end.
Proof.
  intros Hm idxs. induction idxs as [|idx rest IH]; intros b fin Hb Hi Hs Hf Hst.
  - exists b, None. split_and!; [done|done|]. exists fin.
    split_and!; [done| |done]. intros i Hi'. by apply elem_of_nil in Hi'.
  - apply Forall_cons in Hi as [Hidx Hrest].
    pose proof (CycleFacts.detectCycle_searches ms (S (length ms)) Hm) as Hsrch.
    rewrite Nat.sub_diag in Hsrch.
    assert (Hlast : ∀ g, last (@nil nat) = Some g → next b !!! g = Z.of_nat idx).
    { intros g Hg. done. }
    destruct (Hsrch idx b [] fin Hb Hidx ltac:(simpl; lia) Hs Hlast Hf Hst)
      as (b1 & r & E & Hb1 & Hr).
    rewrite build_detect_cons, Hb, E.
    destruct r as [e|].
    + exists b1, (Some e). split_and!; try done.
      destruct Hr as (path & ? & ? & ? & ? & ?). exists path. by unfold closed.
    + destruct Hr as (Hnx & fin' & Hf' & Hst' & Hin & Hv).
      destruct (IH b1 (fin ++ fin') Hb1 Hrest) as (b' & r & E' & Hb' & Hr');
        [by rewrite Hnx|done|done|].
      exists b', r. split_and!; try done. destruct r; [done|].
      destruct Hr' as (fin2 & ? & H1 & H2). exists fin2. split_and!; try done.
      * intros i Hi'. apply elem_of_cons in Hi' as [->|Hi']; auto.
      * intros i Hi'. apply H2. apply elem_of_app; by left.
Qed.

(** [build] returns. Its first loop leaves a builder that mirrors the
    definitions; then either the graph has a topological order and is
    returned with its roots, or the error names a closed walk of it. *)
Lemma build_spec h nodes :
  heap_ok h → Forall (ptr_ok h) nodes →
  ∃ b, builder_ok h b ∧ complete h b (λ _, False)
    ∧ (∀ p, Some p ∈ nodes → is_Some (index b !! p))
    ∧ ((build h nodes
        = Some (Some (mkDAG (metaNodes b) (roots_of (metaNodes b))), None)
        ∧ ∃ fin, topological (metaNodes b) fin)
       ∨ (∃ path, build h nodes
                  = Some (None, Some (cycle_text (metaNodes b) path))
                  ∧ is_walk (metaNodes b) path ∧ closed path
                  ∧ Forall (λ i, (i < length (metaNodes b))%nat) path)).
Proof.
  intros Hh Hn.
  destruct (build_add_spec h nodes Hh Hn newDagBuilder (builder_ok_new h)
              (complete_new h)) as (b & E & Hok & Hc & _ & Hin).
  exists b. split_and!; try done.
  destruct (reset_search_ok b) as (Hs & Hf & Hst).
  destruct (build_detect_spec (metaNodes b) (proj1 Hok)
              (seq 0 (length (metaNodes b))) (reset_search b) []
              eq_refl) as (b' & r & E' & Hb' & Hr); try done.
  { apply Forall_forall. intros i Hi. apply elem_of_seq in Hi. lia. }
  rewrite build_unfold, E, E'. destruct r as [e|].
  - right. destruct Hr as (path & -> & ? & ? & ?). by exists path.
  - left. rewrite Hb'. split; [done|].
    destruct Hr as (fin & (Hnd & _ & _ & Hedge) & Hall & _). exists fin.
    split_and!; [done| |done].
    intros i Hi. apply Hall. apply elem_of_seq. lia.
Qed.

Lemma build_dag_inv h nodes d :
  heap_ok h → Forall (ptr_ok h) nodes → build h nodes = Some (Some d, None) →
  ∃ b, builder_ok h b ∧ complete h b (λ _, False)
    ∧ (∀ p, Some p ∈ nodes → is_Some (index b !! p))
    ∧ d = mkDAG (metaNodes b) (roots_of (metaNodes b))
    ∧ ∃ fin, topological (metaNodes b) fin.
Proof.
  intros Hh Hn Hb.
  destruct (build_spec h nodes Hh Hn) as (b & Hok & Hc & Hin & [[E Hf]|(path & E & _)]);
    rewrite E in Hb; [|done].
  exists b. split_and!; try done. congruence.
Qed.

Lemma build_err_inv h nodes e :
  heap_ok h → Forall (ptr_ok h) nodes → build h nodes = Some (None, Some e) →
  ∃ b path, builder_ok h b ∧ e = cycle_text (metaNodes b) path
    ∧ is_walk (metaNodes b) path ∧ closed path
    ∧ Forall (λ i, (i < length (metaNodes b))%nat) path.
Proof.
  intros Hh Hn Hb.
  destruct (build_spec h nodes Hh Hn)
    as (b & Hok & Hc & Hin & [[E Hf]|(path & E & ? & ? & ?)]);
    rewrite E in Hb; [done|].
  exists b, path. split_and!; try done. congruence.
Qed.

(** *** Ranks along a chain *)

Lemma ranked_chain {A} (lt : nat → nat → Prop) (rk : A → nat → Prop)
    (l : list A) :
  (∀ a b c, lt a b → lt b c → lt a c) →
  (∀ x r r', rk x r → rk x r' → r = r') →
  (∀ j a c, l !! j = Some a → l !! S j = Some c →
            ∃ ra rc, rk a ra ∧ rk c rc ∧ lt ra rc) →
  ∀ j i a c, (i < j)%nat → l !! i = Some a → l !! j = Some c →
             ∃ ra rc, rk a ra ∧ rk c rc ∧ lt ra rc.
Proof.
  intros Ht Hf Hs j. induction j as [|j IH]; intros i a c Hij Ha Hc; [lia|].
  destruct (l !! j) as [b|] eqn:Hb.
  2:{ apply lookup_ge_None in Hb. apply lookup_lt_Some in Hc. lia. }
  destruct (Hs j b c Hb Hc) as (rb & rc & Rb & Rc & Hlt).
  destruct (decide (i = j)) as [->|Hne].
  - rewrite Hb in Ha. injection Ha as <-. by exists rb, rc.
  - destruct (IH i a b) as (ra & rb' & Ra & Rb' & Hlt'); [lia|done|done|].
    rewrite (Hf _ _ _ Rb' Rb) in Hlt'. exists ra, rc.
    split_and!; [done|done|]. by eapply Ht.
Qed.

Lemma succs_in_range ms a c : c ∈ succs ms a → (a < length ms)%nat.
Proof.
  intros Hc. destruct (decide (a < length ms)%nat) as [|Hn]; [done|].
  unfold succs in Hc.
  destruct (BuilderFacts.children_out_of_range ms a) as [E1 E2]; [lia|].
  rewrite E1, E2 in Hc. by apply elem_of_nil in Hc.
Qed.

(** A graph with a topological order has no closed walk. *)
Lemma topological_acyclic ms fin path :
  topological ms fin → is_walk ms path → ¬ closed path.
Proof.
  intros (Hnd & Hall & Hedge) Hw [Hlen Hhl].
  destruct path as [|a path]; [simpl in Hlen; lia|].
  assert (Ha : (a :: path) !! 0%nat = Some a) by done.
  assert (Hl : (a :: path) !! length path = Some a).
  { rewrite last_lookup in Hhl. simpl in Hhl. done. }
  destruct (ranked_chain (λ x y, (y < x)%nat) (λ x r, fin !! r = Some x)
              (a :: path)) with (j := length path) (i := 0%nat) (a := a) (c := a)
    as (ra & rc & Ra & Rc & Hlt); try done.
  - intros x y z. lia.
  - intros x r r' Hr Hr'. by eapply NoDup_lookup.
  - intros j x c Hx Hc. pose proof (Hw j x c Hx Hc) as Hs.
    pose proof (succs_in_range _ _ _ Hs) as Hx'.
    apply Hall, list_elem_of_lookup_1 in Hx' as [rx Hrx].
    destruct (Hedge rx x c Hrx Hs) as (r' & ? & ?). by exists rx, r'.
  - simpl in Hlen. lia.
  - pose proof (NoDup_lookup _ _ _ _ Hnd Ra Rc). lia.
Qed.

(** *** The definitions behind the indices *)

Lemma index_preimages h b path :
  builder_ok h b → Forall (λ i, (i < length (metaNodes b))%nat) path →
  ∃ qs, Forall2 (λ p i, index b !! p = Some i) qs path.
Proof.
  intros (_ & _ & _ & _ & _ & _ & Hsur) Hp.
  induction Hp as [|i path Hi _ [qs IH]]; [by exists []|].
  destruct (Hsur i Hi) as [p Hpi]. exists (p :: qs). by constructor.
Qed.

Lemma preimage_names h b qs path :
  builder_ok h b → Forall2 (λ p i, index b !! p = Some i) qs path →
  map (def_name h) qs = map (λ i, name (metaNodes b !!! i)) path.
Proof.
  intros (_ & _ & I1 & _) H. induction H as [|p i qs path Hp _ IH]; [done|].
  simpl. rewrite IH. f_equal.
  destruct (I1 p i Hp) as (m & Hm & Hs & _).
  by rewrite (list_lookup_total_correct _ _ _ Hm).
Qed.

Lemma map_reverse {A B} (f : A → B) (l : list A) :
  map f (reverse l) = reverse (map f l).
Proof.
  induction l as [|x l IH]; [done|].
  simpl. by rewrite !reverse_cons, map_app, IH.
Qed.

(** An edge of the graph is a dependency between the definitions of its
    ends. *)
Lemma edge_depends h b p q ip iq :
  builder_ok h b → index b !! p = Some ip → index b !! q = Some iq →
  iq ∈ succs (metaNodes b) ip → depends_on h q p.
Proof.
  intros (_ & Hi & I1 & I2 & _ & I4 & _) Hp Hq Hs.
  destruct (I1 p ip Hp) as (m & Hm & _).
  unfold succs in Hs. rewrite (list_lookup_total_correct _ _ _ Hm) in Hs.
  destruct (I4 ip m iq Hm) as [E1 E2]. unfold depends_on.
  apply elem_of_app in Hs as [Hs|Hs];
    [destruct (E1 Hs) as (p' & q' & Hq' & Hp' & Hd)
    |destruct (E2 Hs) as (p' & q' & Hq' & Hp' & Hd)];
    rewrite (I2 _ _ _ Hp Hq'), (I2 _ _ _ Hq Hp');
    apply elem_of_app; [by left|by right].
Qed.

(** A dependency between interned definitions is an edge of the graph. *)
Lemma depends_edge h b q p iq :
  complete h b (λ _, False) → index b !! q = Some iq → depends_on h q p →
  ∃ ip, index b !! p = Some ip ∧ iq ∈ succs (metaNodes b) ip.
Proof.
  intros Hc Hq Hd. destruct (Hc q iq p Hq) as [C1 C2]; [tauto|].
  unfold depends_on in Hd. unfold succs.
  apply elem_of_app in Hd as [Hd|Hd];
    [destruct (C1 Hd) as (j & ? & ?)|destruct (C2 Hd) as (j & ? & ?)];
    exists j; (split; [done|]); apply elem_of_app; [by left|by right].
Qed.

Lemma chain_indexed h b ps p0 :
  complete h b (λ _, False) → deps_chain h ps → head ps = Some p0 →
  is_Some (index b !! p0) →
  ∀ k x, ps !! k = Some x → is_Some (index b !! x).
Proof.
  intros Hc Hch Hhd H0 k. induction k as [|k IH]; intros x Hx.
  - rewrite head_lookup in Hhd. by simplify_eq.
  - destruct (ps !! k) as [q|] eqn:Hq.
    2:{ apply lookup_ge_None in Hq. apply lookup_lt_Some in Hx. lia. }
    destruct (IH q eq_refl) as [iq Hiq].
    destruct (depends_edge h b q x iq Hc Hiq (Hch k q x Hq Hx)) as (ix & ? & _).
    by exists ix.
Qed.

Lemma roots_of_spec ms r :
  r ∈ roots_of ms ↔ ∃ m, ms !! r = Some m ∧ depCnt m = 0.
Proof.
  unfold roots_of. rewrite list_elem_of_omap. split.
  - intros ([i m] & Hin & Hf). apply elem_of_lookup_imap in Hin
      as (i' & m' & [= -> ->] & Hl).
    destruct (depCnt m' =? 0) eqn:E; [|done]. injection Hf as <-.
    exists m'. split; [done|lia].
  - intros (m & Hl & Hd). exists (r, m). split.
    + apply elem_of_lookup_imap. by exists r, m.
    + simpl. by rewrite Hd.
Qed.

Lemma occ_elem c l : (0 < occ c l)%nat → c ∈ l.
Proof.
  induction l as [|x l IH]; simpl; [lia|].
  destruct (x =? c)%nat eqn:E.
  - apply Nat.eqb_eq in E as ->. intros _. apply list_elem_of_here.
  - simpl. intros H. apply list_elem_of_further. by apply IH.
Qed.

(** No edge enters a node whose count of entering edges is zero. *)
Lemma indeg_zero ms c :
  indeg ms c = 0%nat ↔ ∀ j, c ∉ succs ms j.
Proof.
  unfold indeg. split.
  - intros Hz j Hc. pose proof (succs_in_range _ _ _ Hc) as Hj.
    pose proof (list_lookup_lookup_total_lt ms j Hj) as Hl.
    revert Hz Hc. unfold succs. generalize (ms !!! j) as m, Hl. clear Hj Hl.
    intros m Hl. revert j Hl. induction ms as [|m0 ms IH]; intros j Hl Hz Hc.
    { by rewrite lookup_nil in Hl. }
    simpl in Hz. destruct j as [|j].
    + simpl in Hl. injection Hl as ->.
      assert (Hz' : edges_into c m = 0%nat) by lia.
      unfold edges_into in Hz'.
      apply elem_of_app in Hc as [Hc|Hc];
        apply RuntimeFacts.occ_pos in Hc; lia.
    + apply (IH j); [done|lia|done].
  - intros Hn. induction ms as [|m0 ms IH]; [done|]. simpl.
    assert (H0 : edges_into c m0 = 0%nat).
    { pose proof (Hn 0%nat) as H0. unfold succs in H0. simpl in H0.
      unfold edges_into.
      destruct (occ c (children m0)) eqn:E1;
        destruct (occ c (weakChildren m0)) eqn:E2; try done; exfalso;
        apply H0, elem_of_app;
        [right|left|left]; apply occ_elem; lia. }
    rewrite H0, IH; [done|]. intros j. apply (Hn (S j)).
Qed.

(** A chain of dependencies from an interned definition meets no
    definition twice when the graph has a topological order. *)
Lemma chain_no_dup h b fin ps p0 :
  builder_ok h b → complete h b (λ _, False) →
  topological (metaNodes b) fin →
  deps_chain h ps → head ps = Some p0 → is_Some (index b !! p0) →
  NoDup ps.
Proof.
  intros Hok Hc (Hnd & Hall & Hedge) Hch Hhd H0.
  pose proof (chain_indexed h b ps p0 Hc Hch Hhd H0) as Hidx.
  pose (rk := λ (p : ptr) (r : nat),
          ∃ i, index b !! p = Some i ∧ fin !! r = Some i).
  assert (Hchain : ∀ j i a c, (i < j)%nat → ps !! i = Some a → ps !! j = Some c →
            ∃ ra rc, rk a ra ∧ rk c rc ∧ (ra < rc)%nat).
  { apply ranked_chain.
    - intros x y z. lia.
    - intros x r r' (i & Hi & Hr) (i' & Hi' & Hr').
      pose proof (eq_trans (eq_sym Hi) Hi') as [= <-].
      by eapply NoDup_lookup.
    - intros j q p Hq Hp. destruct (Hidx j q Hq) as [iq Hiq].
      destruct (depends_edge h b q p iq Hc Hiq (Hch j q p Hq Hp))
        as (ip & Hip & Hs).
      pose proof (succs_in_range _ _ _ Hs) as Hr.
      apply Hall, list_elem_of_lookup_1 in Hr as [rp Hrp].
      destruct (Hedge rp ip iq Hrp Hs) as (r' & ? & ?).
      exists r', rp. split_and!; [by exists iq|by exists ip|done]. }
  assert (Hirr : ∀ i j x, (i < j)%nat → ps !! i = Some x → ps !! j = Some x → False).
  { intros i j x Hij Hi Hj.
    destruct (Hchain j i x x Hij Hi Hj)
      as (ra & rc & (ia & Hia & Ra) & (ic & Hic & Rc) & Hlt).
    pose proof (eq_trans (eq_sym Hia) Hic) as [= <-].
    pose proof (NoDup_lookup _ _ _ _ Hnd Ra Rc). lia. }
  apply NoDup_alt. intros i j x Hi Hj.
  destruct (Nat.lt_trichotomy i j) as [H|[H|H]]; [|done|]; exfalso; eauto.
Qed.

(** [NewDAG] returns on every input whose pointers refer to definitions,
    however the definitions depend on each other: with a graph and no
    error, or with an error and no graph. *)
Theorem NewDAG_returns h nodes :
  heap_ok h → Forall (ptr_ok h) nodes →
  (∃ d, NewDAG h nodes = Some (Some d, None))
  ∨ (∃ e, NewDAG h nodes = Some (None, Some e)).
Proof.
  intros Hh Hn. unfold NewDAG.
  destruct (build_spec h nodes Hh Hn)
    as (b & _ & _ & _ & [[E _]|(path & E & _)]); rewrite E; eauto.
Qed.

Lemma NewDAG_returns_witness :
  (∃ d, NewDAG Examples.cycle_heap [Some 0%nat; None; Some 1%nat]
        = Some (Some d, None))
  ∨ (∃ e, NewDAG Examples.cycle_heap [Some 0%nat; None; Some 1%nat]
          = Some (None, Some e)).
Proof.
  apply NewDAG_returns.
  - apply BuilderFacts.heap_okb_ok. vm_compute. reflexivity.
  - repeat constructor; simpl; lia.
Defined.



(** The roots of the graph [NewDAG] returns are exactly the nodes that
    no edge enters, as long as the counts fit an [int32]. *)
Theorem NewDAG_roots h nodes d r :
  heap_ok h → Forall (ptr_ok h) nodes →
  NewDAG h nodes = Some (Some d, None) →
  counts_fit (dag_metaNodes d) →
  r ∈ rootNodes d
  ↔ (r < length (dag_metaNodes d))%nat ∧ ∀ j, r ∉ succs (dag_metaNodes d) j.
Proof.
  intros Hh Hn Hb Hfit.
  destruct (build_dag_inv h nodes d Hh Hn Hb) as (b & (Hm & _) & _ & _ & -> & _).
  simpl in *. rewrite roots_of_spec, <- indeg_zero. split.
  - intros (m & Hl & Hd). pose proof (lookup_lt_Some _ _ _ Hl) as Hr.
    split; [done|]. destruct (Hm r m Hl) as (_ & B & _).
    rewrite B in Hd by auto. lia.
  - intros [Hr Hz]. exists (metaNodes b !!! r).
    pose proof (list_lookup_lookup_total_lt _ _ Hr) as Hl. split; [done|].
    destruct (Hm r _ Hl) as (_ & B & _). rewrite B by auto. lia.
Qed.

Lemma NewDAG_roots_witness :
  2%nat ∈ rootNodes (Scenarios.dag_of Examples.example_heap [Some 2%nat])
  ↔ (2 < length (dag_metaNodes
                   (Scenarios.dag_of Examples.example_heap [Some 2%nat])))%nat
    ∧ ∀ j, 2%nat ∉ succs (dag_metaNodes
                            (Scenarios.dag_of Examples.example_heap [Some 2%nat])) j.
Proof.
  apply (NewDAG_roots Examples.example_heap [Some 2%nat]).
  - apply BuilderFacts.heap_okb_ok. vm_compute. reflexivity.
  - repeat constructor; simpl; lia.
  - vm_compute. reflexivity.
  - intros k Hk. destruct k as [|[|[|k]]]; vm_compute; reflexivity.
Defined.

(** The graph [NewDAG] returns has no cycle: no walk along its edges,
    strong or weak, comes back to its start. *)
Theorem NewDAG_acyclic h nodes d path :
  heap_ok h → Forall (ptr_ok h) nodes →
  NewDAG h nodes = Some (Some d, None) →
  is_walk (dag_metaNodes d) path → ¬ closed path.
Proof.
  intros Hh Hn Hb.
  destruct (build_dag_inv h nodes d Hh Hn Hb) as (b & _ & _ & _ & -> & fin & Hf).
  simpl. by apply topological_acyclic with fin.
Qed.

Lemma NewDAG_acyclic_witness :
  is_walk (dag_metaNodes (Scenarios.dag_of Examples.example_heap [Some 2%nat]))
          [2%nat; 1%nat; 0%nat]
  ∧ ¬ closed [2%nat; 1%nat; 0%nat].
Proof.
  assert (Hw : is_walk (dag_metaNodes
                          (Scenarios.dag_of Examples.example_heap [Some 2%nat]))
                       [2%nat; 1%nat; 0%nat]).
  { intros j a c Ha Hc. destruct j as [|[|j]]; simpl in Ha, Hc.
    - injection Ha as <-. injection Hc as <-. vm_compute. apply list_elem_of_here.
    - injection Ha as <-. injection Hc as <-. vm_compute. apply list_elem_of_here.
    - destruct j; discriminate. }
  split; [exact Hw|].
  apply (NewDAG_acyclic Examples.example_heap [Some 2%nat]
           (Scenarios.dag_of Examples.example_heap [Some 2%nat])).
  - apply BuilderFacts.heap_okb_ok. vm_compute. reflexivity.
  - repeat constructor; simpl; lia.
  - vm_compute. reflexivity.
  - exact Hw.
Defined.

(** The error of [NewDAG] names a real cycle: the text lists definitions
    of which each has the next one among its dependencies, strong or
    weak, and the last is the first again. *)
Theorem NewDAG_error_is_dependency_cycle h nodes e :
  heap_ok h → Forall (ptr_ok h) nodes →
  NewDAG h nodes = Some (None, Some e) →
  ∃ ps, closed ps ∧ deps_chain h ps
        ∧ Forall (λ p, (p < length h)%nat) ps
        ∧ e = cycle_error (map (def_name h) ps).
Proof.
  intros Hh Hn Hb.
  destruct (build_err_inv h nodes e Hh Hn Hb)
    as (b & path & Hok & -> & Hw & [Hlen Hhl] & Hr).
  destruct (index_preimages h b path Hok Hr) as [qs Hqs].
  pose proof (Forall2_length _ _ _ Hqs) as Hl.
  pose proof Hok as (_ & Hi & _ & I2 & _).
  exists (reverse qs). split_and!.
  - split; [by rewrite length_reverse, Hl|].
    rewrite head_reverse, last_reverse.
    rewrite head_lookup, last_lookup in Hhl. rewrite head_lookup, last_lookup.
    destruct (path !! 0%nat) as [i|] eqn:E0.
    2:{ apply lookup_ge_None in E0. lia. }
    symmetry in Hhl.
    destruct (Forall2_lookup_r _ _ _ _ _ Hqs E0) as (p & Hp & Hpi).
    destruct (Forall2_lookup_r _ _ _ _ _ Hqs Hhl) as (p' & Hp' & Hpi').
    rewrite Hl, Hp', Hp. f_equal. by eapply I2.
  - intros j q p Hq Hp.
    apply reverse_lookup_Some in Hq as [Hq Hjq].
    apply reverse_lookup_Some in Hp as [Hp Hjp].
    destruct (Forall2_lookup_l _ _ _ _ _ Hqs Hp) as (ip & Hip & Hpi).
    destruct (Forall2_lookup_l _ _ _ _ _ Hqs Hq) as (iq & Hiq & Hqi).
    eapply edge_depends; [exact Hok|exact Hpi|exact Hqi|].
    apply (Hw (length qs - S (S j))%nat); [done|].
    replace (S (length qs - S (S j))) with (length qs - S j)%nat by lia. done.
  - apply Forall_forall. intros p Hp. rewrite elem_of_reverse in Hp.
    apply list_elem_of_lookup_1 in Hp as [k Hk].
    destruct (Forall2_lookup_l _ _ _ _ _ Hqs Hk) as (ip & _ & Hpi).
    by destruct (Hi p ip Hpi).
  - unfold cycle_text. by rewrite map_reverse, (preimage_names h b qs path Hok Hqs).
Qed.

Lemma NewDAG_error_is_dependency_cycle_witness :
  ∃ ps, closed ps ∧ deps_chain Examples.cycle_heap ps
        ∧ Forall (λ p, (p < length Examples.cycle_heap)%nat) ps
        ∧ "cyclic dependency detected: node1 -> node3 -> node2 -> node1"
          = cycle_error (map (def_name Examples.cycle_heap) ps).
Proof.
  apply (NewDAG_error_is_dependency_cycle Examples.cycle_heap
           [Some 0%nat; Some 1%nat; Some 2%nat]).
  - apply BuilderFacts.heap_okb_ok. vm_compute. reflexivity.
  - repeat constructor; simpl; lia.
  - vm_compute. reflexivity.
Defined.

(** [NewDAG] misses no cycle: when a chain of dependencies that starts
    at an input node meets a definition twice, the result is an error. *)
Theorem NewDAG_rejects_reachable_cycle h nodes ps p0 i j x :
  heap_ok h → Forall (ptr_ok h) nodes →
  deps_chain h ps → head ps = Some p0 → Some p0 ∈ nodes →
  (i < j)%nat → ps !! i = Some x → ps !! j = Some x →
  ∃ e, NewDAG h nodes = Some (None, Some e).
Proof.
  intros Hh Hn Hch Hhd Hp0 Hij Hi Hj. unfold NewDAG.
  destruct (build_spec h nodes Hh Hn)
    as (b & Hok & Hc & Hin & [[E [fin Hf]]|(path & E & _)]); [|eauto].
  exfalso.
  pose proof (chain_no_dup h b fin ps p0 Hok Hc Hf Hch Hhd (Hin p0 Hp0)) as Hnd.
  rewrite NoDup_alt in Hnd. pose proof (Hnd i j x Hi Hj). lia.
Qed.

Lemma NewDAG_rejects_reachable_cycle_witness :
  ∃ e, NewDAG Examples.cycle_heap [Some 1%nat] = Some (None, Some e).
Proof.
  apply (NewDAG_rejects_reachable_cycle Examples.cycle_heap [Some 1%nat]
           [1%nat; 0%nat; 2%nat; 1%nat] 1%nat 0%nat 3%nat 1%nat).
  - apply BuilderFacts.heap_okb_ok. vm_compute. reflexivity.
  - repeat constructor; simpl; lia.
  - intros j q p Hq Hp. unfold depends_on.
    destruct j as [|[|[|j]]]; simpl in Hq, Hp;
      try (injection Hq as <-; injection Hp as <-; simpl; apply list_elem_of_here).
    destruct j; discriminate.
  - reflexivity.
  - apply list_elem_of_here.
  - lia.
  - reflexivity.
  - reflexivity.
Defined.

(** The graph [NewDAG] returns mirrors the definitions: the input nodes
    have an index, every node of the graph is the copy of exactly one
    definition, and the children (weak children) of a node are the
    indices of the definitions that list it as a dependency (weak
    dependency), which all have an index. *)
Theorem NewDAG_mirrors_definitions h nodes d :
  heap_ok h → Forall (ptr_ok h) nodes →
  NewDAG h nodes = Some (Some d, None) →
  ∃ idx : gmap ptr nat,
    (∀ p, Some p ∈ nodes → is_Some (idx !! p))
    ∧ (∀ i, (i < length (dag_metaNodes d))%nat ↔ ∃ p, idx !! p = Some i)
    ∧ (∀ p q i, idx !! p = Some i → idx !! q = Some i → p = q)
    ∧ (∀ p i, idx !! p = Some i →
         (p < length h)%nat
         ∧ same_fields (dag_metaNodes d !!! i) (newNodeMetadata (h !!! p)))
    ∧ (∀ p q i, idx !! p = Some i →
         (Some q ∈ Dependencies (h !!! p)
          ↔ ∃ j, idx !! q = Some j ∧ i ∈ children (dag_metaNodes d !!! j))
         ∧ (Some q ∈ WeakDependencies (h !!! p)
            ↔ ∃ j, idx !! q = Some j
                   ∧ i ∈ weakChildren (dag_metaNodes d !!! j))).
Proof.
  intros Hh Hn Hb.
  destruct (build_dag_inv h nodes d Hh Hn Hb)
    as (b & (Hm & Hi & I1 & I2 & I3 & I4 & I5) & Hc & Hin & -> & _).
  exists (index b). simpl. split_and!.
  - exact Hin.
  - intros i. split; [apply I5|]. intros [p Hp]. by destruct (Hi p i Hp).
  - exact I2.
  - intros p i Hp. split; [by destruct (Hi p i Hp)|].
    destruct (I1 p i Hp) as (m & Hl & Hs).
    by rewrite (list_lookup_total_correct _ _ _ Hl).
  - intros p q i Hp. destruct (Hc p i q Hp) as [C1 C2]; [tauto|].
    assert (Hback : ∀ j, index b !! q = Some j →
              ∃ m, metaNodes b !! j = Some m ∧ metaNodes b !!! j = m).
    { intros j Hj. destruct (I1 q j Hj) as (m & Hl & _). exists m.
      split; [done|]. by apply list_lookup_total_correct. }
    split; (split; [auto|]); intros (j & Hj & Hin');
      destruct (Hback j Hj) as (m & Hl & Hlt); rewrite Hlt in Hin';
      destruct (I4 j m i Hl) as [E1 E2];
      [destruct (E1 Hin') as (p' & q' & Hq' & Hp' & Hd)
      |destruct (E2 Hin') as (p' & q' & Hq' & Hp' & Hd)];
      by rewrite (I2 _ _ _ Hp Hp'), (I2 _ _ _ Hj Hq').
Qed.

Lemma NewDAG_mirrors_definitions_witness :
  ∃ idx : gmap ptr nat,
    (∀ p, Some p ∈ [Some 2%nat] → is_Some (idx !! p))
    ∧ (∀ i, (i < length (dag_metaNodes
                           (Scenarios.dag_of Examples.example_heap [Some 2%nat])))%nat
            ↔ ∃ p, idx !! p = Some i)
    ∧ (∀ p q i, idx !! p = Some i → idx !! q = Some i → p = q)
    ∧ (∀ p i, idx !! p = Some i →
         (p < length Examples.example_heap)%nat
         ∧ same_fields
             (dag_metaNodes (Scenarios.dag_of Examples.example_heap [Some 2%nat])
                !!! i)
             (newNodeMetadata (Examples.example_heap !!! p)))
    ∧ (∀ p q i, idx !! p = Some i →
         (Some q ∈ Dependencies (Examples.example_heap !!! p)
          ↔ ∃ j, idx !! q = Some j
                 ∧ i ∈ children
                       (dag_metaNodes
                          (Scenarios.dag_of Examples.example_heap [Some 2%nat])
                          !!! j))
         ∧ (Some q ∈ WeakDependencies (Examples.example_heap !!! p)
            ↔ ∃ j, idx !! q = Some j
                   ∧ i ∈ weakChildren
                         (dag_metaNodes
                            (Scenarios.dag_of Examples.example_heap [Some 2%nat])
                            !!! j))).
Proof.
  apply (NewDAG_mirrors_definitions Examples.example_heap [Some 2%nat]).
  - apply BuilderFacts.heap_okb_ok. vm_compute. reflexivity.
  - repeat constructor; simpl; lia.
  - vm_compute. reflexivity.
Defined.

End BuildFacts.
